(** * valdn: a shallow embedding of the validation session of [valdn.go]

    The development follows the Go source function by function.  Go maps
    are finite maps ([gmap]); the rule table of a session is an object on
    a small heap, because what the session may or may not do to the
    caller's table is part of what is verified.  A Go panic is the
    [Panic] result.

    The embedding comes first, then the vocabulary in which the
    properties are stated and a sample instance of the helpers, then the
    lemmas and the theorems, and last the theorems on concrete inputs. *)

From Stdlib Require Import Ascii String.
From stdpp Require Import gmap strings list fin_maps pretty.

Set Warnings "-register-all,-clear-no-such-hyp".

Local Open Scope string_scope.
Local Open Scope list_scope.

(** ** Results: a value, or a panic that unwinds the whole call *)

Inductive Res (A : Type) : Type :=
| Ok (a : A)
| Panic (msg : string).
Arguments Ok {A} a.
Arguments Panic {A} msg.

Global Instance Res_ret : MRet Res := @Ok.
Global Instance Res_bind : MBind Res := λ A B k m,
  match m with
  | Ok a => k a
  | Panic msg => Panic msg
  end.

Definition panics {A : Type} (m : Res A) : Prop := ∃ msg, m = Panic msg.

(** ** Values as [reflect] sees them *)

(** The kinds [validateByType] and [addTagRules] distinguish; every other
    kind of Go value (numbers, strings, pointers, ...) is [KOther]. *)
Inductive Kind : Type := KStruct | KMap | KSlice | KInterface | KOther.

Global Instance Kind_eq_dec : EqDecision Kind.
Proof. solve_decision. Defined.

Inductive Scalar : Type :=
| SString (s : string)
| SInt (z : Z)
| SBool (b : bool).

(** What [reflect.StructField] and [reflect.Value] tell about one field:
    its name, the text of its [valdn] tag ([f.Tag.Get(TagName)]), whether
    [CanInterface] holds (the field is exported), and whether its declared
    type is an interface type (then its kind is [Interface] whatever it
    holds). *)
Record FieldInfo : Type := mkField {
  f_name : string;
  f_tag : string;
  f_exported : bool;
  f_iface : bool
}.

(** An [interface{}] value.  [VMap] and [VSlice] are the two canonical
    shapes [map[string]interface{}] and [[]interface{}]; the entries of a
    [VMap] are listed in the order in which [range] yields them, which Go
    leaves open: every permutation of the list is the same Go map.
    [VTypedMap] and [VTypedSlice] are maps and slices of any other type,
    named by [ty].  [VNil] is the nil interface; in a struct it can only
    sit in a field of interface type.  A [Value] is a finite tree: a Go
    map or slice that contains itself, on which the traversal would not
    end, is no [Value]. *)
Inductive Value : Type :=
| VNil
| VScalar (s : Scalar)
| VStruct (fields : list (FieldInfo * Value))
| VMap (entries : list (string * Value))
| VSlice (elems : list Value)
| VTypedMap (ty : string)
| VTypedSlice (ty : string).

(** [reflect.TypeOf(val).Kind()]; [None] is the nil [reflect.Type] of a
    nil interface value. *)
Definition TypeOf (val : Value) : option Kind :=
  match val with
  | VNil => None
  | VScalar _ => Some KOther
  | VStruct _ => Some KStruct
  | VMap _ | VTypedMap _ => Some KMap
  | VSlice _ | VTypedSlice _ => Some KSlice
  end.

(** What the verb [%T] prints for a value. *)
Definition typeName (val : Value) : string :=
  match val with
  | VNil => "<nil>"
  | VScalar (SString _) => "string"
  | VScalar (SInt _) => "int"
  | VScalar (SBool _) => "bool"
  | VStruct _ => "struct"
  | VMap _ => "map[string]interface {}"
  | VSlice _ => "[]interface {}"
  | VTypedMap ty | VTypedSlice ty => ty
  end.

(** The declared type of a struct field, as [parTyp.Field(i).Type]. *)
Definition fieldType (fi : FieldInfo) (val : Value) : option Kind :=
  if f_iface fi then Some KInterface else TypeOf val.

(** ** One Go value, its maps listed in two orders *)

(** [same val val']: the two describe one Go value; they differ only in
    the order in which maps list their entries. *)
Inductive same : Value → Value → Prop :=
| same_refl val : same val val
| same_struct fs fs' : sameFields fs fs' → same (VStruct fs) (VStruct fs')
| same_map m m' : sameEntries m m' → same (VMap m) (VMap m')
| same_slice s s' : sameElems s s' → same (VSlice s) (VSlice s')
with sameFields : list (FieldInfo * Value) → list (FieldInfo * Value) → Prop :=
| sameFields_nil : sameFields [] []
| sameFields_cons fi c c' fs fs' :
    same c c' → sameFields fs fs' → sameFields ((fi, c) :: fs) ((fi, c') :: fs')
with sameEntries : list (string * Value) → list (string * Value) → Prop :=
| sameEntries_nil : sameEntries [] []
| sameEntries_skip k c c' m m' :
    same c c' → sameEntries m m' → sameEntries ((k, c) :: m) ((k, c') :: m')
| sameEntries_swap x y m : sameEntries (y :: x :: m) (x :: y :: m)
| sameEntries_trans m1 m2 m3 :
    sameEntries m1 m2 → sameEntries m2 m3 → sameEntries m1 m3
with sameElems : list Value → list Value → Prop :=
| sameElems_nil : sameElems [] []
| sameElems_cons c c' s s' :
    same c c' → sameElems s s' → sameElems (c :: s) (c' :: s').

Scheme same_mind := Minimality for same Sort Prop
  with sameFields_mind := Minimality for sameFields Sort Prop
  with sameEntries_mind := Minimality for sameEntries Sort Prop
  with sameElems_mind := Minimality for sameElems Sort Prop.

Combined Scheme same_mutind
  from same_mind, sameFields_mind, sameEntries_mind, sameElems_mind.

(** ** Rule tables, error maps, sessions *)

Abbreviation Rules := (gmap string (list string)).
Abbreviation Errors := (gmap string string).

(** A rule function of the registry: [(name, val, ruleValue)] to an error
    ([Some] message) or [nil].  Rule functions are taken to return. *)
Definition RuleFunc : Type := string → Value → string → option string.

(** Rule tables are Go maps, that is references: [loc] names one, [Heap]
    holds their contents. *)
Abbreviation loc := positive.
Abbreviation Heap := (gmap positive (gmap string (list string))).

Record validation : Type := mkValidation {
  rules : loc;
  errors : gmap string string;
  fieldsExist : gset string
}.

(** The package-level helpers that [valdn.go] calls but that live in
    other files of the package, and the rule registry behind
    [getRuleInfo] (its third component is the rule function, [None] when
    the name is not registered).  The development is parametric in them;
    they are taken to return, never to panic.  [TagSeparator] is the
    package variable of that name. *)
Class Externals : Type := {
  getRuleInfo : string → string * string * option RuleFunc;
  splitRuleNameAndRuleValue : string → string * string;
  getParentName : string → string;
  makeParentNameJoinable : string → string;
  toString : nat → string;
  GetErrMsg : string → string → string → Value → string;
  IsStruct : Value → bool;
  IsMap : Value → bool;
  IsSlice : Value → bool;
  TagSeparator : string
}.

(** [strings.Split(s, sep)] of the Go standard library.  With an empty
    separator it is [explode]: one piece for each UTF-8 sequence of [s],
    the bytes of an invalid or truncated encoding being sliced one by
    one.  [runeSize] is the size [utf8.DecodeRuneInString] returns: the
    first byte gives the length of the sequence and the range of the
    second byte, the other bytes are continuation bytes. *)
Definition byteIn (lo hi : nat) (c : ascii) : bool :=
  ((lo <=? nat_of_ascii c) && (nat_of_ascii c <=? hi))%nat.

Definition runeTail (sz lo hi : nat) (rest : string) : nat :=
  if (String.length rest <? sz - 1)%nat then 1
  else
    match rest with
    | String c1 r1 =>
        if negb (byteIn lo hi c1) then 1
        else if (sz <=? 2)%nat then 2
        else
          match r1 with
          | String c2 r2 =>
              if negb (byteIn 128 191 c2) then 1
              else if (sz <=? 3)%nat then 3
              else
                match r2 with
                | String c3 _ => if byteIn 128 191 c3 then 4 else 1
                | EmptyString => 1
                end
          | EmptyString => 1
          end
    | EmptyString => 1
    end.

Definition runeSize (s : string) : nat :=
  match s with
  | EmptyString => 0
  | String c0 rest =>
      let b := nat_of_ascii c0 in
      if (b <? 194)%nat then 1
      else if (b <? 224)%nat then runeTail 2 128 191 rest
      else if (b =? 224)%nat then runeTail 3 160 191 rest
      else if (b =? 237)%nat then runeTail 3 128 159 rest
      else if (b <? 240)%nat then runeTail 3 128 191 rest
      else if (b =? 240)%nat then runeTail 4 144 191 rest
      else if (b <? 244)%nat then runeTail 4 128 191 rest
      else if (b =? 244)%nat then runeTail 4 128 143 rest
      else 1
  end.

(** [more] is the number of bytes the sequence collected in [cur] still
    lacks; it is [0] at the start of a sequence. *)
Fixpoint explode_go (more : nat) (cur : string) (s : string) : list string :=
  match s with
  | EmptyString => []
  | String c s' =>
      let n := match more with O => runeSize s | _ => more end in
      let cur := cur +:+ String c EmptyString in
      match n with
      | S (S k) => explode_go (S k) cur s'
      | _ => cur :: explode_go 0 "" s'
      end
  end.

Definition explode (s : string) : list string := explode_go 0 "" s.

Fixpoint Split_go (sep : string) (skip : nat) (cur : string) (s : string)
  : list string :=
  match s with
  | EmptyString => [cur]
  | String c s' =>
      match skip with
      | S k => Split_go sep k cur s'
      | O =>
          if String.prefix sep s
          then cur :: Split_go sep (String.length sep - 1) "" s'
          else Split_go sep 0 (cur +:+ String c EmptyString) s'
      end
  end.

Definition Split (s sep : string) : list string :=
  if decide (sep = "") then explode s else Split_go sep 0 "" s.

(** A key of the form [parent + ".*"]. *)
Fixpoint isWildcard (s : string) : bool :=
  match s with
  | EmptyString => false
  | String a s' =>
      match s' with
      | EmptyString => false
      | String b EmptyString =>
          bool_decide (a = "."%char) && bool_decide (b = "*"%char)
      | _ => isWildcard s'
      end
  end.

Section valdn.
Context `{Externals}.

(** The table a session reads through [v.rules]; reading a nil or dangling
    map yields no entry. *)
Definition table (h : Heap) (v : validation) : gmap string (list string) :=
  default ∅ (h !! rules v).

(** Modelled from the spec: [copyRules] is not part of [valdn.go]; the
    spec has the rule table deep-copied, so the copy is a new map object
    with the entries of the original. *)
Definition copyRules (h : Heap) (r : loc) : Heap * loc :=
  let l := fresh (dom h) in
  (<[l := default ∅ (h !! r)]> h, l).

Definition createNewValidation (h : Heap) (r : loc) : Heap * validation :=
  let '(h', l) := copyRules h r in
  (h', {| rules := l; errors := ∅; fieldsExist := ∅ |}).

(** ** Validate *)

Fixpoint Validate (name : string) (val : Value) (rs : list string)
  : Res (option string) :=
  match rs with
  | [] => Ok None
  | r :: rest =>
      if decide (r = "") then Validate name val rest
      else
        let '(rName, rVal, rFunc) := getRuleInfo r in
        match rFunc with
        | None => Panic ("unknown rule: " +:+ rName)
        | Some f =>
            match f name val rVal with
            | Some err => Ok (Some err)
            | None => Validate name val rest
            end
        end
  end.

Definition registerField (name : string) (v : validation) : validation :=
  {| rules := rules v; errors := errors v;
     fieldsExist := {[name]} ∪ fieldsExist v |}.

Definition addError (name err : string) (v : validation) : validation :=
  {| rules := rules v; errors := <[name := err]> (errors v);
     fieldsExist := fieldsExist v |}.

(** A missing key reads as the nil slice. *)
Definition getFieldRules (h : Heap) (v : validation) (name : string)
  : list string :=
  match table h v !! name with
  | Some val => val
  | None => default [] (table h v !! (getParentName name +:+ ".*"))
  end.

Definition getParentRules (h : Heap) (v : validation) (name : string)
  : list string :=
  match table h v !! name with
  | Some val => val
  | None =>
      if decide (name ≠ "")
      then default [] (table h v !! (getParentName name +:+ ".*"))
      else []
  end.

(** ** The traversal

    [validateByType], [validateStruct], [validateMap], [validateSlice] and
    the three field loops call each other; the recursion is on the value.
    The bodies are written first over [rec], the call to [validateByType]
    on a child, and the knot is tied in [validateByType] below. *)

Section bodies.
Variable h : Heap.
Variable rec : string → option Kind → Value → validation → Res validation.

(** The loop of [validateStructFields], with its [CanInterface] test.
    Of it only [getStructFieldInfo] is not part of [valdn.go] and is
    modelled from the spec: for field [i] it yields the child path
    [parName + f.Name], the declared field type and the field value. *)
Fixpoint structFieldsLoop (fs : list (FieldInfo * Value)) (parName : string)
    (v : validation) : Res validation :=
  match fs with
  | [] => Ok v
  | (fi, val) :: rest =>
      if f_exported fi
      then v' ← rec (parName +:+ f_name fi) (fieldType fi val) val v;
           structFieldsLoop rest parName v'
      else structFieldsLoop rest parName v
  end.

Definition validateStructFields_ (fs : list (FieldInfo * Value))
    (parName : string) (v : validation) : Res validation :=
  structFieldsLoop fs (makeParentNameJoinable parName) v.

Fixpoint mapFieldsLoop (m : list (string * Value)) (parName : string)
    (v : validation) : Res validation :=
  match m with
  | [] => Ok v
  | (name, value) :: rest =>
      v' ← rec (parName +:+ name) (TypeOf value) value v;
      mapFieldsLoop rest parName v'
  end.

Definition validateMapFields_ (m : list (string * Value)) (parName : string)
    (v : validation) : Res validation :=
  mapFieldsLoop m (makeParentNameJoinable parName) v.

Fixpoint sliceFieldsLoop (s : list Value) (idx : nat) (parName : string)
    (v : validation) : Res validation :=
  match s with
  | [] => Ok v
  | value :: rest =>
      v' ← rec (parName +:+ toString idx) (TypeOf value) value v;
      sliceFieldsLoop rest (S idx) parName v'
  end.

Definition validateSliceFields_ (s : list Value) (parName : string)
    (v : validation) : Res validation :=
  sliceFieldsLoop s 0 (makeParentNameJoinable parName) v.

Definition validateStruct_ (val : Value) (name : string) (v : validation)
  : Res validation :=
  let r := getParentRules h v name in
  e ← Validate name val r;
  match e with
  | Some err => Ok (addError name err v)
  | None =>
      match val with
      | VStruct fs => validateStructFields_ fs name v
      | _ => Panic "reflect: NumField of non-struct type"
      end
  end.

Definition validateMap_ (val : Value) (name : string) (v : validation)
  : Res validation :=
  match val with
  | VMap m =>
      let r := getParentRules h v name in
      e ← Validate name val r;
      match e with
      | Some err => Ok (addError name err v)
      | None => validateMapFields_ m name v
      end
  | _ => Panic ("error validating " +:+ name +:+ ": type " +:+ typeName val
                +:+ " is not supported")
  end.

Definition validateSlice_ (val : Value) (name : string) (v : validation)
  : Res validation :=
  match val with
  | VSlice s =>
      let r := getParentRules h v name in
      e ← Validate name val r;
      match e with
      | Some err => Ok (addError name err v)
      | None => validateSliceFields_ s name v
      end
  | _ => Panic ("error validating " +:+ name +:+ ": type " +:+ typeName val
                +:+ " is not supported")
  end.

End bodies.

Fixpoint validateByType (h : Heap) (name : string) (t : option Kind)
    (val : Value) (v : validation) {struct val} : Res validation :=
  let v := registerField name v in
  let rules := getFieldRules h v name in
  match t with
  | None => Panic "runtime error: invalid memory address or nil pointer dereference"
  | Some KStruct => validateStruct_ h (validateByType h) val name v
  | Some KMap => validateMap_ h (validateByType h) val name v
  | Some KSlice => validateSlice_ h (validateByType h) val name v
  | Some _ =>
      e ← Validate name val rules;
      match e with
      | Some err => Ok (addError name err v)
      | None => Ok v
      end
  end.

(** The [switch] of [validateByType]; the top-level calls enter the
    traversal here, at the root path and without registering it. *)
Definition dispatch (h : Heap) (name : string) (t : option Kind)
    (val : Value) (v : validation) : Res validation :=
  match t with
  | None => Panic "runtime error: invalid memory address or nil pointer dereference"
  | Some KStruct => validateStruct_ h (validateByType h) val name v
  | Some KMap => validateMap_ h (validateByType h) val name v
  | Some KSlice => validateSlice_ h (validateByType h) val name v
  | Some _ =>
      e ← Validate name val (getFieldRules h v name);
      match e with
      | Some err => Ok (addError name err v)
      | None => Ok v
      end
  end.

Definition validateStruct (h : Heap) := validateStruct_ h (validateByType h).
Definition validateMap (h : Heap) := validateMap_ h (validateByType h).
Definition validateSlice (h : Heap) := validateSlice_ h (validateByType h).
Definition validateStructFields (h : Heap) :=
  validateStructFields_ (validateByType h).
Definition validateMapFields (h : Heap) :=
  validateMapFields_ (validateByType h).
Definition validateSliceFields (h : Heap) :=
  validateSliceFields_ (validateByType h).

(** ** Merging the struct tags into the session's table *)

(** [v.rules[name] = rs]: the write goes to the map object of the
    session. *)
Definition setRule (v : validation) (name : string) (rs : list string)
    (h : Heap) : Heap :=
  <[rules v := <[name := rs]> (table h v)]> h.

Definition isComposite (i : Value) : bool :=
  IsStruct i || IsMap i || IsSlice i.

Section tagBodies.
Variable v : validation.
(** [rec dyn i name] is the recursive call [v.addTagRules(_, _, name)]:
    with [dyn = true] its first argument is the value [i] itself (and the
    type is [reflect.TypeOf(i)]), with [dyn = false] it is the
    [reflect.StructField] of a field holding [i] (and the type is the
    declared type of the field). *)
Variable rec : bool → Value → string → Heap → Heap.

Fixpoint tagMapLoop (m : list (string * Value)) (parName : string)
    (h : Heap) : Heap :=
  match m with
  | [] => h
  | (k, i) :: rest =>
      tagMapLoop rest parName
        (if isComposite i then rec true i (parName +:+ k) h else h)
  end.

Fixpoint tagSliceLoop (s : list Value) (k : nat) (parName : string)
    (h : Heap) : Heap :=
  match s with
  | [] => h
  | i :: rest =>
      tagSliceLoop rest (S k) parName
        (if isComposite i then rec true i (parName +:+ toString k) h else h)
  end.

Definition tagField (fi : FieldInfo) (val : Value) (parName : string)
    (h : Heap) : Heap :=
  let name := parName +:+ f_name fi in
  let tRules := f_tag fi in
  let h :=
    match table h v !! name with
    | None => if decide (tRules ≠ "")
              then setRule v name (Split tRules TagSeparator) h else h
    | Some _ => h
    end in
  match fieldType fi val with
  | Some KStruct | Some KMap | Some KSlice => rec false val name h
  | _ => h
  end.

Fixpoint tagStructLoop (fs : list (FieldInfo * Value)) (parName : string)
    (h : Heap) : Heap :=
  match fs with
  | [] => h
  | (fi, val) :: rest => tagStructLoop rest parName (tagField fi val parName h)
  end.

End tagBodies.

(** A [reflect.StructField] is neither a [map[string]interface{}] nor a
    [[]interface{}], so with [dyn = false] both type assertions fail and
    only the declared type is looked at. *)
Fixpoint addTagRules (v : validation) (dyn : bool) (val : Value)
    (parName : string) (h : Heap) {struct val} : Heap :=
  let parName := makeParentNameJoinable parName in
  let h :=
    match val with
    | VMap m => if dyn then tagMapLoop (addTagRules v) m parName h else h
    | _ => h
    end in
  let h :=
    match val with
    | VSlice s => if dyn then tagSliceLoop (addTagRules v) s 0 parName h else h
    | _ => h
    end in
  match val with
  | VStruct fs => tagStructLoop v (addTagRules v) fs parName h
  | _ => h
  end.

(** ** The pass over required fields that were never met *)

Definition requiredStep (name : string) (v : validation) (r : string)
  : validation :=
  let '(rName, rVal) := splitRuleNameAndRuleValue r in
  if decide (rName = "required")
  then if decide (name ∈ fieldsExist v) then v
       else addError name
              (GetErrMsg "required" rVal name (VScalar (SString ""))) v
  else v.

Definition requiredEntry (v : validation) (e : string * list string)
  : validation :=
  if decide (e.1 = "*") then v
  else fold_left (requiredStep e.1) e.2 v.

Definition validateNonExistRequiredFields (h : Heap) (v : validation)
  : validation :=
  fold_left requiredEntry (map_to_list (table h v)) v.

(** ** Entry points

    Each returns the heap it leaves behind together with the error map or
    the panic; [r] is the caller's rule table. *)

Definition ValidateStruct (h : Heap) (val : Value) (r : loc)
  : Heap * Res (gmap string string) :=
  if negb (IsStruct val) then (h, Panic "val is not a struct")
  else
    let '(h1, v) := createNewValidation h r in
    let h2 := addTagRules v true val "" h1 in
    (h2, v1 ← validateStruct h2 val "" v;
         Ok (errors (validateNonExistRequiredFields h2 v1))).

Definition ValidateMap (h : Heap) (val : list (string * Value)) (r : loc)
  : Heap * Res (gmap string string) :=
  let '(h1, v) := createNewValidation h r in
  let h2 := addTagRules v true (VMap val) "" h1 in
  (h2, v1 ← validateMap h2 (VMap val) "" v;
       Ok (errors (validateNonExistRequiredFields h2 v1))).

Definition ValidateSlice (h : Heap) (val : list Value) (r : loc)
  : Heap * Res (gmap string string) :=
  let '(h1, v) := createNewValidation h r in
  let h2 := addTagRules v true (VSlice val) "" h1 in
  (h2, v1 ← validateSlice h2 (VSlice val) "" v;
       Ok (errors (validateNonExistRequiredFields h2 v1))).

(** * The vocabulary of the verification *)

(** ** Induction on values, through the lists of children *)

Section Value_induction.
Variable P : Value → Prop.
Hypothesis Pnil : P VNil.
Hypothesis Pscalar : ∀ s, P (VScalar s).
Hypothesis Pstruct : ∀ fs, Forall (λ x, P x.2) fs → P (VStruct fs).
Hypothesis Pmap : ∀ m, Forall (λ x, P x.2) m → P (VMap m).
Hypothesis Pslice : ∀ s, Forall P s → P (VSlice s).
Hypothesis Ptmap : ∀ ty, P (VTypedMap ty).
Hypothesis Ptslice : ∀ ty, P (VTypedSlice ty).

Fixpoint Value_children_ind (val : Value) : P val :=
  match val with
  | VNil => Pnil
  | VScalar s => Pscalar s
  | VStruct fs =>
      Pstruct fs
        ((fix go (l : list (FieldInfo * Value)) : Forall (λ x, P x.2) l :=
            match l with
            | [] => List.Forall_nil _
            | (fi, c) :: l' =>
                List.Forall_cons (λ x, P x.2) (fi, c) l' (Value_children_ind c) (go l')
            end) fs)
  | VMap m =>
      Pmap m
        ((fix go (l : list (string * Value)) : Forall (λ x, P x.2) l :=
            match l with
            | [] => List.Forall_nil _
            | (k, c) :: l' =>
                List.Forall_cons (λ x, P x.2) (k, c) l' (Value_children_ind c) (go l')
            end) m)
  | VSlice s =>
      Pslice s
        ((fix go (l : list Value) : Forall P l :=
            match l with
            | [] => List.Forall_nil _
            | c :: l' => List.Forall_cons P c l' (Value_children_ind c) (go l')
            end) s)
  | VTypedMap ty => Ptmap ty
  | VTypedSlice ty => Ptslice ty
  end.

End Value_induction.

(** ** What a traversal writes

    During the traversal the session is never read, except for its rule
    table, and the table is not written.  So what a traversal does is
    fixed by the contents [T] of the table: it panics, or it adds error
    entries and visited paths to whatever session it is run in. *)

Definition Effect : Type := gmap string string * gset string.

Definition apply (e : Effect) (v : validation) : validation :=
  {| rules := rules v; errors := e.1 ∪ errors v;
     fieldsExist := e.2 ∪ fieldsExist v |}.

Definition andThen (e1 e2 : Effect) : Effect := (e2.1 ∪ e1.1, e2.2 ∪ e1.2).

Definition lift (out : Res Effect) (v : validation) : Res validation :=
  match out with
  | Ok e => Ok (apply e v)
  | Panic msg => Panic msg
  end.

Definition writes (T : gmap string (list string))
    (f : Heap → validation → Res validation) (out : Res Effect) : Prop :=
  ∀ h v, table h v = T → f h v = lift out v.

(** The rules a table gives a path, as [getFieldRules] and
    [getParentRules] compute them. *)
Definition fieldRulesOf (T : gmap string (list string)) (name : string)
  : list string :=
  match T !! name with
  | Some val => val
  | None => default [] (T !! (getParentName name +:+ ".*"))
  end.

Definition parentRulesOf (T : gmap string (list string)) (name : string)
  : list string :=
  match T !! name with
  | Some val => val
  | None =>
      if decide (name ≠ "")
      then default [] (T !! (getParentName name +:+ ".*"))
      else []
  end.

(** What one call of [validateByType] at [name] may write: the path
    itself is visited, and errors are recorded at visited paths only. *)
Definition fieldEffect (name : string) (out : Res Effect) : Prop :=
  ∀ e, out = Ok e → name ∈ e.2 ∧ dom e.1 ⊆ e.2.

Definition loopEffect (out : Res Effect) : Prop :=
  ∀ e, out = Ok e → dom e.1 ⊆ e.2.

(** A composite visited at [name] may also record its own error. *)
Definition nodeEffect (name : string) (out : Res Effect) : Prop :=
  ∀ e, out = Ok e → dom e.1 ⊆ {[name]} ∪ e.2.

Definition childWrites (T : gmap string (list string))
    (rec : Heap → string → option Kind → Value → validation → Res validation)
    (c : Value) : Prop :=
  ∀ name t, ∃ out, writes T (λ h, rec h name t c) out ∧ fieldEffect name out.

(** ** Sessions only grow *)

Definition grows (v v' : validation) : Prop :=
  rules v' = rules v
  ∧ dom (errors v) ⊆ dom (errors v')
  ∧ fieldsExist v ⊆ fieldsExist v'.

(** ** The calls a traversal makes *)

(** One call of [validateByType]: path, type, value. *)
Definition Call : Type := string * option Kind * Value.

(** The children of a composite at [name], as the three field loops hand
    them to [validateByType]. *)
Definition kids (val : Value) (name : string) : list Call :=
  let p := makeParentNameJoinable name in
  match val with
  | VStruct fs =>
      omap (λ x, if f_exported x.1
                 then Some (p +:+ f_name x.1, fieldType x.1 x.2, x.2)
                 else None) fs
  | VMap m => (λ x, (p +:+ x.1, TypeOf x.2, x.2)) <$> m
  | VSlice s => imap (λ i c, (p +:+ toString i, TypeOf c, c)) s
  | _ => []
  end.

Fixpoint callLoop (h : Heap) (ks : list Call) (v : validation)
  : Res validation :=
  match ks with
  | [] => Ok v
  | (name, t, val) :: rest =>
      v' ← validateByType h name t val v; callLoop h rest v'
  end.

(** The value is of the shape its type announces, so that the node is
    entered. *)
Definition isNode (t : option Kind) (val : Value) : bool :=
  match t, val with
  | Some KStruct, VStruct _ | Some KMap, VMap _ | Some KSlice, VSlice _ => true
  | _, _ => false
  end.

(** The own rules of the node of call [c], under table [T]. *)
Definition ownRules (T : gmap string (list string)) (c : Call)
  : Res (option string) :=
  Validate c.1.1 c.2 (parentRulesOf T c.1.1).

Definition descends (T : gmap string (list string)) (c : Call) : Prop :=
  isNode c.1.2 c.2 = true ∧ ownRules T c = Ok None.

Definition failsOwn (T : gmap string (list string)) (c : Call) : Prop :=
  isNode c.1.2 c.2 = true ∧ ∃ err, ownRules T c = Ok (Some err).

(** [reaches T c c']: unless a panic cuts the traversal short, handling
    call [c] leads to call [c'], on a node inside the value of [c]. *)
Inductive reaches (T : gmap string (list string)) : Call → Call → Prop :=
| reaches_here c : reaches T c c
| reaches_kid c k c' :
    descends T c → k ∈ kids c.2 c.1.1 → reaches T k c' → reaches T c c'.

(** [c'] is met strictly inside [c]: a non-root field when [c] is the
    root. *)
Definition reachesInside (T : gmap string (list string)) (c c' : Call) : Prop :=
  descends T c ∧ ∃ k, k ∈ kids c.2 c.1.1 ∧ reaches T k c'.

(** ** The pass over required fields *)

(** The messages the pass computes for the entry [(name, rs)], one for
    each [required] expression of [rs], in order. *)
Definition requiredMessages (name : string) (rs : list string) : list string :=
  omap (λ r,
    let '(rName, rVal) := splitRuleNameAndRuleValue r in
    if decide (rName = "required")
    then Some (GetErrMsg "required" rVal name (VScalar (SString "")))
    else None) rs.

(** The spec [rs] contains a [required] expression. *)
Definition hasRequired (rs : list string) : Prop :=
  Exists (λ r, (splitRuleNameAndRuleValue r).1 = "required") rs.

(** What the pass writes at path [q], if anything. *)
Definition requiredAbsent (T : gmap string (list string)) (v : validation)
    (q : string) : option string :=
  if decide (q = "*") then None
  else if decide (q ∈ fieldsExist v) then None
  else T !! q ≫= λ rs, last (requiredMessages q rs).

(** ** Merging tags *)

(** [f] changes no rule table but the session's, keeps every entry that
    table has, and what it makes of the table depends on the contents of
    the table only. *)
Definition merges (f : validation → Heap → Heap) : Prop :=
  ∃ g : gmap string (list string) → gmap string (list string),
    (∀ T, T ⊆ g T)
    ∧ ∀ v h, table (f v h) v = g (table h v)
             ∧ ∀ l, l ≠ rules v → f v h !! l = h !! l.

Definition childMerges
    (rec : validation → bool → Value → string → Heap → Heap) (c : Value)
  : Prop :=
  ∀ dyn p, merges (λ v, rec v dyn c p).

(** ** The three entry points, as one *)

Inductive Input : Type :=
| InStruct (val : Value)
| InMap (m : list (string * Value))
| InSlice (s : list Value).

Definition rootValue (i : Input) : Value :=
  match i with
  | InStruct val => val
  | InMap m => VMap m
  | InSlice s => VSlice s
  end.

Definition rootType (i : Input) : option Kind :=
  match i with
  | InStruct _ => Some KStruct
  | InMap _ => Some KMap
  | InSlice _ => Some KSlice
  end.

(** The root is handled at the empty path. *)
Definition rootCall (i : Input) : Call := ("", rootType i, rootValue i).

Definition run (h : Heap) (i : Input) (r : loc)
  : Heap * Res (gmap string string) :=
  match i with
  | InStruct val => ValidateStruct h val r
  | InMap m => ValidateMap h m r
  | InSlice s => ValidateSlice h s r
  end.

(** [ValidateStruct] refuses what is not a struct. *)
Definition accepted (i : Input) : bool :=
  match i with
  | InStruct val => IsStruct val
  | _ => true
  end.

(** The heap and the session once the tags are merged, before the
    traversal starts. *)
Definition session (h : Heap) (i : Input) (r : loc) : Heap * validation :=
  let '(h1, v) := createNewValidation h r in
  (addTagRules v true (rootValue i) "" h1, v).

Definition sessionTable (h : Heap) (i : Input) (r : loc)
  : gmap string (list string) :=
  table (session h i r).1 (session h i r).2.

(** The session after the traversal. *)
Definition traversal (h : Heap) (i : Input) (r : loc) : Res validation :=
  dispatch (session h i r).1 "" (rootType i) (rootValue i) (session h i r).2.

(** ** Evaluating rule expressions *)

(** What evaluating one non-empty rule expression gives: a panic for a
    name the registry does not know, else what the rule function
    returns. *)
Definition evalRule (name : string) (val : Value) (r : string)
  : Res (option string) :=
  let '(rName, rVal, rFunc) := getRuleInfo r in
  match rFunc with
  | None => Panic ("unknown rule: " +:+ rName)
  | Some f => Ok (f name val rVal)
  end.

(** The expression is skipped, or its rule function returns nil. *)
Definition passes (name : string) (val : Value) (r : string) : Prop :=
  r ≠ "" → evalRule name val r = Ok None.

(** The rule spec call [c] evaluates, if it gets as far as evaluating
    one: a composite its own rules, any other field its field rules. *)
Definition rulesAt (T : gmap string (list string)) (c : Call)
  : option (list string) :=
  match c.1.2 with
  | None => None
  | Some KStruct => Some (parentRulesOf T c.1.1)
  | Some KMap | Some KSlice =>
      if isNode c.1.2 c.2 then Some (parentRulesOf T c.1.1) else None
  | Some _ => Some (fieldRulesOf T c.1.1)
  end.

(** Evaluating [rs] in order comes to an expression whose rule name
    [rName] the registry does not know. *)
Definition hitsUnknown (name : string) (val : Value) (rs : list string)
    (rName : string) : Prop :=
  ∃ pre r post rVal,
    rs = pre ++ r :: post ∧ Forall (passes name val) pre
    ∧ r ≠ "" ∧ getRuleInfo r = (rName, rVal, None).

(** ** Plain data under a table that governs none of its paths *)

(** Plain data: scalars, and canonical maps and slices of plain data, as
    a decoded JSON document without [null]. *)
Fixpoint plain (val : Value) : bool :=
  match val with
  | VScalar _ => true
  | VMap m => forallb (λ x, plain x.2) m
  | VSlice s => forallb plain s
  | _ => false
  end.

Section pathLoops.
Variable rec : Value → string → list string.

Fixpoint structPaths (fs : list (FieldInfo * Value)) (p : string)
  : list string :=
  match fs with
  | [] => []
  | (fi, c) :: rest =>
      (p +:+ f_name fi) :: rec c (p +:+ f_name fi) ++ structPaths rest p
  end.

Fixpoint mapPaths (m : list (string * Value)) (p : string) : list string :=
  match m with
  | [] => []
  | (k, c) :: rest => (p +:+ k) :: rec c (p +:+ k) ++ mapPaths rest p
  end.

Fixpoint slicePaths (s : list Value) (idx : nat) (p : string) : list string :=
  match s with
  | [] => []
  | c :: rest =>
      (p +:+ toString idx) :: rec c (p +:+ toString idx)
        ++ slicePaths rest (S idx) p
  end.

End pathLoops.

(** The paths of all the fields inside a value that sits at [name], at
    any depth. *)
Fixpoint paths (val : Value) (name : string) : list string :=
  match val with
  | VStruct fs => structPaths paths fs (makeParentNameJoinable name)
  | VMap m => mapPaths paths m (makeParentNameJoinable name)
  | VSlice s => slicePaths paths s 0 (makeParentNameJoinable name)
  | _ => []
  end.

(** No entry of [T] applies to path [q], exactly or as a wildcard. *)
Definition ungoverned (T : gmap string (list string)) (q : string) : Prop :=
  T !! q = None ∧ T !! (getParentName q +:+ ".*") = None.

(** [f] succeeds, records no error, and visits paths of [ps] only. *)
Definition quiet (T : gmap string (list string))
    (f : Heap → validation → Res validation) (ps : list string) : Prop :=
  ∀ h v, table h v = T →
    ∃ v', f h v = Ok v' ∧ rules v' = rules v ∧ errors v' = errors v
          ∧ ∀ q, q ∈ fieldsExist v' → q ∈ fieldsExist v ∨ q ∈ ps.

Definition childQuiet (T : gmap string (list string)) (c : Value) : Prop :=
  plain c = true → ∀ name,
    Forall (ungoverned T) (name :: paths c name) →
    quiet T (λ h, validateByType h name (TypeOf c) c) (name :: paths c name).

(** ** What merging the tags adds *)

(** [f] extends the table of the session by the entries of [M], where
    the table has none, and changes no other rule table. *)
Definition adds (f : validation → Heap → Heap)
    (M : gmap string (list string)) : Prop :=
  ∀ v h, table (f v h) v = table h v ∪ M
         ∧ ∀ l, l ≠ rules v → f v h !! l = h !! l.

Definition childAdds
    (rec : validation → bool → Value → string → Heap → Heap) (c : Value)
  : Prop :=
  ∀ dyn p, ∃ M, adds (λ v, rec v dyn c p) M
                ∧ dom M ⊆ list_to_set (paths c p).

(** ** The order of maps *)

(** The helpers and the rule functions of the registry do not see the
    order in which a map lists its entries. *)
Definition orderBlind : Prop :=
  ∀ val val', same val val' →
    IsStruct val = IsStruct val' ∧ IsMap val = IsMap val'
    ∧ IsSlice val = IsSlice val'
    ∧ ∀ r f name rVal,
        (getRuleInfo r).2 = Some f → f name val rVal = f name val' rVal.

(** Two outcomes agree: the same writes, or two panics. *)
Definition agree (o o' : Res Effect) : Prop :=
  match o, o' with
  | Ok e, Ok e' => e = e'
  | Panic _, Panic _ => True
  | _, _ => False
  end.

(** [f] visits paths of [ps] only. *)
Definition bounded (f : Heap → validation → Res validation)
    (ps : list string) : Prop :=
  ∀ h v v', f h v = Ok v' →
    ∀ q, q ∈ fieldsExist v' → q ∈ fieldsExist v ∨ q ∈ ps.

Definition childBounded (c : Value) : Prop :=
  ∀ name t, bounded (λ h, validateByType h name t c) (name :: paths c name).

(** The outcome of [f] under table [T], read off a run in an empty
    session. *)
Definition effectOf (T : gmap string (list string))
    (f : Heap → validation → Res validation) : Res Effect :=
  match f {[1%positive := T]} (mkValidation 1%positive ∅ ∅) with
  | Ok v' => Ok (errors v', fieldsExist v')
  | Panic msg => Panic msg
  end.

(** [f] only writes. *)
Definition writer (T : gmap string (list string))
    (f : Heap → validation → Res validation) : Prop :=
  writes T f (effectOf T f).

(** What [f] adds to the table, read off a run on an empty table. *)
Definition addedBy (f : validation → Heap → Heap)
  : gmap string (list string) :=
  table (f (mkValidation 1%positive ∅ ∅) ∅) (mkValidation 1%positive ∅ ∅).

Definition adder (f : validation → Heap → Heap) : Prop :=
  adds f (addedBy f).

(** The two inputs are one Go value handed to the same entry point. *)
Definition sameInput (i i' : Input) : Prop :=
  rootType i = rootType i' ∧ same (rootValue i) (rootValue i').

(** Two runs end alike: the same error map, or two panics. *)
Definition sameOutcome (o o' : Res (gmap string string)) : Prop :=
  match o, o' with
  | Ok e, Ok e' => e = e'
  | Panic _, Panic _ => True
  | _, _ => False
  end.

(** One step of a tag loop over a map or a slice. *)
Definition tagElem (i : Value) (name : string) (v : validation) (h : Heap)
  : Heap :=
  if isComposite i then addTagRules v true i name h else h.

(** The tag part and the descent of [tagField]. *)
Definition tagOwn (fi : FieldInfo) (p : string) (v : validation) (h : Heap)
  : Heap :=
  match table h v !! (p +:+ f_name fi) with
  | None => if decide (f_tag fi ≠ "")
            then setRule v (p +:+ f_name fi) (Split (f_tag fi) TagSeparator) h
            else h
  | Some _ => h
  end.

Definition tagInto (t : option Kind) (c : Value) (name : string)
    (v : validation) (h : Heap) : Heap :=
  match t with
  | Some KStruct | Some KMap | Some KSlice => addTagRules v false c name h
  | _ => h
  end.

(** ** Calls that return *)

(** A rule expression [Validate] can evaluate: it is skipped, or the
    registry knows its name. *)
Definition known (r : string) : Prop :=
  r = "" ∨ is_Some (getRuleInfo r).2.

Definition tableKnown (T : gmap string (list string)) : Prop :=
  ∀ q rs, T !! q = Some rs → Forall known rs.

(** A value the traversal can walk through: a finite tree (as every
    [Value] is: no map or slice contains itself) with no nil value and no
    map or slice of another type than [map[string]interface{}] and
    [[]interface{}] where [validateByType] looks at the type of the
    value, that is everywhere but in struct fields that are unexported or
    of interface type. *)
Fixpoint walkable (val : Value) : bool :=
  match val with
  | VScalar _ => true
  | VStruct fs =>
      forallb (λ x, negb (f_exported x.1) || f_iface x.1 || walkable x.2) fs
  | VMap m => forallb (λ x, walkable x.2) m
  | VSlice s => forallb walkable s
  | _ => false
  end.

(** [f] returns, in every session that reads table [T]. *)
Definition returns (T : gmap string (list string))
    (f : Heap → validation → Res validation) : Prop :=
  ∀ h v, table h v = T → ∃ v', f h v = Ok v'.

(** The path of a call and the paths of the fields inside its value. *)
Definition inside (c : Call) : list string := c.1.1 :: paths c.2 c.1.1.

End valdn.

(** ** A concrete instance of the helpers, for running examples *)

Module Sample.

(** Modelled from the spec: a rule expression is [name] or
    [name:parameter]; the split is at the first separator. *)
Fixpoint splitColon (s : string) : string * string :=
  match s with
  | EmptyString => ("", "")
  | String c s' =>
      if decide (c = ":"%char) then ("", s')
      else let '(a, b) := splitColon s' in (String c a, b)
  end.

Definition isDot (c : ascii) : bool := bool_decide (c = "."%char).

Fixpoint hasDot (s : string) : bool :=
  match s with
  | EmptyString => false
  | String c s' => isDot c || hasDot s'
  end.

(** Modelled from the spec: [parent(path)] strips the final path segment;
    a path of one segment has the root path as its parent. *)
Fixpoint parentName (s : string) : string :=
  match s with
  | EmptyString => ""
  | String c s' =>
      if hasDot s'
      then String c (parentName s')
      else ""
  end.

(** Modelled from the spec: a child path is the parent path, a
    separator, and the field name; the root path is empty. *)
Definition joinable (name : string) : string :=
  if decide (name = "") then "" else name +:+ ".".

Fixpoint parseNat (s : string) (acc : nat) : nat :=
  match s with
  | EmptyString => acc
  | String c s' => parseNat s' (10 * acc + (nat_of_ascii c - 48))
  end.

Definition errMsg (rule rVal name : string) (val : Value) : string :=
  name +:+ " fails " +:+ rule +:+
  (if decide (rVal = "") then "" else ":" +:+ rVal).

Definition isEmpty (val : Value) : bool :=
  match val with
  | VNil | VScalar (SString "") | VStruct [] | VMap [] | VSlice [] => true
  | _ => false
  end.

Definition sizeOf (val : Value) : nat :=
  match val with
  | VScalar (SString s) => String.length s
  | VScalar (SInt z) => Z.to_nat z
  | VStruct l => length l
  | VMap l => length l
  | VSlice l => length l
  | _ => 0
  end.

(** A small registry: [required], [min:n] and [string]. *)
Definition registry (rName : string) : option RuleFunc :=
  if decide (rName = "required") then
    Some (λ name val rVal,
      if isEmpty val then Some (errMsg "required" rVal name val) else None)
  else if decide (rName = "min") then
    Some (λ name val rVal,
      if (sizeOf val <? parseNat rVal 0)%nat
      then Some (errMsg "min" rVal name val) else None)
  else if decide (rName = "string") then
    Some (λ name val rVal,
      match val with
      | VScalar (SString _) => None
      | _ => Some (errMsg "string" rVal name val)
      end)
  else None.

Definition ruleInfo (r : string) : string * string * option RuleFunc :=
  let '(rName, rVal) := splitColon r in (rName, rVal, registry rName).

Definition ext : Externals := {|
  getRuleInfo := ruleInfo;
  splitRuleNameAndRuleValue := splitColon;
  getParentName := parentName;
  makeParentNameJoinable := joinable;
  toString := pretty;
  GetErrMsg := errMsg;
  IsStruct := λ val, bool_decide (TypeOf val = Some KStruct);
  IsMap := λ val, bool_decide (TypeOf val = Some KMap);
  IsSlice := λ val, bool_decide (TypeOf val = Some KSlice);
  TagSeparator := "|"
|}.

(** The caller's heap in the examples: one rule table, at location 1. *)
Definition heapOf (rs : gmap string (list string)) : Heap := {[ 1%positive := rs ]}.


Definition str (s : string) : Value := VScalar (SString s).

(** The inputs of the examples. *)

Definition caller : loc := 1%positive.

Definition userMap : list (string * Value) := [("user", VMap [])].

Definition userRules : gmap string (list string) :=
  {[ "user" := ["required"]; "user.name" := ["required"] ]}.

Definition userCall : Call := ("user", Some KMap, VMap []).

Definition tagsMap : list (string * Value) := [("tags", VSlice [str "a"])].

Definition tagsRules : gmap string (list string) :=
  {[ "tags.*" := ["required"] ]}.

Definition rootRules : gmap string (list string) :=
  {[ "" := ["string"; "required"] ]}.

Definition oneField : list (string * Value) := [("a", str "x")].

Definition profileRules : gmap string (list string) :=
  {[ "profile" := ["required"] ]}.

Definition noProfile : list (string * Value) :=
  [("name", str "bob"); ("tags", VSlice [str "a"; str "bb"])].

Definition dotStarRules : gmap string (list string) := {[ ".*" := ["min:3"] ]}.

Definition emptyKey : list (string * Value) := [("", str "ab")].

Definition person : Value :=
  VStruct [ (mkField "Age" "required|min:18" true false, VScalar (SInt 10));
            (mkField "Name" "required" true false, str "") ].

Definition ageRules : gmap string (list string) := {[ "Age" := ["min:5"] ]}.

Definition unknownRules : gmap string (list string) :=
  {[ "a" := ["required"; ""; "nosuch"; "min:3"] ]}.

Definition fieldA : Call := ("a", Some KOther, str "x").

Definition typedMap : list (string * Value) :=
  [("m", VTypedMap "map[string]string")].

Definition fieldM : Call := ("m", Some KMap, VTypedMap "map[string]string").

Definition nameMap : list (string * Value) :=
  [("user", VMap [("name", str "")])].

Definition nameRules : gmap string (list string) :=
  {[ "user.name" := ["required"] ]}.

Definition fieldName : Call := ("user.name", Some KOther, str "").

(** One Go map, its two entries in the two orders [range] may yield
    them; the key [a.b] and the field [b] of the map at [a] get the same
    path. *)
Definition clashOne : list (string * Value) :=
  [("a", VMap [("b", str "x")]); ("a.b", str "")].

Definition clashTwo : list (string * Value) :=
  [("a.b", str ""); ("a", VMap [("b", str "x")])].

Definition clashRules : gmap string (list string) :=
  {[ "a.b" := ["required"; "min:3"] ]}.

(** One Go map with two entries that get different paths, in the two
    orders. *)
Definition pairOne : list (string * Value) :=
  [("name", str ""); ("age", VScalar (SInt 3))].

Definition pairTwo : list (string * Value) :=
  [("age", VScalar (SInt 3)); ("name", str "")].

Definition pairRules : gmap string (list string) :=
  {[ "name" := ["required"]; "age" := ["min:18"] ]}.

(** A struct with an exported and an unexported field, both tagged. *)
Definition badgeFields : list (FieldInfo * Value) :=
  [ (mkField "Name" "required|min:2" true false, str "ann");
    (mkField "secret" "required" false false, str "s3") ].

Definition badgeName : FieldInfo := mkField "Name" "required|min:2" true false.

Definition badgeSecret : FieldInfo := mkField "secret" "required" false false.

Definition noRules : gmap string (list string) := ∅.

Definition starRules : gmap string (list string) :=
  {[ "*" := ["required"]; "profile" := ["required"] ]}.

Definition nilMap : list (string * Value) := [("a", VNil)].

Definition fieldNil : Call := ("a", None, VNil).

Definition minAgeRules : gmap string (list string) :=
  {[ "age" := ["min:18"] ]}.

(** A map that is too small for its own rule, holding a field that is
    present. *)
Definition bobMap : list (string * Value) :=
  [("user", VMap [("name", str "bob")])].

Definition bobRules : gmap string (list string) :=
  {[ "user" := ["min:5"]; "user.name" := ["required"] ]}.

Definition bobCall : Call := ("user", Some KMap, VMap [("name", str "bob")]).


Definition blank : validation := mkValidation caller ∅ ∅.

End Sample.

(** * Meta-theory of the traversal *)

Section valdn_theory.
Context `{Externals}.

(** ** The traversal only writes *)

Lemma getFieldRules_table h v name :
  getFieldRules h v name = fieldRulesOf (table h v) name.
Proof. reflexivity. Qed.

Lemma getParentRules_table h v name :
  getParentRules h v name = parentRulesOf (table h v) name.
Proof. reflexivity. Qed.

Lemma apply_empty v : apply (∅, ∅) v = v.
Proof.
  destruct v as [l e f]. unfold apply; simpl.
  by rewrite (left_id_L ∅ (∪) e), (left_id_L ∅ (∪) f).
Qed.

Lemma apply_apply e1 e2 v : apply e2 (apply e1 v) = apply (andThen e1 e2) v.
Proof.
  unfold apply, andThen; simpl. f_equal.
  - by rewrite (assoc_L (∪)).
  - by rewrite (assoc_L (∪)).
Qed.

Lemma registerField_apply name v :
  registerField name v = apply (∅, {[name]}) v.
Proof.
  unfold registerField, apply; simpl. by rewrite (left_id_L ∅ (∪) (errors v)).
Qed.

Lemma addError_apply name err v :
  addError name err v = apply ({[name := err]}, ∅) v.
Proof.
  unfold addError, apply; simpl.
  by rewrite insert_union_singleton_l, (left_id_L ∅ (∪) (fieldsExist v)).
Qed.

Lemma writes_ret T : writes T (λ _ v, Ok v) (Ok (∅, ∅)).
Proof. intros h v _. simpl. by rewrite apply_empty. Qed.

Lemma writes_bind T f g o1 o2 :
  writes T f o1 → writes T g o2 →
  writes T (λ h v, v' ← f h v; g h v')
    (e1 ← o1; e2 ← o2; Ok (andThen e1 e2)).
Proof.
  intros Hf Hg h v HT. rewrite (Hf h v HT).
  destruct o1 as [e1|m1]; simpl; [|done].
  rewrite (Hg h (apply e1 v)) by done.
  destruct o2 as [e2|m2]; simpl; [|done].
  by rewrite apply_apply.
Qed.

Lemma loopEffect_panic msg : loopEffect (Panic msg).
Proof. intros e E. discriminate E. Qed.

Lemma nodeEffect_panic name msg : nodeEffect name (Panic msg).
Proof. intros e E. discriminate E. Qed.

Lemma effect_seq name o1 o2 :
  fieldEffect name o1 → loopEffect o2 →
  loopEffect (e1 ← o1; e2 ← o2; Ok (andThen e1 e2)).
Proof.
  intros H1 H2 e. destruct o1 as [e1|]; simpl; [|done].
  destruct o2 as [e2|]; simpl; [|done].
  intros E; simplify_eq. destruct (H1 e1 eq_refl) as [_ ?].
  specialize (H2 e2 eq_refl). unfold andThen; simpl.
  rewrite dom_union_L. set_solver.
Qed.

Section loops.
Variable T : gmap string (list string).
Variable rec : Heap → string → option Kind → Value → validation → Res validation.

Lemma writes_structLoop fs parName :
  Forall (λ x, childWrites T rec x.2) fs →
  ∃ out, writes T (λ h, structFieldsLoop (rec h) fs parName) out
         ∧ loopEffect out.
Proof.
  induction 1 as [|[fi c] fs Hc _ IH]; simpl.
  - exists (Ok (∅, ∅)). split; [apply writes_ret|].
    intros e Ee; simplify_eq/=. by rewrite dom_empty_L.
  - destruct IH as (o2 & W2 & E2). destruct (f_exported fi); [|by exists o2].
    destruct (Hc (parName +:+ f_name fi) (fieldType fi c)) as (o1 & W1 & E1).
    eexists. split; [by apply (writes_bind T _ _ o1 o2)|].
    by eapply effect_seq.
Qed.

Lemma writes_mapLoop m parName :
  Forall (λ x, childWrites T rec x.2) m →
  ∃ out, writes T (λ h, mapFieldsLoop (rec h) m parName) out
         ∧ loopEffect out.
Proof.
  induction 1 as [|[k c] m Hc _ IH]; simpl.
  - exists (Ok (∅, ∅)). split; [apply writes_ret|].
    intros e Ee; simplify_eq/=. by rewrite dom_empty_L.
  - destruct IH as (o2 & W2 & E2).
    destruct (Hc (parName +:+ k) (TypeOf c)) as (o1 & W1 & E1).
    eexists. split; [by apply (writes_bind T _ _ o1 o2)|].
    by eapply effect_seq.
Qed.

Lemma writes_sliceLoop s idx parName :
  Forall (childWrites T rec) s →
  ∃ out, writes T (λ h, sliceFieldsLoop (rec h) s idx parName) out
         ∧ loopEffect out.
Proof.
  intros Hs. revert idx.
  induction Hs as [|c s Hc _ IH]; intros idx; simpl.
  - exists (Ok (∅, ∅)). split; [apply writes_ret|].
    intros e Ee; simplify_eq/=. by rewrite dom_empty_L.
  - destruct (IH (S idx)) as (o2 & W2 & E2).
    destruct (Hc (parName +:+ toString idx) (TypeOf c)) as (o1 & W1 & E1).
    eexists. split; [by apply (writes_bind T _ _ o1 o2)|].
    by eapply effect_seq.
Qed.

End loops.

Lemma validateByType_dispatch h name t val v :
  validateByType h name t val v = dispatch h name t val (registerField name v).
Proof. destruct val; reflexivity. Qed.

Section nodes.
Variable T : gmap string (list string).

(** The own rules of a composite: a panic, an error at its path and no
    descent, or the field loop. *)
Lemma writes_own name val (k : Heap → validation → Res validation) o :
  writes T k o → loopEffect o →
  ∃ out,
    writes T (λ h v,
      e ← Validate name val (getParentRules h v name);
      match e with
      | Some err => Ok (addError name err v)
      | None => k h v
      end) out
    ∧ nodeEffect name out.
Proof.
  intros Wk Ek.
  destruct (Validate name val (parentRulesOf T name)) as [[err|]|msg] eqn:E.
  - exists (Ok ({[name := err]}, ∅)). split.
    + intros h v HT. rewrite getParentRules_table, HT, E; simpl.
      by rewrite addError_apply.
    + intros e Ee; simplify_eq/=.
      rewrite dom_singleton_L. set_solver.
  - exists o. split.
    + intros h v HT. rewrite getParentRules_table, HT, E; simpl. by apply Wk.
    + intros e ->. specialize (Ek e eq_refl). set_solver.
  - exists (Panic msg). split; [|apply nodeEffect_panic].
    intros h v HT. by rewrite getParentRules_table, HT, E.
Qed.

Lemma writes_panic msg : writes T (λ _ _, Panic msg) (Panic msg).
Proof. by intros h v _. Qed.

Lemma writes_validateStruct val name :
  (∀ fs, val = VStruct fs →
         Forall (λ x, childWrites T validateByType x.2) fs) →
  ∃ out, writes T (λ h, validateStruct h val name) out ∧ nodeEffect name out.
Proof.
  intros Hc. unfold validateStruct, validateStruct_.
  destruct val as [|?|fs|?|?|?|?];
    try (eapply (writes_own _ _ (λ _ _, Panic _) (Panic _));
         [apply writes_panic|apply loopEffect_panic]).
  destruct (writes_structLoop T validateByType fs
              (makeParentNameJoinable name) (Hc fs eq_refl)) as (o & Wo & Eo).
  by apply (writes_own _ _ _ o).
Qed.

Lemma writes_validateMap val name :
  (∀ m, val = VMap m →
        Forall (λ x, childWrites T validateByType x.2) m) →
  ∃ out, writes T (λ h, validateMap h val name) out ∧ nodeEffect name out.
Proof.
  intros Hc. unfold validateMap, validateMap_.
  destruct val as [|?|?|m|?|?|?];
    try (eexists; split; [apply writes_panic|apply nodeEffect_panic]).
  destruct (writes_mapLoop T validateByType m
              (makeParentNameJoinable name) (Hc m eq_refl)) as (o & Wo & Eo).
  by apply (writes_own _ _ _ o).
Qed.

Lemma writes_validateSlice val name :
  (∀ s, val = VSlice s → Forall (childWrites T validateByType) s) →
  ∃ out, writes T (λ h, validateSlice h val name) out ∧ nodeEffect name out.
Proof.
  intros Hc. unfold validateSlice, validateSlice_.
  destruct val as [|?|?|?|s|?|?];
    try (eexists; split; [apply writes_panic|apply nodeEffect_panic]).
  destruct (writes_sliceLoop T validateByType s 0
              (makeParentNameJoinable name) (Hc s eq_refl)) as (o & Wo & Eo).
  by apply (writes_own _ _ _ o).
Qed.

Lemma writes_leaf name val :
  ∃ out,
    writes T (λ h v,
      e ← Validate name val (getFieldRules h v name);
      match e with
      | Some err => Ok (addError name err v)
      | None => Ok v
      end) out
    ∧ nodeEffect name out.
Proof.
  destruct (Validate name val (fieldRulesOf T name)) as [[err|]|msg] eqn:E.
  - exists (Ok ({[name := err]}, ∅)). split.
    + intros h v HT. rewrite getFieldRules_table, HT, E; simpl.
      by rewrite addError_apply.
    + intros e Ee; simplify_eq/=.
      rewrite dom_singleton_L. set_solver.
  - exists (Ok (∅, ∅)). split.
    + intros h v HT. rewrite getFieldRules_table, HT, E; simpl.
      by rewrite apply_empty.
    + intros e Ee; simplify_eq/=. by rewrite dom_empty_L.
  - exists (Panic msg). split; [|apply nodeEffect_panic].
    intros h v HT. by rewrite getFieldRules_table, HT, E.
Qed.

Lemma writes_dispatch name t val :
  (∀ fs, val = VStruct fs →
         Forall (λ x, childWrites T validateByType x.2) fs) →
  (∀ m, val = VMap m →
        Forall (λ x, childWrites T validateByType x.2) m) →
  (∀ s, val = VSlice s → Forall (childWrites T validateByType) s) →
  ∃ out, writes T (λ h, dispatch h name t val) out ∧ nodeEffect name out.
Proof.
  intros H1 H2 H3. destruct t as [[]|]; simpl.
  - by apply writes_validateStruct.
  - by apply writes_validateMap.
  - by apply writes_validateSlice.
  - apply writes_leaf.
  - apply writes_leaf.
  - eexists; split; [apply writes_panic|apply nodeEffect_panic].
Qed.

Lemma writes_register name t val :
  (∃ out, writes T (λ h, dispatch h name t val) out ∧ nodeEffect name out) →
  ∃ out, writes T (λ h, validateByType h name t val) out
         ∧ fieldEffect name out.
Proof.
  intros (o & Wo & Eo).
  exists (e ← o; Ok (andThen (∅, {[name]}) e)). split.
  - intros h v HT. rewrite validateByType_dispatch, registerField_apply.
    rewrite (Wo h _) by done. destruct o as [e|]; simpl; [|done].
    by rewrite apply_apply.
  - intros e. destruct o as [e'|]; simpl; [|done].
    intros Ee; simplify_eq. specialize (Eo e' eq_refl).
    unfold andThen; simpl. rewrite dom_union_L, dom_empty_L. set_solver.
Qed.

End nodes.

(** Every call of [validateByType] only writes. *)
Lemma writes_validateByType T val : childWrites T validateByType val.
Proof.
  induction val using Value_children_ind; intros name t;
    apply writes_register, writes_dispatch; intros ? E;
    try discriminate E; by injection E as <-.
Qed.

Lemma writes_root T name t val :
  ∃ out, writes T (λ h, dispatch h name t val) out ∧ nodeEffect name out.
Proof.
  apply writes_dispatch; intros l ->; apply Forall_forall; intros;
    apply writes_validateByType.
Qed.

(** ** Sessions only grow *)

Lemma grows_refl v : grows v v.
Proof. by repeat split. Qed.

Lemma grows_trans v1 v2 v3 : grows v1 v2 → grows v2 v3 → grows v1 v3.
Proof.
  intros (? & ? & ?) (? & ? & ?). repeat split; [congruence|set_solver..].
Qed.

Lemma grows_apply e v : grows v (apply e v).
Proof.
  repeat split; simpl; [rewrite dom_union_L|]; set_solver.
Qed.

Lemma grows_table h v v' : grows v v' → table h v' = table h v.
Proof. intros (E & _). unfold table. by rewrite E. Qed.

Lemma validateByType_grows h name t val v v' :
  validateByType h name t val v = Ok v' →
  grows v v' ∧ name ∈ fieldsExist v'.
Proof.
  destruct (writes_validateByType (table h v) val name t) as (o & Wo & Eo).
  rewrite (Wo h v eq_refl). destruct o as [e|]; simpl; [|done].
  intros E; simplify_eq. split; [apply grows_apply|].
  destruct (Eo e eq_refl) as [? _]. simpl. set_solver.
Qed.

(** A traversal records errors only at the path it starts from and at
    paths it has visited. *)
Lemma dispatch_errors_visited h name t val v v' q :
  dispatch h name t val v = Ok v' →
  errors v' !! q ≠ errors v !! q → q = name ∨ q ∈ fieldsExist v'.
Proof.
  destruct (writes_root (table h v) name t val) as (o & Wo & Eo).
  rewrite (Wo h v eq_refl). destruct o as [e|]; simpl; [|done].
  intros E; simplify_eq. simpl. intros Hq.
  specialize (Eo e eq_refl).
  destruct (e.1 !! q) as [x|] eqn:Eq.
  - assert (q ∈ dom e.1) by (apply elem_of_dom; eauto). set_solver.
  - rewrite lookup_union_r in Hq by done. done.
Qed.

(** ** The calls a traversal makes *)

Lemma structFieldsLoop_calls h fs p v :
  structFieldsLoop (validateByType h) fs p v
  = callLoop h (omap (λ x, if f_exported x.1
                           then Some (p +:+ f_name x.1, fieldType x.1 x.2, x.2)
                           else None) fs) v.
Proof.
  revert v. induction fs as [|[fi c] fs IH]; intros v; simpl; [done|].
  destruct (f_exported fi); simpl; [|done].
  destruct (validateByType h _ _ c v); simpl; [apply IH|done].
Qed.

Lemma mapFieldsLoop_calls h m p v :
  mapFieldsLoop (validateByType h) m p v
  = callLoop h ((λ x, (p +:+ x.1, TypeOf x.2, x.2)) <$> m) v.
Proof.
  revert v. induction m as [|[k c] m IH]; intros v; simpl; [done|].
  destruct (validateByType h _ _ c v); simpl; [apply IH|done].
Qed.

Lemma sliceFieldsLoop_calls h s idx p v :
  sliceFieldsLoop (validateByType h) s idx p v
  = callLoop h (imap (λ i c, (p +:+ toString (idx + i), TypeOf c, c)) s) v.
Proof.
  revert idx v. induction s as [|c s IH]; intros idx v; simpl; [done|].
  rewrite Nat.add_0_r.
  destruct (validateByType h _ _ c v); simpl; [|done].
  rewrite IH. f_equal. apply imap_ext. intros i x _. simpl.
  by rewrite Nat.add_succ_r.
Qed.

Lemma dispatch_descends h name t val v :
  descends (table h v) (name, t, val) →
  dispatch h name t val v = callLoop h (kids val name) v.
Proof.
  intros [Hn Ho]. unfold ownRules in Ho; simpl in *.
  destruct t as [[]|], val; try discriminate Hn;
    unfold dispatch, validateStruct_, validateMap_, validateSlice_;
    cbv zeta; rewrite getParentRules_table, Ho; simpl.
  - apply structFieldsLoop_calls.
  - apply mapFieldsLoop_calls.
  - apply sliceFieldsLoop_calls.
Qed.

Lemma dispatch_failsOwn h name t val v :
  failsOwn (table h v) (name, t, val) →
  ∃ err, ownRules (table h v) (name, t, val) = Ok (Some err)
         ∧ dispatch h name t val v = Ok (addError name err v).
Proof.
  intros [Hn [err Ho]]. exists err. split; [done|].
  unfold ownRules in Ho; simpl in *.
  destruct t as [[]|], val; try discriminate Hn;
    unfold dispatch, validateStruct_, validateMap_, validateSlice_;
    cbv zeta; by rewrite getParentRules_table, Ho.
Qed.

Lemma callLoop_split h ks k v v' :
  k ∈ ks → callLoop h ks v = Ok v' →
  ∃ v1 v2, grows v v1
           ∧ validateByType h k.1.1 k.1.2 k.2 v1 = Ok v2
           ∧ grows v2 v'.
Proof.
  intros Hk. revert v.
  induction ks as [|[[n t] c] ks IH]; intros v; [by apply elem_of_nil in Hk|].
  simpl. destruct (validateByType h n t c v) as [v1|] eqn:E; simpl; [|done].
  intros Hl. apply elem_of_cons in Hk as [->|Hk].
  - exists v, v1. split; [apply grows_refl|]. split; [done|].
    clear E IH. revert v1 Hl. induction ks as [|[[n' t'] c'] ks IH]; intros v1.
    + simpl. intros E; simplify_eq. apply grows_refl.
    + simpl. destruct (validateByType h n' t' c' v1) as [v2|] eqn:E; [|done].
      simpl. intros Hl. apply validateByType_grows in E as [E _].
      eapply grows_trans; [exact E|by apply IH].
  - destruct (IH Hk v1 Hl) as (va & vb & G1 & E' & G2).
    exists va, vb. split; [|done].
    apply validateByType_grows in E as [E _]. by eapply grows_trans.
Qed.

Lemma callLoop_panic h ks k v :
  k ∈ ks →
  (∀ v1, table h v1 = table h v →
         panics (validateByType h k.1.1 k.1.2 k.2 v1)) →
  panics (callLoop h ks v).
Proof.
  intros Hk. revert v.
  induction ks as [|[[n t] c] ks IH]; intros v Hp;
    [by apply elem_of_nil in Hk|].
  simpl. destruct (validateByType h n t c v) as [v1|msg] eqn:E; simpl;
    [|by eexists].
  apply elem_of_cons in Hk as [->|Hk].
  - destruct (Hp v eq_refl) as [msg E']. simpl in E'. congruence.
  - apply IH; [done|]. intros v2 E2. apply Hp. rewrite E2.
    apply validateByType_grows in E as [E _]. by apply grows_table.
Qed.

Section reach.
Variable T : gmap string (list string).

(** A reached node is visited, unless it is the starting node itself. *)
Lemma reaches_visited c c' h v v' :
  reaches T c c' → table h v = T →
  dispatch h c.1.1 c.1.2 c.2 v = Ok v' →
  c = c' ∨ c'.1.1 ∈ fieldsExist v'.
Proof.
  intros Hr. revert v v'.
  induction Hr as [c|[[n t] val] k c' Hd Hk Hr IH]; intros v v' HT Hv;
    [by left|right].
  simpl in *. rewrite dispatch_descends in Hv by by rewrite HT.
  destruct (callLoop_split _ _ _ _ _ Hk Hv) as (v1 & v2 & G1 & E & G2).
  assert (c'.1.1 ∈ fieldsExist v2) as Hin.
  { pose proof (validateByType_grows _ _ _ _ _ _ E) as [_ Hn].
    rewrite validateByType_dispatch in E.
    destruct (IH (registerField k.1.1 v1) v2) as [<-|?]; [|done..].
    change (table h v1 = T). by rewrite (grows_table h v v1). }
  destruct G2 as (_ & _ & G2). set_solver.
Qed.


(** A panic at a reached call is a panic of the whole traversal. *)
Lemma reaches_panic c c' :
  reaches T c c' →
  (∀ h v, table h v = T → panics (dispatch h c'.1.1 c'.1.2 c'.2 v)) →
  ∀ h v, table h v = T → panics (dispatch h c.1.1 c.1.2 c.2 v).
Proof.
  induction 1 as [c|[[n t] val] k c' Hd Hk Hr IH]; intros Hp h v HT; [by apply Hp|].
  simpl in *. rewrite dispatch_descends by by rewrite HT.
  apply (callLoop_panic h _ k); [done|]. intros v1 E1.
  rewrite validateByType_dispatch. apply IH; [done|].
  change (table h v1 = T). by rewrite E1.
Qed.

End reach.

(** ** The pass over required fields *)

Lemma hasRequired_messages name rs :
  hasRequired rs ↔ is_Some (last (requiredMessages name rs)).
Proof.
  unfold hasRequired, requiredMessages. induction rs as [|r rs IH]; simpl.
  - split; [by intros ?%Exists_nil|by intros [? ?]].
  - rewrite Exists_cons, IH. clear IH.
    destruct (splitRuleNameAndRuleValue r) as [rName rVal]; simpl.
    destruct (decide (rName = "required")) as [->|Hne]; simpl.
    + split; [intros _|by left].
      rewrite last_cons. destruct (last _); by eexists.
    + naive_solver.
Qed.

Lemma fold_requiredStep name rs v :
  fold_left (requiredStep name) rs v
  = if decide (name ∈ fieldsExist v) then v
    else match last (requiredMessages name rs) with
         | Some msg => addError name msg v
         | None => v
         end.
Proof.
  revert v. induction rs as [|r rs IH]; intros v; simpl.
  - by destruct (decide _).
  - rewrite IH. unfold requiredStep, requiredMessages; simpl.
    destruct (splitRuleNameAndRuleValue r) as [rName rVal]; simpl.
    destruct (decide (rName = "required")) as [->|Hne]; simpl; [|done].
    destruct (decide (name ∈ fieldsExist v)) as [Hin|Hout]; simpl.
    + by rewrite decide_True.
    + rewrite decide_False by done. rewrite last_cons.
      destruct (last (omap _ rs)) as [msg|]; [|done].
      unfold addError; simpl. by rewrite insert_insert_eq.
Qed.

Lemma requiredEntry_fieldsExist v e :
  fieldsExist (requiredEntry v e) = fieldsExist v.
Proof.
  unfold requiredEntry. destruct (decide _); [done|].
  rewrite fold_requiredStep. destruct (decide _); [done|].
  by destruct (last _).
Qed.

Lemma requiredEntry_rules v e : rules (requiredEntry v e) = rules v.
Proof.
  unfold requiredEntry. destruct (decide _); [done|].
  rewrite fold_requiredStep. destruct (decide _); [done|].
  by destruct (last _).
Qed.

Lemma requiredEntry_errors v e q :
  errors (requiredEntry v e) !! q
  = match requiredAbsent {[e.1 := e.2]} v q with
    | Some msg => Some msg
    | None => errors v !! q
    end.
Proof.
  unfold requiredEntry, requiredAbsent. destruct e as [n rs]; simpl.
  destruct (decide (n = "*")) as [->|Hn].
  - destruct (decide (q = "*")) as [->|Hq]; [done|].
    destruct (decide _); [done|]. by rewrite lookup_singleton_ne.
  - rewrite fold_requiredStep.
    destruct (decide (q = n)) as [->|Hq].
    + destruct (decide (n = "*")); [done|]. rewrite lookup_singleton_eq; simpl.
      destruct (decide _); [done|].
      destruct (last _); simpl; [|done]. by rewrite lookup_insert_eq.
    + rewrite lookup_singleton_ne by done; simpl.
      assert (errors (if decide (n ∈ fieldsExist v) then v
                      else match last (requiredMessages n rs) with
                           | Some msg => addError n msg v
                           | None => v
                           end) !! q = errors v !! q) as ->.
      { destruct (decide _); [done|]. destruct (last _); [|done].
        simpl. by rewrite lookup_insert_ne. }
      by repeat destruct (decide _).
Qed.

Lemma fold_requiredEntry l v :
  NoDup l.*1 →
  fieldsExist (fold_left requiredEntry l v) = fieldsExist v
  ∧ rules (fold_left requiredEntry l v) = rules v
  ∧ ∀ q, errors (fold_left requiredEntry l v) !! q
         = match requiredAbsent (list_to_map l) v q with
           | Some msg => Some msg
           | None => errors v !! q
           end.
Proof.
  revert v. induction l as [|[n rs] l IH]; intros v Hnd; simpl.
  - repeat split. intros q. unfold requiredAbsent.
    repeat destruct (decide _); try done.
  - apply NoDup_cons in Hnd as [Hn Hnd].
    destruct (IH (requiredEntry v (n, rs)) Hnd) as (F & R & E).
    rewrite F, R, requiredEntry_fieldsExist, requiredEntry_rules.
    repeat split. intros q. rewrite E, requiredEntry_errors.
    unfold requiredAbsent. rewrite requiredEntry_fieldsExist. simpl.
    destruct (decide (q = "*")); [done|].
    destruct (decide (q ∈ fieldsExist v)); [done|].
    destruct (decide (q = n)) as [->|Hq].
    + rewrite lookup_insert_eq, lookup_singleton_eq; simpl.
      by rewrite (not_elem_of_list_to_map_1 _ _ Hn).
    + rewrite lookup_insert_ne, lookup_singleton_ne by done; simpl.
      done.
Qed.

Lemma pass_spec h v :
  fieldsExist (validateNonExistRequiredFields h v) = fieldsExist v
  ∧ rules (validateNonExistRequiredFields h v) = rules v
  ∧ ∀ q, errors (validateNonExistRequiredFields h v) !! q
         = match requiredAbsent (table h v) v q with
           | Some msg => Some msg
           | None => errors v !! q
           end.
Proof.
  unfold validateNonExistRequiredFields.
  pose proof (fold_requiredEntry (map_to_list (table h v)) v
                (NoDup_fst_map_to_list _)) as Hf.
  by rewrite list_to_map_to_list in Hf.
Qed.


(** ** Merging tags only adds entries, and only to the table of the
    session *)

Lemma adds_merges f M : adds f M → merges f.
Proof.
  intros Hf. exists (λ T, T ∪ M). split.
  - intros T. apply map_union_subseteq_l.
  - apply Hf.
Qed.

Lemma adds_id : adds (λ _ h, h) ∅.
Proof. intros v h. split; [|done]. by rewrite (right_id_L ∅ (∪)). Qed.

Lemma adds_comp f1 f2 M1 M2 :
  adds f1 M1 → adds f2 M2 → adds (λ v h, f2 v (f1 v h)) (M1 ∪ M2).
Proof.
  intros H1 H2 v h. destruct (H1 v h) as [E1 O1], (H2 v (f1 v h)) as [E2 O2].
  split; [by rewrite E2, E1, (assoc_L (∪))|].
  intros l Hl. by rewrite O2, O1.
Qed.

Lemma adds_unique f M M' : adds f M → adds f M' → M = M'.
Proof.
  intros H1 H2.
  destruct (H1 (mkValidation 1%positive ∅ ∅) ∅) as [E1 _].
  destruct (H2 (mkValidation 1%positive ∅ ∅) ∅) as [E2 _].
  rewrite E1 in E2. unfold table in E2. simpl in E2.
  rewrite lookup_empty in E2. simpl in E2.
  by rewrite !(left_id_L ∅ (∪)) in E2.
Qed.

Lemma table_setRule v name rs h :
  table (setRule v name rs h) v = <[name := rs]> (table h v).
Proof. unfold setRule, table at 1. by rewrite lookup_insert_eq. Qed.

Lemma union_singleton_present (T : gmap string (list string)) name rs x :
  T !! name = Some x → T ∪ {[name := rs]} = T.
Proof.
  intros Hn. apply map_eq. intros k. rewrite lookup_union.
  destruct (decide (k = name)) as [->|Hk].
  - by rewrite Hn, lookup_singleton_eq.
  - rewrite lookup_singleton_ne by done. by destruct (T !! k).
Qed.

Lemma adds_tag name (tag : string) rs :
  adds (λ v h,
    match table h v !! name with
    | None => if decide (tag ≠ "") then setRule v name rs h else h
    | Some _ => h
    end) (if decide (tag ≠ "") then {[name := rs]} else ∅).
Proof.
  intros v h. destruct (decide (tag ≠ "")) as [Ht|Ht].
  - destruct (table h v !! name) as [x|] eqn:E.
    + split; [|done]. by rewrite (union_singleton_present _ _ _ x).
    + split; [|intros l Hl; unfold setRule; by rewrite lookup_insert_ne].
      rewrite table_setRule. by apply insert_union_singleton_r.
  - rewrite (right_id_L ∅ (∪)). by destruct (table h v !! name).
Qed.

Section tagLoops.
Variable rec : validation → bool → Value → string → Heap → Heap.

Lemma adds_tagMapLoop m p :
  Forall (λ x, childAdds rec x.2) m →
  ∃ M, adds (λ v, tagMapLoop (rec v) m p) M
       ∧ dom M ⊆ list_to_set (mapPaths paths m p).
Proof.
  induction 1 as [|[k i] m Hi _ IH]; simpl.
  { exists ∅. split; [apply adds_id|]. by rewrite dom_empty_L. }
  destruct IH as (M2 & A2 & D2).
  destruct (isComposite i).
  - destruct (Hi true (p +:+ k)) as (M1 & A1 & D1).
    exists (M1 ∪ M2). split.
    + by apply (adds_comp (λ v, rec v true i (p +:+ k))
                  (λ v, tagMapLoop (rec v) m p)).
    + rewrite dom_union_L, list_to_set_app_L. set_solver.
  - exists M2. split; [done|]. rewrite list_to_set_app_L. set_solver.
Qed.

Lemma adds_tagSliceLoop s k p :
  Forall (childAdds rec) s →
  ∃ M, adds (λ v, tagSliceLoop (rec v) s k p) M
       ∧ dom M ⊆ list_to_set (slicePaths paths s k p).
Proof.
  intros Hs. revert k. induction Hs as [|i s Hi _ IH]; intros k; simpl.
  { exists ∅. split; [apply adds_id|]. by rewrite dom_empty_L. }
  destruct (IH (S k)) as (M2 & A2 & D2).
  destruct (isComposite i).
  - destruct (Hi true (p +:+ toString k)) as (M1 & A1 & D1).
    exists (M1 ∪ M2). split.
    + by apply (adds_comp (λ v, rec v true i (p +:+ toString k))
                  (λ v, tagSliceLoop (rec v) s (S k) p)).
    + rewrite dom_union_L, list_to_set_app_L. set_solver.
  - exists M2. split; [done|]. rewrite list_to_set_app_L. set_solver.
Qed.

Lemma adds_tagField fi c p :
  childAdds rec c →
  ∃ M, adds (λ v, tagField v (rec v) fi c p) M
       ∧ dom M ⊆ list_to_set ((p +:+ f_name fi) :: paths c (p +:+ f_name fi)).
Proof.
  intros Hc. unfold tagField.
  pose proof (adds_tag (p +:+ f_name fi) (f_tag fi)
                (Split (f_tag fi) TagSeparator)) as A1.
  assert (∃ M2,
    adds (λ v h, match fieldType fi c with
                 | Some KStruct | Some KMap | Some KSlice =>
                     rec v false c (p +:+ f_name fi) h
                 | _ => h
                 end) M2
    ∧ dom M2 ⊆ list_to_set (paths c (p +:+ f_name fi))) as (M2 & A2 & D2).
  { destruct (fieldType fi c) as [[]|];
      try (exists ∅; split; [apply adds_id|by rewrite dom_empty_L]);
      apply Hc. }
  eexists. split; [exact (adds_comp _ _ _ _ A1 A2)|].
  rewrite dom_union_L. destruct (decide _).
  - rewrite dom_singleton_L. set_solver.
  - rewrite dom_empty_L. set_solver.
Qed.

Lemma adds_tagStructLoop fs p :
  Forall (λ x, childAdds rec x.2) fs →
  ∃ M, adds (λ v, tagStructLoop v (rec v) fs p) M
       ∧ dom M ⊆ list_to_set (structPaths paths fs p).
Proof.
  induction 1 as [|[fi c] fs Hc _ IH]; simpl.
  { exists ∅. split; [apply adds_id|]. by rewrite dom_empty_L. }
  destruct IH as (M2 & A2 & D2).
  destruct (adds_tagField fi c p Hc) as (M1 & A1 & D1).
  exists (M1 ∪ M2). split.
  - by apply (adds_comp (λ v, tagField v (rec v) fi c p)
                (λ v, tagStructLoop v (rec v) fs p)).
  - rewrite dom_union_L, list_to_set_app_L. set_solver.
Qed.

End tagLoops.

Lemma adds_addTagRules val : childAdds addTagRules val.
Proof.
  induction val as [| |fs IH|m IH|s IH| |] using Value_children_ind;
    intros dyn p; simpl;
    try (exists ∅; split; [apply adds_id|by rewrite dom_empty_L]).
  - by apply adds_tagStructLoop.
  - destruct dyn; [by apply adds_tagMapLoop|].
    exists ∅. split; [apply adds_id|by rewrite dom_empty_L].
  - destruct dyn; [by apply adds_tagSliceLoop|].
    exists ∅. split; [apply adds_id|by rewrite dom_empty_L].
Qed.

Lemma merges_addTagRules val : childMerges addTagRules val.
Proof.
  intros dyn p. destruct (adds_addTagRules val dyn p) as (M & A & _).
  by apply (adds_merges _ M).
Qed.

(** ** The entry points *)

Lemma run_accepted h i r :
  accepted i = true →
  run h i r
  = ((session h i r).1,
     v1 ← traversal h i r;
     Ok (errors (validateNonExistRequiredFields (session h i r).1 v1))).
Proof.
  intros Ha. unfold traversal, session, run.
  destruct i as [val|m|s]; unfold accepted in Ha.
  - unfold ValidateStruct. rewrite Ha. cbn [negb].
    destruct (createNewValidation h r) as [h1 v]. reflexivity.
  - unfold ValidateMap. destruct (createNewValidation h r) as [h1 v].
    reflexivity.
  - unfold ValidateSlice. destruct (createNewValidation h r) as [h1 v].
    reflexivity.
Qed.

Lemma run_refused h i r :
  accepted i = false → run h i r = (h, Panic "val is not a struct").
Proof.
  destruct i as [val|m|s]; simpl; try discriminate.
  intros Ha. unfold ValidateStruct. by rewrite Ha.
Qed.

Lemma run_Ok h i r errs :
  (run h i r).2 = Ok errs →
  ∃ v1, traversal h i r = Ok v1
        ∧ errs = errors (validateNonExistRequiredFields (session h i r).1 v1).
Proof.
  destruct (accepted i) eqn:Ha.
  - rewrite run_accepted by done. simpl.
    destruct (traversal h i r) as [v1|]; simpl; [|done].
    intros E; simplify_eq. by exists v1.
  - by rewrite run_refused.
Qed.

Lemma run_panics h i r :
  panics (traversal h i r) → panics (run h i r).2.
Proof.
  intros [msg E]. destruct (accepted i) eqn:Ha.
  - rewrite run_accepted by done. simpl. rewrite E. by exists msg.
  - rewrite run_refused by done. by eexists.
Qed.

Lemma session_rules h i r : rules (session h i r).2 = fresh (dom h).
Proof. reflexivity. Qed.

Lemma session_fresh h i r : h !! rules (session h i r).2 = None.
Proof. rewrite session_rules. apply not_elem_of_dom, is_fresh. Qed.

(** Creating the session leaves every table of the caller's heap as it
    is. *)
Lemma session_other h i r l :
  is_Some (h !! l) → (session h i r).1 !! l = h !! l.
Proof.
  intros Hl. unfold session, createNewValidation, copyRules; simpl.
  assert (l ≠ fresh (dom h)) as Hne.
  { intros ->. pose proof (session_fresh h i r) as Hf.
    rewrite session_rules in Hf. rewrite Hf in Hl. by destruct Hl. }
  destruct (merges_addTagRules (rootValue i) true "") as (g & _ & Hg).
  destruct (Hg {| rules := fresh (dom h); errors := ∅; fieldsExist := ∅ |}
              (<[fresh (dom h) := default ∅ (h !! r)]> h)) as [_ Ho].
  rewrite Ho by done. by rewrite lookup_insert_ne.
Qed.

(** The table of the session is a function of the contents of the
    caller's table, and keeps its entries. *)
Lemma session_table i :
  ∃ g : gmap string (list string) → gmap string (list string),
    (∀ T, T ⊆ g T)
    ∧ ∀ h r, sessionTable h i r = g (default ∅ (h !! r)).
Proof.
  destruct (merges_addTagRules (rootValue i) true "") as (g & Hs & Hg).
  exists g. split; [done|]. intros h r.
  unfold sessionTable, session, createNewValidation, copyRules; simpl.
  destruct (Hg {| rules := fresh (dom h); errors := ∅; fieldsExist := ∅ |}
              (<[fresh (dom h) := default ∅ (h !! r)]> h)) as [E _].
  rewrite E. unfold table; simpl. by rewrite lookup_insert_eq.
Qed.

(** * The claims *)

(** ** Rule evaluation and rule lookup *)

Lemma Validate_cons name val r rs :
  Validate name val (r :: rs)
  = if decide (r = "") then Validate name val rs
    else e ← evalRule name val r;
         match e with
         | Some err => Ok (Some err)
         | None => Validate name val rs
         end.
Proof.
  simpl. destruct (decide _); [done|]. unfold evalRule.
  destruct (getRuleInfo r) as [[rName rVal] [f|]]; simpl; [|done].
  by destruct (f name val rVal).
Qed.

Lemma Validate_passes_app name val pre rs :
  Forall (passes name val) pre →
  Validate name val (pre ++ rs) = Validate name val rs.
Proof.
  induction 1 as [|r pre Hr _ IH]; [done|].
  rewrite <- app_comm_cons, Validate_cons.
  destruct (decide _); [done|]. by rewrite (Hr n).
Qed.

(** C6.  [Validate] skips the empty expressions, evaluates the others in
    the order of the list, and returns the failure of the first one whose
    rule function fails, whatever follows it in the list (so nothing that
    follows is looked up or invoked); it returns nil exactly when every
    expression is skipped or passes. *)
Theorem Validate_first_failure (name : string) (val : Value) :
  (∀ rs, Validate name val rs = Validate name val (filter (λ r, r ≠ "") rs))
  ∧ (∀ pre r post err,
       Forall (passes name val) pre → r ≠ "" →
       evalRule name val r = Ok (Some err) →
       Validate name val (pre ++ r :: post) = Ok (Some err))
  ∧ (∀ rs err,
       Validate name val rs = Ok (Some err) →
       ∃ pre r post,
         rs = pre ++ r :: post ∧ Forall (passes name val) pre
         ∧ r ≠ "" ∧ evalRule name val r = Ok (Some err))
  ∧ (∀ rs, Validate name val rs = Ok None ↔ Forall (passes name val) rs).
Proof.
  repeat split.
  - intros rs. induction rs as [|r rs IH]; [done|].
    rewrite Validate_cons. destruct (decide (r = "")) as [->|Hr].
    + by rewrite filter_cons_False by naive_solver.
    + rewrite filter_cons_True by done. rewrite Validate_cons.
      destruct (decide (r = "")); [done|]. by rewrite IH.
  - intros pre r post err Hpre Hr He.
    rewrite Validate_passes_app by done.
    rewrite Validate_cons. destruct (decide (r = "")); [done|]. by rewrite He.
  - intros rs err. induction rs as [|r rs IH]; [done|].
    rewrite Validate_cons. destruct (decide (r = "")) as [->|Hr].
    + intros (pre & r' & post & -> & Hp & ? & ?)%IH.
      exists ("" :: pre), r', post. repeat split; try done.
      apply Forall_cons. split; [by intros ?|done].
    + destruct (evalRule name val r) as [[e|]|] eqn:E; simpl; [| |done].
      * intros Ee; simplify_eq. exists [], r, rs. by repeat split.
      * intros (pre & r' & post & -> & Hp & ? & ?)%IH.
        exists (r :: pre), r', post. repeat split; try done.
        apply Forall_cons. split; [by intros _|done].
  - induction rs as [|r rs IH]; [done|].
    rewrite Validate_cons. destruct (decide (r = "")) as [->|Hr].
    + intros Hv. apply Forall_cons. split; [by intros ?|by apply IH].
    + destruct (evalRule name val r) as [[e|]|] eqn:E; simpl; try done.
      intros Hv. apply Forall_cons. split; [by intros _|by apply IH].
  - induction 1 as [|r rs Hr _ IH]; [done|].
    rewrite Validate_cons. destruct (decide _) as [|Hne]; [done|].
    by rewrite (Hr Hne).
Qed.

(** C4, as amended.  Both lookups return the entry at the exact path when
    there is one, and agree on every non-empty path: without an exact
    entry they fall back to the entry at [parent(path) + ".*"].  At the
    empty path [getParentRules], which resolves the root and every
    composite, returns the empty spec, so that the root is handled as
    ungoverned whatever wildcard entries exist; [getFieldRules], which
    resolves the other fields, falls back to the wildcard entry there
    too. *)
Theorem rule_lookup_exact_then_wildcard (h : Heap) (v : validation) :
  (∀ name rs, table h v !! name = Some rs →
     getParentRules h v name = rs ∧ getFieldRules h v name = rs)
  ∧ (∀ name, table h v !! name = None → name ≠ "" →
       getParentRules h v name
       = default [] (table h v !! (getParentName name +:+ ".*"))
       ∧ getFieldRules h v name = getParentRules h v name)
  ∧ (table h v !! "" = None →
       getParentRules h v "" = []
       ∧ ∀ i, ownRules (table h v) (rootCall i) = Ok None)
  ∧ (∀ name, table h v !! name = None →
       getFieldRules h v name
       = default [] (table h v !! (getParentName name +:+ ".*"))).
Proof.
  unfold getParentRules, getFieldRules, ownRules, parentRulesOf.
  split; [|split; [|split]].
  - intros name rs Hn. by rewrite Hn.
  - intros name Hn Hne. rewrite Hn.
    by destruct (decide (name ≠ "")).
  - intros Hn. rewrite Hn.
    destruct (decide ("" ≠ "")) as [Hd|_]; [by destruct Hd|].
    split; [done|]. intros i. simpl. rewrite Hn.
    by destruct (decide ("" ≠ "")) as [Hd|_]; [destruct Hd|].
  - intros name Hn. by rewrite Hn.
Qed.

(** C5.  Merging the tags never touches an entry the table of the
    session already has: whatever the value and its tags, an entry present
    before the merge is there unchanged after it, and it is what both
    lookups return for its path. *)
Theorem tag_rules_keep_explicit_entries (v : validation) (dyn : bool)
    (val : Value) (parName : string) (h : Heap) (name : string)
    (rs : list string) :
  table h v !! name = Some rs →
  table (addTagRules v dyn val parName h) v !! name = Some rs
  ∧ getFieldRules (addTagRules v dyn val parName h) v name = rs
  ∧ getParentRules (addTagRules v dyn val parName h) v name = rs.
Proof.
  intros Hn.
  destruct (merges_addTagRules val dyn parName) as (g & Hs & Hg).
  destruct (Hg v h) as [E _].
  assert (table (addTagRules v dyn val parName h) v !! name = Some rs) as Hn'.
  { rewrite E. by eapply lookup_weaken. }
  unfold getFieldRules, getParentRules. by rewrite Hn'.
Qed.

(** ** Panics *)

Lemma Validate_unknown name val rs rName :
  hitsUnknown name val rs rName →
  Validate name val rs = Panic ("unknown rule: " +:+ rName).
Proof.
  intros (pre & r & post & rVal & -> & Hpre & Hr & Hi).
  rewrite Validate_passes_app by done. simpl.
  destruct (decide (r = "")); [done|]. by rewrite Hi.
Qed.

Lemma dispatch_rulesAt_panic T c rs msg :
  rulesAt T c = Some rs → Validate c.1.1 c.2 rs = Panic msg →
  ∀ h v, table h v = T → dispatch h c.1.1 c.1.2 c.2 v = Panic msg.
Proof.
  destruct c as [[n t] val]; simpl. unfold rulesAt; simpl.
  intros Hr Hv h v <-.
  destruct t as [[]|]; simpl in *; try discriminate Hr;
    unfold validateStruct_, validateMap_, validateSlice_; cbv zeta;
    try (destruct val; try discriminate Hr);
    injection Hr as <-;
    rewrite ?getParentRules_table, ?getFieldRules_table, Hv; done.
Qed.

(** C7.  When the traversal reaches a call whose rule spec comes, in the
    order of evaluation, to an expression with a rule name the registry
    does not know, [Validate] panics there and the whole validation call
    ends in that panic or an earlier one: no error map is returned. *)
Theorem unknown_rule_panics (h : Heap) (i : Input) (r : loc) (c : Call)
    (rs : list string) (rName : string) :
  reaches (sessionTable h i r) (rootCall i) c →
  rulesAt (sessionTable h i r) c = Some rs →
  hitsUnknown c.1.1 c.2 rs rName →
  Validate c.1.1 c.2 rs = Panic ("unknown rule: " +:+ rName)
  ∧ panics (run h i r).2.
Proof.
  intros Hr Hrs Hu. pose proof (Validate_unknown _ _ _ _ Hu) as Hv.
  split; [done|]. apply run_panics.
  apply (reaches_panic (sessionTable h i r) (rootCall i) c Hr); [|done].
  intros h' v' HT. eexists. by eapply dispatch_rulesAt_panic.
Qed.

(** C8.  When the traversal reaches a value whose type is a map or a
    slice type but which is not a [map[string]interface{}], respectively
    a [[]interface{}], handling it panics whatever the session, and the
    whole validation call ends in a panic: no error map is returned. *)
Theorem mistyped_composite_panics (h : Heap) (i : Input) (r : loc)
    (c : Call) :
  reaches (sessionTable h i r) (rootCall i) c →
  c.1.2 = Some KMap ∨ c.1.2 = Some KSlice →
  isNode c.1.2 c.2 = false →
  (∀ h' v, panics (dispatch h' c.1.1 c.1.2 c.2 v))
  ∧ panics (run h i r).2.
Proof.
  intros Hr Ht Hn.
  assert (∀ h' v, panics (dispatch h' c.1.1 c.1.2 c.2 v)) as Hp.
  { intros h' v. destruct c as [[n t] val]; simpl in *.
    destruct Ht as [-> | ->]; destruct val; try discriminate Hn;
      by eexists. }
  split; [done|]. apply run_panics.
  by apply (reaches_panic (sessionTable h i r) (rootCall i) c Hr).
Qed.

(** ** Visited fields and failed composites *)

Lemma reachesInside_visited T c c' h v v' :
  reachesInside T c c' → table h v = T →
  dispatch h c.1.1 c.1.2 c.2 v = Ok v' →
  c'.1.1 ∈ fieldsExist v'.
Proof.
  intros (Hd & k & Hk & Hr) HT Hv.
  destruct c as [[n t] val]; simpl in *.
  rewrite dispatch_descends in Hv by by rewrite HT.
  destruct (callLoop_split _ _ _ _ _ Hk Hv) as (v1 & v2 & G1 & E & G2).
  assert (c'.1.1 ∈ fieldsExist v2) as Hin.
  { pose proof (validateByType_grows _ _ _ _ _ _ E) as [_ Hn].
    rewrite validateByType_dispatch in E.
    destruct (reaches_visited T k c' h (registerField k.1.1 v1) v2)
      as [<-|?]; try done.
    change (table h v1 = T). by rewrite (grows_table h v v1). }
  destruct G2 as (_ & _ & G2). set_solver.
Qed.

(** C10.  [validateByType] registers the path of the field before
    anything else: the rest of the call runs in a session where the path
    is visited.  So every field the traversal meets below the root is in
    the visited set when the traversal ends, also a composite whose own
    rules fail, and the pass over the required fields leaves the entry
    of the error map at its path as the traversal left it. *)
Theorem field_visited_before_rules (h : Heap) (i : Input) (r : loc)
    (c : Call) (errs : gmap string string) :
  reachesInside (sessionTable h i r) (rootCall i) c →
  (run h i r).2 = Ok errs →
  (∀ h' v, validateByType h' c.1.1 c.1.2 c.2 v
           = dispatch h' c.1.1 c.1.2 c.2 (registerField c.1.1 v))
  ∧ ∃ v1, traversal h i r = Ok v1
          ∧ c.1.1 ∈ fieldsExist v1
          ∧ errs !! c.1.1 = errors v1 !! c.1.1.
Proof.
  intros Hr Hrun. split; [intros; apply validateByType_dispatch|].
  destruct (run_Ok _ _ _ _ Hrun) as (v1 & Ht & ->).
  exists v1. split; [done|].
  assert (c.1.1 ∈ fieldsExist v1) as Hin.
  { by apply (reachesInside_visited (sessionTable h i r) (rootCall i) c
                (session h i r).1 (session h i r).2 v1). }
  split; [done|].
  destruct (pass_spec (session h i r).1 v1) as (_ & _ & E).
  rewrite E. unfold requiredAbsent.
  destruct (decide (c.1.1 = "*")); [done|].
  by destruct (decide (c.1.1 ∈ fieldsExist v1)).
Qed.


(** ** Plain data under a table that governs none of its paths *)

Lemma quiet_nil T : quiet T (λ _ v, Ok v) [].
Proof. intros h v _. exists v. repeat split. by left. Qed.

Lemma quiet_seq T f g ps1 ps2 :
  quiet T f ps1 → quiet T g ps2 →
  quiet T (λ h v, v' ← f h v; g h v') (ps1 ++ ps2).
Proof.
  intros Hf Hg h v HT.
  destruct (Hf h v HT) as (v1 & E1 & R1 & Er1 & F1). rewrite E1. simpl.
  destruct (Hg h v1) as (v2 & E2 & R2 & Er2 & F2).
  { unfold table. by rewrite R1. }
  exists v2. rewrite E2. repeat split; [congruence..|].
  intros q [Hq|Hq]%F2; [|right; set_solver].
  destruct (F1 q Hq); [by left|right; set_solver].
Qed.

Lemma quiet_mapLoop T m p :
  Forall (λ x, childQuiet T x.2) m →
  forallb (λ x, plain x.2) m = true →
  Forall (ungoverned T) (mapPaths paths m p) →
  quiet T (λ h, mapFieldsLoop (validateByType h) m p) (mapPaths paths m p).
Proof.
  induction 1 as [|[k c] m Hc _ IH]; simpl; [intros; apply quiet_nil|].
  intros [Hp Hm]%andb_prop Hu.
  apply Forall_cons in Hu as [Hu1 Hu]. apply Forall_app in Hu as [Hu2 Hu3].
  apply (quiet_seq T (λ h, validateByType h (p +:+ k) (TypeOf c) c)
           (λ h, mapFieldsLoop (validateByType h) m p)
           ((p +:+ k) :: paths c (p +:+ k))).
  - apply Hc; [done|]. by apply Forall_cons.
  - by apply IH.
Qed.

Lemma quiet_sliceLoop T s idx p :
  Forall (childQuiet T) s →
  forallb plain s = true →
  Forall (ungoverned T) (slicePaths paths s idx p) →
  quiet T (λ h, sliceFieldsLoop (validateByType h) s idx p)
    (slicePaths paths s idx p).
Proof.
  intros Hs. revert idx.
  induction Hs as [|c s Hc _ IH]; intros idx; simpl;
    [intros; apply quiet_nil|].
  intros [Hp Hm]%andb_prop Hu.
  apply Forall_cons in Hu as [Hu1 Hu]. apply Forall_app in Hu as [Hu2 Hu3].
  apply (quiet_seq T
           (λ h, validateByType h (p +:+ toString idx) (TypeOf c) c)
           (λ h, sliceFieldsLoop (validateByType h) s (S idx) p)
           ((p +:+ toString idx) :: paths c (p +:+ toString idx))).
  - apply Hc; [done|]. by apply Forall_cons.
  - by apply IH.
Qed.

Lemma ungoverned_field T q : ungoverned T q → fieldRulesOf T q = [].
Proof. intros [E1 E2]. unfold fieldRulesOf. by rewrite E1, E2. Qed.

Lemma ungoverned_parent T q : ungoverned T q → parentRulesOf T q = [].
Proof.
  intros [E1 E2]. unfold parentRulesOf. rewrite E1, E2.
  by destruct (decide _).
Qed.

Lemma quiet_register T name f ps :
  quiet T f ps →
  quiet T (λ h v, f h (registerField name v)) (name :: ps).
Proof.
  intros Hf h v HT.
  destruct (Hf h (registerField name v) HT) as (v' & E & R & Er & F).
  exists v'. repeat split; try done.
  intros q [Hq|Hq]%F; [|right; set_solver].
  simpl in Hq. apply elem_of_union in Hq as [Hq|Hq]; [|by left].
  right. set_solver.
Qed.

Lemma quiet_ext T f g ps :
  (∀ h v, table h v = T → f h v = g h v) → quiet T g ps → quiet T f ps.
Proof. intros E Hg h v HT. rewrite E by done. by apply Hg. Qed.

Lemma dispatch_scalar_quiet h v name sc :
  fieldRulesOf (table h v) name = [] →
  dispatch h name (Some KOther) (VScalar sc) v = Ok v.
Proof.
  intros E. unfold dispatch. by rewrite getFieldRules_table, E.
Qed.

Lemma dispatch_map_quiet h v name m :
  parentRulesOf (table h v) name = [] →
  dispatch h name (Some KMap) (VMap m) v
  = mapFieldsLoop (validateByType h) m (makeParentNameJoinable name) v.
Proof.
  intros E. unfold dispatch, validateMap_; cbv zeta.
  by rewrite getParentRules_table, E.
Qed.

Lemma dispatch_slice_quiet h v name s :
  parentRulesOf (table h v) name = [] →
  dispatch h name (Some KSlice) (VSlice s) v
  = sliceFieldsLoop (validateByType h) s 0 (makeParentNameJoinable name) v.
Proof.
  intros E. unfold dispatch, validateSlice_; cbv zeta.
  by rewrite getParentRules_table, E.
Qed.

Lemma quiet_validateByType T val : childQuiet T val.
Proof.
  induction val as [|sc|fs IH|m IH|s IH| |] using Value_children_ind;
    intros Hp name Hu; try discriminate Hp;
    apply Forall_cons in Hu as [Hn Hu].
  - apply (quiet_ext T _ (λ h v, Ok (registerField name v))).
    + intros h v HT. rewrite validateByType_dispatch.
      apply dispatch_scalar_quiet.
      change (fieldRulesOf (table h v) name = []).
      rewrite HT. by apply ungoverned_field.
    + apply (quiet_register T name (λ _ v, Ok v) []), quiet_nil.
  - apply (quiet_ext T _
             (λ h v, mapFieldsLoop (validateByType h) m
                       (makeParentNameJoinable name) (registerField name v))).
    + intros h v HT. rewrite validateByType_dispatch.
      apply dispatch_map_quiet.
      change (parentRulesOf (table h v) name = []).
      rewrite HT. by apply ungoverned_parent.
    + apply (quiet_register T name
               (λ h, mapFieldsLoop (validateByType h) m
                       (makeParentNameJoinable name))).
      by apply quiet_mapLoop.
  - apply (quiet_ext T _
             (λ h v, sliceFieldsLoop (validateByType h) s 0
                       (makeParentNameJoinable name) (registerField name v))).
    + intros h v HT. rewrite validateByType_dispatch.
      apply dispatch_slice_quiet.
      change (parentRulesOf (table h v) name = []).
      rewrite HT. by apply ungoverned_parent.
    + apply (quiet_register T name
               (λ h, sliceFieldsLoop (validateByType h) s 0
                       (makeParentNameJoinable name))).
      by apply quiet_sliceLoop.
Qed.

(** The root map of plain data, under a table without an entry for the
    root. *)
Lemma quiet_root_map T m :
  forallb (λ x, plain x.2) m = true →
  T !! "" = None →
  Forall (ungoverned T) (paths (VMap m) "") →
  quiet T (λ h, dispatch h "" (Some KMap) (VMap m)) (paths (VMap m) "").
Proof.
  intros Hp HT0 Hu.
  apply (quiet_ext T _
           (λ h, mapFieldsLoop (validateByType h) m (makeParentNameJoinable ""))).
  - intros h v HT. apply dispatch_map_quiet.
    rewrite HT. unfold parentRulesOf.
    rewrite HT0. by destruct (decide ("" ≠ "")) as [Hd|_]; [destruct Hd|].
  - apply quiet_mapLoop; try done.
    apply Forall_forall. intros x _. apply quiet_validateByType.
Qed.

(** Plain data carries no tags: merging changes nothing. *)
Lemma addTagRules_plain val :
  plain val = true → ∀ v dyn p h, addTagRules v dyn val p h = h.
Proof.
  induction val as [|sc|fs IH|m IH|s IH| |] using Value_children_ind;
    intros Hp v dyn p h; try discriminate Hp; simpl; [done| |].
  - destruct dyn; [|done]. simpl in Hp.
    generalize (makeParentNameJoinable p). intros p'. revert h.
    induction IH as [|[k c] m Hc _ IHm]; intros h; simpl; [done|].
    simpl in Hp. apply andb_prop in Hp as [Hp1 Hp2].
    rewrite (Hc Hp1). destruct (isComposite c); by apply IHm.
  - destruct dyn; [|done]. simpl in Hp.
    generalize (makeParentNameJoinable p) 0. intros p' k. revert h k.
    induction IH as [|c s Hc _ IHs]; intros h k; simpl; [done|].
    simpl in Hp. apply andb_prop in Hp as [Hp1 Hp2].
    rewrite (Hc Hp1). destruct (isComposite c); by apply IHs.
Qed.

Lemma isWildcard_app s : isWildcard (s +:+ ".*") = true.
Proof.
  induction s as [|a s IH]; [done|].
  change (String a s +:+ ".*") with (String a (s +:+ ".*")).
  destruct s as [|b s]; [done|].
  destruct s as [|c s]; [done|]. exact IH.
Qed.

Lemma ungoverned_single T key rs q :
  T = {[key := rs]} → isWildcard key = false → q ≠ key → ungoverned T q.
Proof.
  intros -> Hk Hq. split.
  - by rewrite lookup_singleton_ne.
  - rewrite lookup_singleton_ne; [done|]. intros E.
    pose proof (isWildcard_app (getParentName q)) as W.
    rewrite <- E in W. congruence.
Qed.

Lemma sessionTable_plain h m r :
  forallb (λ x, plain x.2) m = true →
  sessionTable h (InMap m) r = default ∅ (h !! r)
  ∧ (session h (InMap m) r).1 = <[fresh (dom h) := default ∅ (h !! r)]> h.
Proof.
  intros Hp. unfold sessionTable, session, createNewValidation, copyRules.
  cbn [rootValue fst snd]. rewrite addTagRules_plain by done.
  split; [|done]. unfold table; simpl. by rewrite lookup_insert_eq.
Qed.

(** Scenario D: the table is [{"profile": ["required"]}] and the input,
    plain data, has no field at path [profile]. *)
Lemma scenario_profile h r m rVal :
  h !! r = Some {["profile" := ["required"]]} →
  forallb (λ x, plain x.2) m = true →
  "profile" ∉ paths (VMap m) "" →
  splitRuleNameAndRuleValue "required" = ("required", rVal) →
  (run h (InMap m) r).2
  = Ok {["profile" :=
           GetErrMsg "required" rVal "profile" (VScalar (SString ""))]}.
Proof.
  intros Hr Hp Hpaths Hsplit.
  destruct (sessionTable_plain h m r Hp) as [ET _].
  rewrite Hr in ET; simpl in ET.
  assert (quiet (sessionTable h (InMap m) r)
            (λ h', dispatch h' "" (Some KMap) (VMap m)) (paths (VMap m) ""))
    as Hq.
  { rewrite ET. apply quiet_root_map; [done|done|].
    apply Forall_forall. intros q Hq.
    apply (ungoverned_single _ "profile" ["required"]); [done|done|].
    intros ->. done. }
  destruct (Hq (session h (InMap m) r).1 (session h (InMap m) r).2 eq_refl)
    as (v1 & Ev & _ & Ee & Ef).
  rewrite run_accepted by done. unfold traversal. cbn [rootType rootValue snd].
  rewrite Ev. simpl. f_equal. apply map_eq. intros q.
  destruct (pass_spec (session h (InMap m) r).1 v1) as (_ & R & E).
  rewrite E. clear E.
  assert (table (session h (InMap m) r).1 v1 = {["profile" := ["required"]]})
    as ->.
  { rewrite <- ET. unfold sessionTable, table.
    destruct (Hq (session h (InMap m) r).1 (session h (InMap m) r).2 eq_refl)
      as (v1' & Ev' & R' & _). rewrite Ev in Ev'. simplify_eq. by rewrite R'. }
  rewrite Ee. change (errors (session h (InMap m) r).2) with (∅ : gmap string string).
  unfold requiredAbsent.
  destruct (decide (q = "profile")) as [->|Hne].
  - rewrite lookup_singleton_eq. simpl.
    destruct (decide _) as [Hin|_].
    { destruct (Ef _ Hin) as [Hin'|Hin']; [|done].
      change (fieldsExist (session h (InMap m) r).2) with (∅ : gset string) in Hin'.
      set_solver. }
    unfold requiredMessages; simpl. by rewrite Hsplit.
  - rewrite lookup_singleton_ne by done.
    rewrite (lookup_singleton_ne "profile" q) by done. simpl.
    rewrite lookup_empty. by repeat destruct (decide _).
Qed.

(** C3, as amended.  For an entry of the table (tags merged) at a path
    other than ["*"] whose spec contains a [required] expression, the pass
    over the required fields writes the required-but-absent message at
    that path if the path is not in the visited set, and leaves the entry
    of the error map at that path alone if it is; the error map is not
    looked at.  The traversal records errors below the root at visited
    paths only, so that after a traversal the pass overwrites no error at
    any path but the root path.  And with the table
    [{"profile": ["required"]}], plain input data without a field at path
    [profile] gives exactly the error map with the required message at
    [profile]. *)
Theorem required_pass_by_visited_set :
  (∀ h v q rs,
     table h v !! q = Some rs → hasRequired rs → q ≠ "*" →
     (q ∉ fieldsExist v →
        ∃ msg, last (requiredMessages q rs) = Some msg
               ∧ errors (validateNonExistRequiredFields h v) !! q = Some msg)
     ∧ (q ∈ fieldsExist v →
        errors (validateNonExistRequiredFields h v) !! q = errors v !! q))
  ∧ (∀ h i r v1 q,
       traversal h i r = Ok v1 → q ≠ "" → is_Some (errors v1 !! q) →
       q ∈ fieldsExist v1
       ∧ errors (validateNonExistRequiredFields (session h i r).1 v1) !! q
         = errors v1 !! q)
  ∧ (∀ h r m rVal,
       h !! r = Some {["profile" := ["required"]]} →
       forallb (λ x, plain x.2) m = true →
       "profile" ∉ paths (VMap m) "" →
       splitRuleNameAndRuleValue "required" = ("required", rVal) →
       (run h (InMap m) r).2
       = Ok {["profile" :=
                GetErrMsg "required" rVal "profile" (VScalar (SString ""))]}).
Proof.
  split; [|split].
  - intros h v q rs Hq Hreq Hstar.
    destruct (pass_spec h v) as (_ & _ & E). rewrite E. clear E.
    unfold requiredAbsent. rewrite Hq. simpl.
    destruct (decide (q = "*")); [done|].
    apply (hasRequired_messages q) in Hreq as [msg Hmsg].
    split; intros Hv; destruct (decide (q ∈ fieldsExist v)); try done.
    exists msg. by rewrite Hmsg.
  - intros h i r v1 q Ht Hq Herr.
    assert (q ∈ fieldsExist v1) as Hin.
    { destruct (dispatch_errors_visited _ _ _ _ _ _ q Ht) as [->|?];
        try done.
      change (errors (session h i r).2) with (∅ : gmap string string).
      rewrite lookup_empty. by destruct Herr as [x ->]. }
    split; [done|].
    destruct (pass_spec (session h i r).1 v1) as (_ & _ & E). rewrite E.
    unfold requiredAbsent. destruct (decide (q = "*")); [done|].
    by destruct (decide (q ∈ fieldsExist v1)).
  - apply scenario_profile.
Qed.

(** ** Two runs *)

Lemma pass_errors_eq h1 v1 h2 v2 :
  table h1 v1 = table h2 v2 → errors v1 = errors v2 →
  fieldsExist v1 = fieldsExist v2 →
  errors (validateNonExistRequiredFields h1 v1)
  = errors (validateNonExistRequiredFields h2 v2).
Proof.
  intros ET Ee Ef. apply map_eq. intros q.
  destruct (pass_spec h1 v1) as (_ & _ & E1).
  destruct (pass_spec h2 v2) as (_ & _ & E2).
  rewrite E1, E2, ET, Ee. unfold requiredAbsent. by rewrite Ef.
Qed.

(** What a run returns is fixed by the input and the contents of the
    caller's table. *)
Lemma run_result_table h1 h2 i r :
  h1 !! r = h2 !! r → (run h1 i r).2 = (run h2 i r).2.
Proof.
  intros Er. destruct (accepted i) eqn:Ha;
    [|by rewrite !run_refused by done].
  rewrite !run_accepted by done. simpl.
  destruct (session_table i) as (g & _ & Hg).
  assert (sessionTable h1 i r = sessionTable h2 i r) as ET
    by by rewrite !Hg, Er.
  unfold traversal.
  destruct (writes_root (sessionTable h1 i r) "" (rootType i) (rootValue i))
    as (o & Wo & _).
  rewrite (Wo (session h1 i r).1 (session h1 i r).2) by done.
  rewrite (Wo (session h2 i r).1 (session h2 i r).2) by done.
  destruct o as [e|]; simpl; [|done].
  f_equal. by apply pass_errors_eq.
Qed.

Lemma run_heap_other h i r l :
  is_Some (h !! l) → (run h i r).1 !! l = h !! l.
Proof.
  intros Hl. destruct (accepted i) eqn:Ha.
  - rewrite run_accepted by done. simpl. by apply session_other.
  - by rewrite run_refused.
Qed.

(** *** The traversal visits the paths of the value only *)

Lemma bounded_ret : bounded (λ _ v, Ok v) [].
Proof. intros h v v' E q Hq. simplify_eq. by left. Qed.

Lemma bounded_panic msg ps : bounded (λ _ _, Panic msg) ps.
Proof. intros h v v' E. discriminate E. Qed.

Lemma bounded_weaken f ps ps' : ps ⊆ ps' → bounded f ps → bounded f ps'.
Proof.
  intros Hs Hf h v v' E q Hq. destruct (Hf h v v' E q Hq); [by left|right].
  by apply Hs.
Qed.

Lemma bounded_bind f g ps1 ps2 :
  bounded f ps1 → bounded g ps2 →
  bounded (λ h v, v' ← f h v; g h v') (ps1 ++ ps2).
Proof.
  intros Hf Hg h v v2. destruct (f h v) as [v1|] eqn:E1; simpl; [|done].
  intros E2 q Hq. destruct (Hg h v1 v2 E2 q Hq) as [Hq1|Hq2].
  - destruct (Hf h v v1 E1 q Hq1); [by left|right]. set_solver.
  - right. set_solver.
Qed.

Lemma bounded_structLoop fs p :
  Forall (λ x, childBounded x.2) fs →
  bounded (λ h, structFieldsLoop (validateByType h) fs p)
    (structPaths paths fs p).
Proof.
  induction 1 as [|[fi c] fs Hc _ IH]; simpl; [apply bounded_ret|].
  destruct (f_exported fi).
  - apply (bounded_bind (λ h, validateByType h (p +:+ f_name fi) (fieldType fi c) c)
             (λ h, structFieldsLoop (validateByType h) fs p)
             ((p +:+ f_name fi) :: paths c (p +:+ f_name fi))); [apply Hc|done].
  - eapply bounded_weaken; [|exact IH]. set_solver.
Qed.

Lemma bounded_mapLoop m p :
  Forall (λ x, childBounded x.2) m →
  bounded (λ h, mapFieldsLoop (validateByType h) m p) (mapPaths paths m p).
Proof.
  induction 1 as [|[k c] m Hc _ IH]; simpl; [apply bounded_ret|].
  apply (bounded_bind (λ h, validateByType h (p +:+ k) (TypeOf c) c)
           (λ h, mapFieldsLoop (validateByType h) m p)
           ((p +:+ k) :: paths c (p +:+ k))); [apply Hc|done].
Qed.

Lemma bounded_sliceLoop s idx p :
  Forall childBounded s →
  bounded (λ h, sliceFieldsLoop (validateByType h) s idx p)
    (slicePaths paths s idx p).
Proof.
  intros Hs. revert idx. induction Hs as [|c s Hc _ IH]; intros idx; simpl;
    [apply bounded_ret|].
  apply (bounded_bind (λ h, validateByType h (p +:+ toString idx) (TypeOf c) c)
           (λ h, sliceFieldsLoop (validateByType h) s (S idx) p)
           ((p +:+ toString idx) :: paths c (p +:+ toString idx)));
    [apply Hc|apply IH].
Qed.

Lemma bounded_own name val (k : Heap → validation → Res validation) ps :
  bounded k ps →
  bounded (λ h v,
    e ← Validate name val (getParentRules h v name);
    match e with
    | Some err => Ok (addError name err v)
    | None => k h v
    end) ps.
Proof.
  intros Hk h v v'.
  destruct (Validate name val (getParentRules h v name)) as [[err|]|]; simpl.
  - intros E q Hq. simplify_eq. simpl in Hq. by left.
  - apply Hk.
  - done.
Qed.

Lemma bounded_dispatch name t val :
  (∀ fs, val = VStruct fs → Forall (λ x, childBounded x.2) fs) →
  (∀ m, val = VMap m → Forall (λ x, childBounded x.2) m) →
  (∀ s, val = VSlice s → Forall childBounded s) →
  bounded (λ h, dispatch h name t val) (paths val name).
Proof.
  intros H1 H2 H3. unfold dispatch. destruct t as [[]|].
  - unfold validateStruct_. apply bounded_own.
    destruct val as [|?|fs|?|?|?|?]; try apply bounded_panic.
    by apply (bounded_structLoop fs (makeParentNameJoinable name)), H1.
  - unfold validateMap_. destruct val as [|?|?|m|?|?|?];
      try apply bounded_panic.
    apply bounded_own.
    by apply (bounded_mapLoop m (makeParentNameJoinable name)), H2.
  - unfold validateSlice_. destruct val as [|?|?|?|s|?|?];
      try apply bounded_panic.
    apply bounded_own.
    by apply (bounded_sliceLoop s 0 (makeParentNameJoinable name)), H3.
  - intros h v v'.
    destruct (Validate name val (getFieldRules h v name)) as [[err|]|];
      simpl; intros E q Hq; simplify_eq; simpl in Hq; by left.
  - intros h v v'.
    destruct (Validate name val (getFieldRules h v name)) as [[err|]|];
      simpl; intros E q Hq; simplify_eq; simpl in Hq; by left.
  - apply bounded_panic.
Qed.

Lemma bounded_validateByType val : childBounded val.
Proof.
  induction val using Value_children_ind; intros name t h v v' E q Hq;
    rewrite validateByType_dispatch in E;
    (eapply bounded_dispatch in E;
       [|intros ? E'; try discriminate E'; by injection E' as <-..]);
    (destruct (E q Hq) as [Hq'|Hq']; [|right; set_solver]);
    simpl in Hq'; set_solver.
Qed.

Lemma writes_effectOf T f o : writes T f o → o = effectOf T f.
Proof.
  intros Hf. unfold effectOf. rewrite (Hf _ _); [|by unfold table; simpl; rewrite lookup_singleton_eq].
  destruct o as [[e1 e2]|]; simpl; [|done].
  by rewrite !(right_id_L ∅ (∪)).
Qed.

Lemma writes_writer T f o : writes T f o → writer T f.
Proof. intros Hf. unfold writer. by rewrite <- (writes_effectOf T f o Hf). Qed.

Lemma writer_validateByType T name t val :
  writer T (λ h, validateByType h name t val).
Proof.
  destruct (writes_validateByType T val name t) as (o & Wo & _).
  by apply (writes_writer T _ o).
Qed.

Lemma writer_dispatch T name t val : writer T (λ h, dispatch h name t val).
Proof.
  destruct (writes_root T name t val) as (o & Wo & _).
  by apply (writes_writer T _ o).
Qed.

Lemma effectOf_bind T f g :
  writer T f → writer T g →
  effectOf T (λ h v, v' ← f h v; g h v')
  = (e1 ← effectOf T f; e2 ← effectOf T g; Ok (andThen e1 e2)).
Proof.
  intros Hf Hg. symmetry. apply writes_effectOf. by apply writes_bind.
Qed.

Lemma writer_bind T f g :
  writer T f → writer T g → writer T (λ h v, v' ← f h v; g h v').
Proof.
  intros Hf Hg. eapply writes_writer. by apply writes_bind.
Qed.

Lemma writer_structLoop T fs p :
  writer T (λ h, structFieldsLoop (validateByType h) fs p).
Proof.
  destruct (writes_structLoop T validateByType fs p) as (o & Wo & _).
  { apply Forall_forall. intros x _. apply writes_validateByType. }
  by apply (writes_writer T _ o).
Qed.

Lemma writer_mapLoop T m p :
  writer T (λ h, mapFieldsLoop (validateByType h) m p).
Proof.
  destruct (writes_mapLoop T validateByType m p) as (o & Wo & _).
  { apply Forall_forall. intros x _. apply writes_validateByType. }
  by apply (writes_writer T _ o).
Qed.

Lemma writer_sliceLoop T s idx p :
  writer T (λ h, sliceFieldsLoop (validateByType h) s idx p).
Proof.
  destruct (writes_sliceLoop T validateByType s idx p) as (o & Wo & _).
  { apply Forall_forall. intros x _. apply writes_validateByType. }
  by apply (writes_writer T _ o).
Qed.

(** *** One value, two orders *)

Lemma same_TypeOf c c' :
  same c c' → TypeOf c = TypeOf c' ∧ typeName c = typeName c'.
Proof. by destruct 1. Qed.

Lemma same_paths :
  (∀ c c', same c c' → ∀ name, paths c name ≡ₚ paths c' name)
  ∧ (∀ fs fs', sameFields fs fs' →
       ∀ p, structPaths paths fs p ≡ₚ structPaths paths fs' p)
  ∧ (∀ m m', sameEntries m m' →
       ∀ p, mapPaths paths m p ≡ₚ mapPaths paths m' p)
  ∧ (∀ s s', sameElems s s' →
       ∀ idx p, slicePaths paths s idx p ≡ₚ slicePaths paths s' idx p).
Proof.
  apply same_mutind; simpl; try done.
  - intros fi c c' fs fs' _ IHc _ IHfs p. by rewrite (IHc _), (IHfs _).
  - intros k c c' m m' _ IHc _ IHm p. by rewrite (IHc _), (IHm _).
  - intros [kx cx] [ky cy] m p. simpl.
    apply (Permutation_app_swap_app
             ((p +:+ ky) :: paths cy (p +:+ ky))
             ((p +:+ kx) :: paths cx (p +:+ kx))).
  - intros m1 m2 m3 _ IH1 _ IH2 p. by rewrite (IH1 p).
  - intros c c' s s' _ IHc _ IHs idx p. by rewrite (IHc _), (IHs _ _).
Qed.

Lemma Validate_same name val val' rs :
  orderBlind → same val val' →
  Validate name val rs = Validate name val' rs.
Proof.
  intros Hb Hs. induction rs as [|r rs IH]; simpl; [done|].
  destruct (decide (r = "")); [done|].
  destruct (getRuleInfo r) as [[rName rVal] [f|]] eqn:E; [|done].
  destruct (Hb val val' Hs) as (_ & _ & _ & Hf).
  rewrite (Hf r f name rVal) by by rewrite E. by rewrite IH.
Qed.

Lemma agree_refl o : agree o o.
Proof. by destruct o. Qed.

Lemma agree_trans o1 o2 o3 : agree o1 o2 → agree o2 o3 → agree o1 o3.
Proof. destruct o1, o2, o3; simpl; try done. congruence. Qed.

Lemma agree_seq o1 o1' o2 o2' :
  agree o1 o1' → agree o2 o2' →
  agree (e1 ← o1; e2 ← o2; Ok (andThen e1 e2))
        (e1 ← o1'; e2 ← o2'; Ok (andThen e1 e2)).
Proof.
  destruct o1, o1', o2, o2'; simpl; try done. by intros -> ->.
Qed.

Lemma agree_register o o' name :
  agree o o' →
  agree (e ← o; Ok (andThen (∅, {[name]}) e))
        (e ← o'; Ok (andThen (∅, {[name]}) e)).
Proof. destruct o, o'; simpl; try done. by intros ->. Qed.

Lemma effectOf_validateByType T name t c :
  effectOf T (λ h, validateByType h name t c)
  = (e ← effectOf T (λ h, dispatch h name t c);
     Ok (andThen (∅, {[name]}) e)).
Proof.
  symmetry. apply writes_effectOf. intros h v HT.
  rewrite validateByType_dispatch, registerField_apply.
  rewrite (writer_dispatch T name t c h) by done.
  destruct (effectOf T _) as [e|]; simpl; [|done]. by rewrite apply_apply.
Qed.

Lemma effectOf_structLoop_cons T fi c fs p :
  effectOf T (λ h, structFieldsLoop (validateByType h) ((fi, c) :: fs) p)
  = if f_exported fi
    then e1 ← effectOf T (λ h, validateByType h (p +:+ f_name fi)
                                 (fieldType fi c) c);
         e2 ← effectOf T (λ h, structFieldsLoop (validateByType h) fs p);
         Ok (andThen e1 e2)
    else effectOf T (λ h, structFieldsLoop (validateByType h) fs p).
Proof.
  simpl. destruct (f_exported fi); [|done].
  exact (effectOf_bind T
           (λ h, validateByType h (p +:+ f_name fi) (fieldType fi c) c)
           (λ h, structFieldsLoop (validateByType h) fs p)
           (writer_validateByType _ _ _ _) (writer_structLoop _ _ _)).
Qed.

Lemma effectOf_mapLoop_cons T k c m p :
  effectOf T (λ h, mapFieldsLoop (validateByType h) ((k, c) :: m) p)
  = (e1 ← effectOf T (λ h, validateByType h (p +:+ k) (TypeOf c) c);
     e2 ← effectOf T (λ h, mapFieldsLoop (validateByType h) m p);
     Ok (andThen e1 e2)).
Proof.
  exact (effectOf_bind T
           (λ h, validateByType h (p +:+ k) (TypeOf c) c)
           (λ h, mapFieldsLoop (validateByType h) m p)
           (writer_validateByType _ _ _ _) (writer_mapLoop _ _ _)).
Qed.

Lemma effectOf_sliceLoop_cons T c s idx p :
  effectOf T (λ h, sliceFieldsLoop (validateByType h) (c :: s) idx p)
  = (e1 ← effectOf T (λ h, validateByType h (p +:+ toString idx) (TypeOf c) c);
     e2 ← effectOf T (λ h, sliceFieldsLoop (validateByType h) s (S idx) p);
     Ok (andThen e1 e2)).
Proof.
  exact (effectOf_bind T
           (λ h, validateByType h (p +:+ toString idx) (TypeOf c) c)
           (λ h, sliceFieldsLoop (validateByType h) s (S idx) p)
           (writer_validateByType _ _ _ _) (writer_sliceLoop _ _ _ _)).
Qed.

(** The errors a call records lie at the path of the field and at the
    paths inside its value. *)
Lemma effectOf_bound T name t c e :
  effectOf T (λ h, validateByType h name t c) = Ok e →
  dom e.1 ⊆ list_to_set (name :: paths c name).
Proof.
  intros E.
  destruct (writes_validateByType T c name t) as (o & Wo & Eo).
  pose proof (writes_effectOf T _ o Wo) as Eq. rewrite E in Eq. subst o.
  destruct (Eo e eq_refl) as [_ Hd].
  assert (e.2 ⊆ list_to_set (name :: paths c name)) as Hv; [|set_solver].
  unfold effectOf in E.
  destruct (validateByType _ name t c _) as [v'|] eqn:Ev; [|done].
  simplify_eq. intros q Hq. apply elem_of_list_to_set.
  destruct (bounded_validateByType c name t _ _ _ Ev q Hq) as [Hq'|Hq'];
    [|done].
  simpl in Hq'. set_solver.
Qed.

Lemma andThen_swap (ex ey em : Effect) :
  dom ex.1 ## dom ey.1 →
  andThen ey (andThen ex em) = andThen ex (andThen ey em).
Proof.
  intros Hd. unfold andThen; simpl. f_equal.
  - rewrite <- !(assoc_L (∪)). f_equal. apply map_union_comm.
    by apply map_disjoint_dom.
  - set_solver.
Qed.

Ltac same_node Hb Hs name IH :=
  unfold effectOf, dispatch, validateStruct_, validateMap_, validateSlice_;
  cbv zeta;
  rewrite <- ?(Validate_same name _ _ _ Hb Hs);
  try apply agree_refl;
  match goal with
  | |- context [Validate ?n ?v ?rs] =>
      destruct (Validate n v rs) as [[?|]|]; simpl; try done
  end;
  apply IH.

(** The outcome of a traversal does not depend on the order of the maps
    when no two fields of the value have the same path. *)
Lemma same_effect :
  orderBlind →
  (∀ c c', same c c' → ∀ T name t, NoDup (paths c name) →
     agree (effectOf T (λ h, dispatch h name t c))
           (effectOf T (λ h, dispatch h name t c')))
  ∧ (∀ fs fs', sameFields fs fs' → ∀ T p, NoDup (structPaths paths fs p) →
       agree (effectOf T (λ h, structFieldsLoop (validateByType h) fs p))
             (effectOf T (λ h, structFieldsLoop (validateByType h) fs' p)))
  ∧ (∀ m m', sameEntries m m' → ∀ T p, NoDup (mapPaths paths m p) →
       agree (effectOf T (λ h, mapFieldsLoop (validateByType h) m p))
             (effectOf T (λ h, mapFieldsLoop (validateByType h) m' p)))
  ∧ (∀ s s', sameElems s s' → ∀ T idx p, NoDup (slicePaths paths s idx p) →
       agree (effectOf T (λ h, sliceFieldsLoop (validateByType h) s idx p))
             (effectOf T (λ h, sliceFieldsLoop (validateByType h) s' idx p))).
Proof.
  intros Hb. apply same_mutind.
  - intros val T name t _. apply agree_refl.
  - intros fs fs' Hf IH T name t Hnd.
    assert (same (VStruct fs) (VStruct fs')) as Hs by by constructor.
    destruct t as [[]|]; same_node Hb Hs name IH; done.
  - intros m m' Hm IH T name t Hnd.
    assert (same (VMap m) (VMap m')) as Hs by by constructor.
    destruct t as [[]|]; same_node Hb Hs name IH; done.
  - intros s s' Hsl IH T name t Hnd.
    assert (same (VSlice s) (VSlice s')) as Hs by by constructor.
    destruct t as [[]|]; same_node Hb Hs name IH; done.
  - intros T p _. apply agree_refl.
  - intros fi c c' fs fs' Hc IHc Hfs IHfs T p Hnd.
    rewrite !effectOf_structLoop_cons. simpl in Hnd.
    apply NoDup_cons in Hnd as [_ Hnd]. apply NoDup_app in Hnd as (N1 & _ & N2).
    destruct (f_exported fi); [|by apply IHfs].
    apply agree_seq; [|by apply IHfs].
    rewrite !effectOf_validateByType. unfold fieldType.
    rewrite <- (proj1 (same_TypeOf c c' Hc)).
    apply agree_register. by apply IHc.
  - intros T p _. apply agree_refl.
  - intros k c c' m m' Hc IHc Hm IHm T p Hnd.
    rewrite !effectOf_mapLoop_cons. simpl in Hnd.
    apply NoDup_cons in Hnd as [_ Hnd]. apply NoDup_app in Hnd as (N1 & _ & N2).
    apply agree_seq; [|by apply IHm].
    rewrite !effectOf_validateByType.
    rewrite <- (proj1 (same_TypeOf c c' Hc)).
    apply agree_register. by apply IHc.
  - intros [kx cx] [ky cy] m T p Hnd.
    rewrite !effectOf_mapLoop_cons. simpl in Hnd.
    destruct (effectOf T (λ h, validateByType h (p +:+ ky) (TypeOf cy) cy))
      as [ey|] eqn:Ey;
    destruct (effectOf T (λ h, validateByType h (p +:+ kx) (TypeOf cx) cx))
      as [ex|] eqn:Ex;
    destruct (effectOf T (λ h, mapFieldsLoop (validateByType h) m p))
      as [em|]; simpl; try done.
    apply andThen_swap.
    apply effectOf_bound in Ex, Ey.
    change ((p +:+ ky) :: paths cy (p +:+ ky)
              ++ (p +:+ kx) :: paths cx (p +:+ kx) ++ mapPaths paths m p)
      with (((p +:+ ky) :: paths cy (p +:+ ky))
              ++ ((p +:+ kx) :: paths cx (p +:+ kx)) ++ mapPaths paths m p)
      in Hnd.
    apply NoDup_app in Hnd as (_ & Hd & _).
    intros q Hx Hy. apply Ex, elem_of_list_to_set in Hx.
    apply Ey, elem_of_list_to_set in Hy.
    apply (Hd q Hy). set_solver.
  - intros m1 m2 m3 H12 IH1 H23 IH2 T p Hnd.
    eapply agree_trans; [by apply IH1|]. apply IH2.
    by rewrite <- (proj1 (proj2 (proj2 same_paths)) m1 m2 H12 p).
  - intros T idx p _. apply agree_refl.
  - intros c c' s s' Hc IHc Hs IHs T idx p Hnd.
    rewrite !effectOf_sliceLoop_cons. simpl in Hnd.
    apply NoDup_cons in Hnd as [_ Hnd]. apply NoDup_app in Hnd as (N1 & _ & N2).
    apply agree_seq; [|by apply IHs].
    rewrite !effectOf_validateByType.
    rewrite <- (proj1 (same_TypeOf c c' Hc)).
    apply agree_register. by apply IHc.
Qed.

(** *** The tags, in two orders *)

Lemma adds_addedBy f M : adds f M → M = addedBy f.
Proof.
  intros Hf. unfold addedBy. rewrite (proj1 (Hf _ _)).
  unfold table; simpl. rewrite lookup_empty; simpl.
  by rewrite (left_id_L ∅ (∪)).
Qed.

Lemma adds_adder f M : adds f M → adder f.
Proof. intros Hf. unfold adder. by rewrite <- (adds_addedBy f M Hf). Qed.

Lemma addedBy_comp f1 f2 :
  adder f1 → adder f2 →
  addedBy (λ v h, f2 v (f1 v h)) = addedBy f1 ∪ addedBy f2.
Proof. intros H1 H2. symmetry. apply adds_addedBy. by apply adds_comp. Qed.

Lemma adder_addTagRules dyn c p : adder (λ v, addTagRules v dyn c p).
Proof.
  destruct (adds_addTagRules c dyn p) as (M & A & _). by apply (adds_adder _ M).
Qed.

Lemma addedBy_bound dyn c p :
  dom (addedBy (λ v, addTagRules v dyn c p)) ⊆ list_to_set (paths c p).
Proof.
  destruct (adds_addTagRules c dyn p) as (M & A & D).
  by rewrite <- (adds_addedBy _ M A).
Qed.

Lemma adder_tagStructLoop fs p :
  adder (λ v, tagStructLoop v (addTagRules v) fs p).
Proof.
  destruct (adds_tagStructLoop addTagRules fs p) as (M & A & _).
  { apply Forall_forall. intros x _. apply adds_addTagRules. }
  by apply (adds_adder _ M).
Qed.

Lemma adder_tagMapLoop m p : adder (λ v, tagMapLoop (addTagRules v) m p).
Proof.
  destruct (adds_tagMapLoop addTagRules m p) as (M & A & _).
  { apply Forall_forall. intros x _. apply adds_addTagRules. }
  by apply (adds_adder _ M).
Qed.

Lemma adder_tagSliceLoop s k p :
  adder (λ v, tagSliceLoop (addTagRules v) s k p).
Proof.
  destruct (adds_tagSliceLoop addTagRules s k p) as (M & A & _).
  { apply Forall_forall. intros x _. apply adds_addTagRules. }
  by apply (adds_adder _ M).
Qed.

Lemma adder_tagElem i name : adder (tagElem i name).
Proof.
  unfold tagElem. destruct (isComposite i).
  - apply adder_addTagRules.
  - apply (adds_adder _ ∅), adds_id.
Qed.

Lemma addedBy_tagElem_bound i name :
  dom (addedBy (tagElem i name)) ⊆ list_to_set (paths i name).
Proof.
  unfold tagElem. destruct (isComposite i).
  - apply addedBy_bound.
  - rewrite <- (adds_addedBy (λ _ h, h) ∅ adds_id). by rewrite dom_empty_L.
Qed.

Lemma addedBy_tagMapLoop_cons k i m p :
  addedBy (λ v, tagMapLoop (addTagRules v) ((k, i) :: m) p)
  = addedBy (tagElem i (p +:+ k))
    ∪ addedBy (λ v, tagMapLoop (addTagRules v) m p).
Proof.
  exact (addedBy_comp (tagElem i (p +:+ k))
           (λ v, tagMapLoop (addTagRules v) m p)
           (adder_tagElem _ _) (adder_tagMapLoop _ _)).
Qed.

Lemma addedBy_tagSliceLoop_cons i s k p :
  addedBy (λ v, tagSliceLoop (addTagRules v) (i :: s) k p)
  = addedBy (tagElem i (p +:+ toString k))
    ∪ addedBy (λ v, tagSliceLoop (addTagRules v) s (S k) p).
Proof.
  exact (addedBy_comp (tagElem i (p +:+ toString k))
           (λ v, tagSliceLoop (addTagRules v) s (S k) p)
           (adder_tagElem _ _) (adder_tagSliceLoop _ _ _)).
Qed.

Lemma adder_tagField fi c p : adder (λ v, tagField v (addTagRules v) fi c p).
Proof.
  destruct (adds_tagField addTagRules fi c p) as (M & A & _).
  { apply adds_addTagRules. }
  by apply (adds_adder _ M).
Qed.

Lemma addedBy_tagStructLoop_cons fi c fs p :
  addedBy (λ v, tagStructLoop v (addTagRules v) ((fi, c) :: fs) p)
  = addedBy (λ v, tagField v (addTagRules v) fi c p)
    ∪ addedBy (λ v, tagStructLoop v (addTagRules v) fs p).
Proof.
  exact (addedBy_comp (λ v, tagField v (addTagRules v) fi c p)
           (λ v, tagStructLoop v (addTagRules v) fs p)
           (adder_tagField _ _ _) (adder_tagStructLoop _ _)).
Qed.

Lemma adder_tagInto t c name : adder (tagInto t c name).
Proof.
  unfold tagInto. destruct t as [[]|];
    try apply (adds_adder _ ∅), adds_id; apply adder_addTagRules.
Qed.

Lemma addedBy_tagField fi c p :
  addedBy (λ v, tagField v (addTagRules v) fi c p)
  = addedBy (tagOwn fi p)
    ∪ addedBy (tagInto (fieldType fi c) c (p +:+ f_name fi)).
Proof.
  refine (addedBy_comp (tagOwn fi p)
            (tagInto (fieldType fi c) c (p +:+ f_name fi)) _
            (adder_tagInto _ _ _)).
  apply (adds_adder _ _ (adds_tag _ _ _)).
Qed.

Lemma same_tags :
  orderBlind →
  (∀ c c', same c c' → ∀ dyn p, NoDup (paths c p) →
     addedBy (λ v, addTagRules v dyn c p)
     = addedBy (λ v, addTagRules v dyn c' p))
  ∧ (∀ fs fs', sameFields fs fs' → ∀ p, NoDup (structPaths paths fs p) →
       addedBy (λ v, tagStructLoop v (addTagRules v) fs p)
       = addedBy (λ v, tagStructLoop v (addTagRules v) fs' p))
  ∧ (∀ m m', sameEntries m m' → ∀ p, NoDup (mapPaths paths m p) →
       addedBy (λ v, tagMapLoop (addTagRules v) m p)
       = addedBy (λ v, tagMapLoop (addTagRules v) m' p))
  ∧ (∀ s s', sameElems s s' → ∀ k p, NoDup (slicePaths paths s k p) →
       addedBy (λ v, tagSliceLoop (addTagRules v) s k p)
       = addedBy (λ v, tagSliceLoop (addTagRules v) s' k p)).
Proof.
  intros Hb. apply same_mutind.
  - done.
  - intros fs fs' _ IH dyn p Hnd. by apply (IH (makeParentNameJoinable p)).
  - intros m m' _ IH [] p Hnd; [|done].
    by apply (IH (makeParentNameJoinable p)).
  - intros s s' _ IH [] p Hnd; [|done].
    by apply (IH 0 (makeParentNameJoinable p)).
  - done.
  - intros fi c c' fs fs' Hc IHc _ IHfs p Hnd.
    rewrite !addedBy_tagStructLoop_cons, !addedBy_tagField. simpl in Hnd.
    apply NoDup_cons in Hnd as [_ Hnd]. apply NoDup_app in Hnd as (N1 & _ & N2).
    rewrite (IHfs p N2). f_equal. f_equal.
    unfold fieldType. rewrite <- (proj1 (same_TypeOf c c' Hc)).
    unfold tagInto. destruct (if f_iface fi then _ else _) as [[]|];
      try done; by apply IHc.
  - done.
  - intros k c c' m m' Hc IHc _ IHm p Hnd.
    rewrite !addedBy_tagMapLoop_cons. simpl in Hnd.
    apply NoDup_cons in Hnd as [_ Hnd]. apply NoDup_app in Hnd as (N1 & _ & N2).
    rewrite (IHm p N2). f_equal.
    unfold tagElem, isComposite.
    destruct (Hb c c' Hc) as (-> & -> & -> & _).
    destruct (_ || _ || _); [by apply IHc|done].
  - intros [kx cx] [ky cy] m p Hnd.
    rewrite !addedBy_tagMapLoop_cons, !(assoc_L (∪)). f_equal.
    apply map_union_comm, map_disjoint_dom.
    pose proof (addedBy_tagElem_bound cx (p +:+ kx)) as Bx.
    pose proof (addedBy_tagElem_bound cy (p +:+ ky)) as By.
    simpl in Hnd.
    change ((p +:+ ky) :: paths cy (p +:+ ky)
              ++ (p +:+ kx) :: paths cx (p +:+ kx) ++ mapPaths paths m p)
      with (((p +:+ ky) :: paths cy (p +:+ ky))
              ++ ((p +:+ kx) :: paths cx (p +:+ kx)) ++ mapPaths paths m p)
      in Hnd.
    apply NoDup_app in Hnd as (_ & Hd & _).
    intros q Hy Hx. apply By, elem_of_list_to_set in Hy.
    apply Bx, elem_of_list_to_set in Hx.
    apply (Hd q); set_solver.
  - intros m1 m2 m3 H12 IH1 _ IH2 p Hnd.
    rewrite (IH1 p Hnd). apply IH2.
    by rewrite <- (proj1 (proj2 (proj2 same_paths)) m1 m2 H12 p).
  - done.
  - intros c c' s s' Hc IHc _ IHs k p Hnd.
    rewrite !addedBy_tagSliceLoop_cons. simpl in Hnd.
    apply NoDup_cons in Hnd as [_ Hnd]. apply NoDup_app in Hnd as (N1 & _ & N2).
    rewrite (IHs (S k) p N2). f_equal.
    unfold tagElem, isComposite.
    destruct (Hb c c' Hc) as (-> & -> & -> & _).
    destruct (_ || _ || _); [by apply IHc|done].
Qed.

(** *** A run, in two orders *)

Lemma sameInput_accepted i i' :
  orderBlind → sameInput i i' → accepted i = accepted i'.
Proof.
  intros Hb [Ht Hs]. destruct i, i'; try done. simpl in *.
  by destruct (Hb _ _ Hs) as (-> & _).
Qed.

Lemma sessionTable_addedBy h i r :
  sessionTable h i r
  = default ∅ (h !! r) ∪ addedBy (λ v, addTagRules v true (rootValue i) "").
Proof.
  unfold sessionTable, session, createNewValidation, copyRules; simpl.
  rewrite (proj1 (adder_addTagRules true (rootValue i) "" _ _)).
  unfold table; simpl. by rewrite lookup_insert_eq.
Qed.

Lemma sameInput_sessionTable h i i' r :
  orderBlind → sameInput i i' → NoDup (paths (rootValue i) "") →
  sessionTable h i r = sessionTable h i' r.
Proof.
  intros Hb [_ Hs] Hnd. rewrite !sessionTable_addedBy. f_equal.
  by apply (proj1 (same_tags Hb)).
Qed.

Lemma session_validation h i i' r : (session h i r).2 = (session h i' r).2.
Proof. reflexivity. Qed.

Lemma run_order h i i' r :
  orderBlind → sameInput i i' → NoDup (paths (rootValue i) "") →
  sameOutcome (run h i r).2 (run h i' r).2.
Proof.
  intros Hb Hi Hnd.
  pose proof (sameInput_accepted i i' Hb Hi) as Ha.
  pose proof (sameInput_sessionTable h i i' r Hb Hi Hnd) as ET.
  destruct Hi as [Ht Hs].
  destruct (accepted i) eqn:Hai.
  - rewrite (run_accepted h i r Hai), (run_accepted h i' r (eq_sym Ha)).
    simpl. unfold traversal.
    rewrite (writer_dispatch (sessionTable h i r) "" (rootType i)
               (rootValue i) (session h i r).1 (session h i r).2 eq_refl).
    rewrite (writer_dispatch (sessionTable h i r) "" (rootType i')
               (rootValue i') (session h i' r).1 (session h i' r).2
               (eq_sym ET)).
    rewrite <- Ht.
    pose proof (proj1 (same_effect Hb) _ _ Hs (sessionTable h i r) ""
                  (rootType i) Hnd) as Hag.
    destruct (effectOf _ (λ h0, dispatch h0 "" (rootType i) (rootValue i)))
      as [e|]; destruct (effectOf _ _) as [e'|]; simpl in *; try done.
    subst e'. apply pass_errors_eq; [exact ET|done|done].
  - rewrite (run_refused h i r Hai), (run_refused h i' r (eq_sym Ha)). done.
Qed.

(** C9, as amended.  The session works on a table that is another object
    than the caller's; a run leaves the caller's table as it was; a
    second run on the heap the first one left, with the same value (its
    maps ranged over in the same order) and the same table, returns what
    the first one returned; and when the helpers and the rule functions
    do not see the order of maps and no two fields of the value have the
    same path, a second run that ranges over the maps in any other order
    ends as the first one did: with the same error map, or with a panic
    as well. *)
Theorem second_run_same_result (h : Heap) (i i' : Input) (r : loc)
    (R : gmap string (list string)) :
  h !! r = Some R →
  rules (session h i r).2 ≠ r
  ∧ (run h i r).1 !! r = Some R
  ∧ (run (run h i r).1 i r).2 = (run h i r).2
  ∧ (run (run h i r).1 i r).1 !! r = Some R
  ∧ (orderBlind → sameInput i i' → NoDup (paths (rootValue i) "") →
     sameOutcome (run h i r).2 (run (run h i r).1 i' r).2).
Proof.
  intros Hr.
  assert ((run h i r).1 !! r = Some R) as H1.
  { rewrite run_heap_other by by rewrite Hr. done. }
  split; [|split; [done|split; [|split]]].
  - intros E. pose proof (session_fresh h i r) as Hf.
    rewrite E, Hr in Hf. discriminate Hf.
  - apply run_result_table. by rewrite H1, Hr.
  - rewrite run_heap_other by by rewrite H1. done.
  - intros Hb Hi Hnd.
    rewrite (run_result_table (run h i r).1 h i' r) by by rewrite H1, Hr.
    by apply run_order.
Qed.

End valdn_theory.

Section valdn_more.
Context `{Externals}.

(** * Further properties of the code *)

(** ** Rule evaluation *)

(** X1.  [Validate] on a spec in two parts: the second part is evaluated
    when and only when the first one passes; a failure or a panic of the
    first part is the result. *)
Theorem Validate_concat (name : string) (val : Value)
    (rs1 rs2 : list string) :
  Validate name val (rs1 ++ rs2)
  = match Validate name val rs1 with
    | Ok None => Validate name val rs2
    | other => other
    end.
Proof.
  induction rs1 as [|r rs1 IH]; [done|].
  rewrite <- app_comm_cons, !Validate_cons.
  destruct (decide (r = "")); [done|].
  destruct (evalRule name val r) as [[e|]|]; simpl; done.
Qed.

(** ** What the traversal leaves behind *)

Lemma bounded_root name t val :
  bounded (λ h, dispatch h name t val) (paths val name).
Proof.
  apply bounded_dispatch; intros; apply Forall_forall; intros;
    apply bounded_validateByType.
Qed.

Lemma traversal_visited h i r v1 q :
  traversal h i r = Ok v1 → q ∈ fieldsExist v1 → q ∈ paths (rootValue i) "".
Proof.
  intros Ht Hq.
  destruct (bounded_root "" (rootType i) (rootValue i) _ _ _ Ht q Hq)
    as [Hq'|Hq']; [|done].
  change (fieldsExist (session h i r).2) with (∅ : gset string) in Hq'.
  set_solver.
Qed.

Lemma traversal_errors h i r v1 q :
  traversal h i r = Ok v1 → is_Some (errors v1 !! q) →
  q = "" ∨ q ∈ paths (rootValue i) "".
Proof.
  intros Ht Hq.
  destruct (dispatch_errors_visited _ _ _ _ _ _ q Ht) as [->|Hv].
  - change (errors (session h i r).2) with (∅ : gmap string string).
    rewrite lookup_empty. by destruct Hq as [x ->].
  - by left.
  - right. by apply (traversal_visited h i r v1).
Qed.

Lemma traversal_table h i r v1 :
  traversal h i r = Ok v1 →
  table (session h i r).1 v1 = sessionTable h i r.
Proof.
  unfold traversal. intros Ht.
  rewrite (writer_dispatch (sessionTable h i r) "" (rootType i)
             (rootValue i) (session h i r).1 (session h i r).2 eq_refl) in Ht.
  destruct (effectOf _ _) as [e|]; simpl in Ht; [|done].
  by simplify_eq.
Qed.

(** X2.  The traversal only adds to a session: the table it reads is the
    same object afterwards, no visited path and no key of the error map is
    lost, and the path of the field is among the visited ones. *)
Theorem traversal_only_adds (h : Heap) (name : string) (t : option Kind)
    (val : Value) (v v' : validation) :
  validateByType h name t val v = Ok v' →
  rules v' = rules v
  ∧ fieldsExist v ⊆ fieldsExist v'
  ∧ dom (errors v) ⊆ dom (errors v')
  ∧ name ∈ fieldsExist v'.
Proof.
  intros [(R & E & F) Hn]%validateByType_grows. by repeat split.
Qed.

(** X3.  Every key of a returned error map is the root path, the path of a
    field of the value, or a key of the rule table (tags merged), other than
    ["*"], whose spec has a [required] expression. *)
Theorem error_keys_bounded (h : Heap) (i : Input) (r : loc)
    (errs : gmap string string) (q : string) :
  (run h i r).2 = Ok errs → is_Some (errs !! q) →
  q = "" ∨ q ∈ paths (rootValue i) ""
  ∨ (q ≠ "*" ∧ ∃ rs, sessionTable h i r !! q = Some rs ∧ hasRequired rs).
Proof.
  intros Hrun Hq. destruct (run_Ok _ _ _ _ Hrun) as (v1 & Ht & ->).
  destruct (pass_spec (session h i r).1 v1) as (_ & _ & E).
  rewrite E, (traversal_table h i r v1 Ht) in Hq. clear E.
  destruct (requiredAbsent _ v1 q) as [msg|] eqn:Ea.
  - right. right. unfold requiredAbsent in Ea.
    destruct (decide (q = "*")); [done|].
    destruct (decide (q ∈ fieldsExist v1)); [done|].
    destruct (sessionTable h i r !! q) as [rs|] eqn:Eq; [|done].
    split; [done|]. exists rs. split; [done|].
    apply (hasRequired_messages q). simpl in Ea. by rewrite Ea.
  - destruct (traversal_errors h i r v1 q Ht Hq) as [?|?]; auto.
Qed.

(** X4.  No error is ever keyed ["*"], unless a field of the value has that
    path. *)
Theorem star_key_never_reported (h : Heap) (i : Input) (r : loc)
    (errs : gmap string string) :
  (run h i r).2 = Ok errs → "*" ∉ paths (rootValue i) "" →
  errs !! "*" = None.
Proof.
  intros Hrun Hp. destruct (run_Ok _ _ _ _ Hrun) as (v1 & Ht & ->).
  destruct (pass_spec (session h i r).1 v1) as (_ & _ & E).
  rewrite E. unfold requiredAbsent. rewrite decide_True by done.
  destruct (errors v1 !! "*") as [x|] eqn:Ex; [|done].
  destruct (traversal_errors h i r v1 "*" Ht) as [?|?]; by eauto.
Qed.

(** X5.  A reached field that holds the nil interface value (a JSON [null]
    in decoded data) has no type to switch on: the validation call ends in a
    panic. *)
Theorem nil_value_panics (h : Heap) (i : Input) (r : loc) (c : Call) :
  reaches (sessionTable h i r) (rootCall i) c →
  c.1.2 = None →
  panics (run h i r).2.
Proof.
  intros Hr Ht. apply run_panics.
  apply (reaches_panic (sessionTable h i r) (rootCall i) c Hr); [|done].
  intros h' v' _. destruct c as [[n t] val]; simpl in *. subst t.
  by eexists.
Qed.

(** X6.  When the root passes its own rules and has no field to visit (an
    empty map or slice, a struct without exported fields), the error map
    holds exactly the required-but-absent message of every entry of the
    table, other than ["*"], that has a [required] expression. *)
Theorem nothing_to_visit (h : Heap) (i : Input) (r : loc) :
  accepted i = true →
  kids (rootValue i) "" = [] →
  descends (sessionTable h i r) (rootCall i) →
  ∃ errs, (run h i r).2 = Ok errs
    ∧ ∀ q, errs !! q
           = if decide (q = "*") then None
             else sessionTable h i r !! q ≫= λ rs, last (requiredMessages q rs).
Proof.
  intros Ha Hk Hd. rewrite run_accepted by done. simpl.
  unfold traversal.
  rewrite (dispatch_descends (session h i r).1 "" (rootType i) (rootValue i)
             (session h i r).2 Hd), Hk.
  simpl. eexists. split; [done|]. intros q.
  destruct (pass_spec (session h i r).1 (session h i r).2) as (_ & _ & E).
  rewrite E. unfold requiredAbsent.
  change (table (session h i r).1 (session h i r).2) with (sessionTable h i r).
  change (fieldsExist (session h i r).2) with (∅ : gset string).
  change (errors (session h i r).2) with (∅ : gmap string string).
  rewrite lookup_empty.
  destruct (decide (q = "*")); [done|].
  rewrite decide_False by set_solver.
  by destruct (_ ≫= _).
Qed.

(** ** The pass over required fields *)

Lemma validation_eq (a b : validation) :
  rules a = rules b → errors a = errors b → fieldsExist a = fieldsExist b →
  a = b.
Proof. destruct a, b; simpl. by intros -> -> ->. Qed.

(** X7.  Running the pass a second time changes nothing. *)
Theorem required_pass_idempotent (h : Heap) (v : validation) :
  validateNonExistRequiredFields h (validateNonExistRequiredFields h v)
  = validateNonExistRequiredFields h v.
Proof.
  destruct (pass_spec h v) as (F & R & E).
  destruct (pass_spec h (validateNonExistRequiredFields h v)) as (F' & R' & E').
  apply validation_eq; [done|..|done].
  apply map_eq. intros q. rewrite E', E.
  assert (table h (validateNonExistRequiredFields h v) = table h v) as ->
    by (unfold table; by rewrite R).
  unfold requiredAbsent. rewrite F.
  destruct (decide (q = "*")); [done|].
  destruct (decide (q ∈ fieldsExist v)); [done|].
  by destruct (_ ≫= _).
Qed.

(** X8.  The pass ranges over the rule table, a Go map: in whatever order
    the entries come, the session it leaves is the same. *)
Theorem required_pass_any_order (h : Heap) (v : validation)
    (l : list (string * list string)) :
  l ≡ₚ map_to_list (table h v) →
  fold_left requiredEntry l v = validateNonExistRequiredFields h v.
Proof.
  intros Hl.
  assert (NoDup l.*1) as Hnd.
  { rewrite Hl. apply NoDup_fst_map_to_list. }
  destruct (fold_requiredEntry l v Hnd) as (F & R & E).
  destruct (pass_spec h v) as (F' & R' & E').
  apply validation_eq; [congruence| |congruence].
  apply map_eq. intros q. rewrite E, E'.
  by rewrite (list_to_map_proper l (map_to_list (table h v)) Hnd Hl),
    list_to_map_to_list.
Qed.

(** ** Merging the tags *)

(** X9.  Merging the tags of a value at [p] writes to the table of the
    session only, and adds entries only at paths of fields of the value. *)
Theorem tag_rules_only_at_field_paths (v : validation) (dyn : bool)
    (val : Value) (p : string) (h : Heap) :
  (∀ l, l ≠ rules v → addTagRules v dyn val p h !! l = h !! l)
  ∧ (∀ q, q ∉ paths val p →
       table (addTagRules v dyn val p h) v !! q = table h v !! q).
Proof.
  destruct (adds_addTagRules val dyn p) as (M & A & D).
  destruct (A v h) as [E O]. split; [done|].
  intros q Hq. rewrite E.
  destruct (table h v !! q) as [x|] eqn:Eq.
  - by apply lookup_union_Some_l.
  - apply lookup_union_None. split; [done|].
    apply not_elem_of_dom. intros Hd. apply Hq.
    apply D in Hd. by apply elem_of_list_to_set in Hd.
Qed.

(** X10.  Merging the tags of the same value a second time changes no entry. *)
Theorem tag_rules_merge_idempotent (v : validation) (dyn : bool)
    (val : Value) (p : string) (h : Heap) :
  table (addTagRules v dyn val p (addTagRules v dyn val p h)) v
  = table (addTagRules v dyn val p h) v.
Proof.
  destruct (adds_addTagRules val dyn p) as (M & A & _).
  rewrite (proj1 (A v (addTagRules v dyn val p h))), (proj1 (A v h)).
  by rewrite <- (assoc_L (∪)), (idemp (∪) M).
Qed.

Lemma structPaths_elem fs p fi c :
  (fi, c) ∈ fs →
  ((p +:+ f_name fi) :: paths c (p +:+ f_name fi)) ⊆ structPaths paths fs p.
Proof.
  induction fs as [|[fj cj] fs IH]; [by intros ?%elem_of_nil|].
  intros [[= <- <-]|Hin]%elem_of_cons; simpl.
  - set_solver.
  - specialize (IH Hin). set_solver.
Qed.

Lemma addedBy_tagOwn fi p :
  addedBy (tagOwn fi p)
  = if decide (f_tag fi ≠ "")
    then {[p +:+ f_name fi := Split (f_tag fi) TagSeparator]} else ∅.
Proof. symmetry. apply adds_addedBy. apply adds_tag. Qed.

Lemma addedBy_tagInto_bound t c name :
  dom (addedBy (tagInto t c name)) ⊆ list_to_set (paths c name).
Proof.
  unfold tagInto. destruct t as [[]|]; try apply addedBy_bound;
    rewrite <- (adds_addedBy (λ _ h, h) ∅ adds_id); by rewrite dom_empty_L.
Qed.

Lemma addedBy_tagStructLoop_lookup fs p fi c :
  (fi, c) ∈ fs → f_tag fi ≠ "" → NoDup (structPaths paths fs p) →
  addedBy (λ v, tagStructLoop v (addTagRules v) fs p) !! (p +:+ f_name fi)
  = Some (Split (f_tag fi) TagSeparator).
Proof.
  intros Hin Ht. induction fs as [|[fj cj] fs IH]; [by apply elem_of_nil in Hin|].
  intros Hnd. rewrite addedBy_tagStructLoop_cons, addedBy_tagField.
  simpl in Hnd. apply NoDup_cons in Hnd as [Hj Hnd].
  apply NoDup_app in Hnd as (N1 & Hd & N2).
  apply elem_of_cons in Hin as [[= <- <-]|Hin].
  - apply lookup_union_Some_l, lookup_union_Some_l.
    rewrite addedBy_tagOwn, decide_True by done. apply lookup_singleton_eq.
  - pose proof (structPaths_elem fs p fi c Hin) as Hs.
    assert (p +:+ f_name fi ∈ structPaths paths fs p) as Hp by set_solver.
    rewrite lookup_union_r; [by apply IH|].
    apply lookup_union_None. split.
    + rewrite addedBy_tagOwn. destruct (decide _); [|done].
      apply lookup_singleton_ne. intros E. rewrite E in Hj. set_solver.
    + apply not_elem_of_dom. intros Hq%addedBy_tagInto_bound.
      apply elem_of_list_to_set in Hq. by apply (Hd _ Hq).
Qed.

(** X11.  A struct field with a tag and no entry of its own in the table is
    governed by the rule spec of its tag, split at the separator, when the
    separator is not empty and no other field of the struct has its
    path. *)
Theorem tag_governs_field_without_entry (v : validation) (dyn : bool)
    (fs : list (FieldInfo * Value)) (p : string) (h : Heap)
    (fi : FieldInfo) (c : Value) :
  TagSeparator ≠ "" →
  (fi, c) ∈ fs → f_tag fi ≠ "" →
  NoDup (paths (VStruct fs) p) →
  table h v !! (makeParentNameJoinable p +:+ f_name fi) = None →
  table (addTagRules v dyn (VStruct fs) p h) v
    !! (makeParentNameJoinable p +:+ f_name fi)
  = Some (Split (f_tag fi) TagSeparator)
  ∧ getFieldRules (addTagRules v dyn (VStruct fs) p h) v
      (makeParentNameJoinable p +:+ f_name fi)
    = Split (f_tag fi) TagSeparator
  ∧ getParentRules (addTagRules v dyn (VStruct fs) p h) v
      (makeParentNameJoinable p +:+ f_name fi)
    = Split (f_tag fi) TagSeparator.
Proof.
  intros _ Hin Ht Hnd Hn.
  assert (table (addTagRules v dyn (VStruct fs) p h) v
            !! (makeParentNameJoinable p +:+ f_name fi)
          = Some (Split (f_tag fi) TagSeparator)) as E.
  { change (addTagRules v dyn (VStruct fs) p h)
      with (tagStructLoop v (addTagRules v) fs (makeParentNameJoinable p) h).
    rewrite (proj1 (adder_tagStructLoop fs (makeParentNameJoinable p) v h)).
    rewrite lookup_union_r by done.
    by apply (addedBy_tagStructLoop_lookup fs _ fi c). }
  unfold getFieldRules, getParentRules. by rewrite E.
Qed.

(** ** A field that is never visited *)

Lemma structLoop_unexported h fs p fi c v v' :
  NoDup (structPaths paths fs p) → (fi, c) ∈ fs → f_exported fi = false →
  structFieldsLoop (validateByType h) fs p v = Ok v' →
  p +:+ f_name fi ∉ fieldsExist v → p +:+ f_name fi ∉ fieldsExist v'.
Proof.
  intros Hnd Hin Hex. revert v.
  induction fs as [|[fj cj] fs IH]; intros v; [by apply elem_of_nil in Hin|].
  simpl in Hnd. apply NoDup_cons in Hnd as [Hj Hnd].
  apply NoDup_app in Hnd as (N1 & Hd & N2).
  apply elem_of_cons in Hin as [[= <- <-]|Hin]; simpl.
  - rewrite Hex. intros Hl Hv Hv'.
    destruct (bounded_structLoop fs p) with (h := h) (v := v) (v' := v')
      (q := p +:+ f_name fi) as [?|?]; try done.
    + apply Forall_forall. intros x _. apply bounded_validateByType.
    + set_solver.
  - pose proof (structPaths_elem fs p fi c Hin) as Hs.
    assert (p +:+ f_name fi ∈ structPaths paths fs p) as Hp by set_solver.
    destruct (f_exported fj); [|by apply IH].
    destruct (validateByType h _ _ cj v) as [v1|] eqn:E1; simpl; [|done].
    intros Hl Hv. apply (IH N2 Hin v1 Hl). intros Hv1.
    destruct (bounded_validateByType cj _ _ _ _ _ E1 _ Hv1) as [?|Hq];
      [done|].
    apply elem_of_cons in Hq as [Hq|Hq].
    + rewrite <- Hq in Hj. set_solver.
    + by apply (Hd _ Hq).
Qed.

(** X12.  An unexported field of the root struct is never visited. So when
    the table (tags merged) has a [required] expression at its path, the
    error map has the required-but-absent message there, whatever the field
    holds. *)
Theorem unexported_required_field_reported (h : Heap)
    (fs : list (FieldInfo * Value)) (r : loc) (fi : FieldInfo) (c : Value)
    (rs : list string) (errs : gmap string string) :
  (run h (InStruct (VStruct fs)) r).2 = Ok errs →
  (fi, c) ∈ fs → f_exported fi = false →
  NoDup (paths (VStruct fs) "") →
  sessionTable h (InStruct (VStruct fs)) r
    !! (makeParentNameJoinable "" +:+ f_name fi) = Some rs →
  hasRequired rs →
  makeParentNameJoinable "" +:+ f_name fi ≠ "*" →
  is_Some (errs !! (makeParentNameJoinable "" +:+ f_name fi))
  ∧ errs !! (makeParentNameJoinable "" +:+ f_name fi)
    = last (requiredMessages (makeParentNameJoinable "" +:+ f_name fi) rs).
Proof.
  intros Hrun Hin Hex Hnd HT Hreq Hstar.
  destruct (run_Ok _ _ _ _ Hrun) as (v1 & Ht & ->).
  assert (makeParentNameJoinable "" +:+ f_name fi ∉ fieldsExist v1) as Hv.
  { pose proof Ht as Ht'. unfold traversal, dispatch, validateStruct_ in Ht'.
    cbv zeta in Ht'. cbn [rootType rootValue] in Ht'.
    destruct (Validate _ _ _) as [[err|]|]; simpl in Ht'; [| |done].
    - simplify_eq. simpl. set_solver.
    - apply (structLoop_unexported _ _ _ _ _ _ _ Hnd Hin Hex Ht').
      set_solver. }
  destruct (pass_spec (session h (InStruct (VStruct fs)) r).1 v1)
    as (_ & _ & E).
  rewrite E, (traversal_table _ _ _ _ Ht). unfold requiredAbsent.
  rewrite decide_False by done. rewrite decide_False by done.
  rewrite HT. simpl.
  apply (hasRequired_messages (makeParentNameJoinable "" +:+ f_name fi))
    in Hreq as [msg Hmsg].
  rewrite Hmsg. by split; [eexists|].
Qed.

(** ** Input that no rule concerns *)

(** X13.  Plain data (maps, slices and scalars, as decoded from JSON) under
    a table that has no entry for the root, governs none of the paths of the
    data and has no [required] expression: the error map is empty. *)
Theorem ungoverned_plain_map_passes (h : Heap) (r : loc)
    (m : list (string * Value)) :
  forallb (λ x, plain x.2) m = true →
  default ∅ (h !! r) !! "" = None →
  Forall (ungoverned (default ∅ (h !! r))) (paths (VMap m) "") →
  (∀ q rs, default ∅ (h !! r) !! q = Some rs → q = "*" ∨ ¬ hasRequired rs) →
  (run h (InMap m) r).2 = Ok ∅.
Proof.
  intros Hp H0 Hu Hreq.
  destruct (sessionTable_plain h m r Hp) as [ET _].
  pose proof (quiet_root_map (default ∅ (h !! r)) m Hp H0 Hu) as Hq.
  rewrite <- ET in Hq.
  destruct (Hq (session h (InMap m) r).1 (session h (InMap m) r).2 eq_refl)
    as (v1 & Ev & R & Ee & Ef).
  rewrite run_accepted by done. unfold traversal.
  cbn [rootType rootValue snd]. rewrite Ev. simpl. f_equal.
  apply map_eq. intros q. rewrite lookup_empty.
  destruct (pass_spec (session h (InMap m) r).1 v1) as (_ & _ & E).
  rewrite E, Ee. clear E.
  change (errors (session h (InMap m) r).2) with (∅ : gmap string string).
  rewrite lookup_empty.
  assert (table (session h (InMap m) r).1 v1 = default ∅ (h !! r)) as ->.
  { rewrite <- ET. unfold sessionTable, table. by rewrite R. }
  unfold requiredAbsent. destruct (decide (q = "*")); [done|].
  destruct (decide _); [done|].
  destruct (default ∅ (h !! r) !! q) as [rs|] eqn:Eq; [|done]. simpl.
  destruct (Hreq q rs Eq) as [?|Hn]; [done|].
  destruct (last (requiredMessages q rs)) as [msg|] eqn:El; [|done].
  destruct Hn. apply (hasRequired_messages q). by rewrite El.
Qed.

(** ** Calls that return *)

Lemma Validate_known name val rs :
  Forall known rs → ∃ e, Validate name val rs = Ok e.
Proof.
  induction 1 as [|r rs Hr _ IH]; [by eexists|].
  rewrite Validate_cons. destruct (decide (r = "")) as [|Hne]; [done|].
  destruct Hr as [?|[f Hf]]; [done|]. unfold evalRule.
  destruct (getRuleInfo r) as [[rName rVal] rFunc]. simpl in Hf. subst rFunc.
  simpl. destruct (f name val rVal); [by eexists|done].
Qed.

Lemma fieldRulesOf_known T name :
  tableKnown T → Forall known (fieldRulesOf T name).
Proof.
  intros HT. unfold fieldRulesOf.
  destruct (T !! name) as [rs|] eqn:E; [by apply (HT name)|].
  destruct (T !! (_ +:+ ".*")) as [rs|] eqn:E'; simpl; [by eapply HT|done].
Qed.

Lemma parentRulesOf_known T name :
  tableKnown T → Forall known (parentRulesOf T name).
Proof.
  intros HT. unfold parentRulesOf.
  destruct (T !! name) as [rs|] eqn:E; [by apply (HT name)|].
  destruct (decide _); [|done].
  destruct (T !! (_ +:+ ".*")) as [rs|] eqn:E'; simpl; [by eapply HT|done].
Qed.

Lemma returns_register T name t val :
  returns T (λ h, dispatch h name t val) →
  returns T (λ h, validateByType h name t val).
Proof.
  intros Hd h v HT. rewrite validateByType_dispatch. by apply Hd.
Qed.

Lemma returns_leaf T name t val :
  tableKnown T → t = Some KInterface ∨ t = Some KOther →
  returns T (λ h, dispatch h name t val).
Proof.
  intros HT Ht h v <-.
  destruct (Validate_known name val (fieldRulesOf (table h v) name))
    as [e He]; [by apply fieldRulesOf_known|].
  destruct Ht as [-> | ->]; unfold dispatch;
    rewrite getFieldRules_table, He; simpl; destruct e; by eexists.
Qed.

Lemma returns_own T name val (k : Heap → validation → Res validation) :
  tableKnown T → returns T k →
  returns T (λ h v,
    e ← Validate name val (getParentRules h v name);
    match e with
    | Some err => Ok (addError name err v)
    | None => k h v
    end).
Proof.
  intros HT Hk h v E.
  destruct (Validate_known name val (parentRulesOf (table h v) name))
    as [e He]; [rewrite E; by apply parentRulesOf_known|].
  rewrite getParentRules_table, He. simpl.
  destruct e; [by eexists|by apply Hk].
Qed.

Lemma returns_step T f g :
  (∀ h v v', f h v = Ok v' → rules v' = rules v) →
  returns T f → returns T g → returns T (λ h v, v' ← f h v; g h v').
Proof.
  intros Hr Hf Hg h v HT. destruct (Hf h v HT) as [v1 E1]. rewrite E1. simpl.
  apply Hg. rewrite <- HT. unfold table. by rewrite (Hr _ _ _ E1).
Qed.

Lemma validateByType_rules h name t val v v' :
  validateByType h name t val v = Ok v' → rules v' = rules v.
Proof. by intros [(R & _) _]%validateByType_grows. Qed.

Lemma returns_dispatch T val :
  tableKnown T → walkable val = true →
  ∀ name, returns T (λ h, dispatch h name (TypeOf val) val).
Proof.
  intros HT.
  induction val as [|sc|fs IH|m IH|s IH| |] using Value_children_ind;
    intros Hw name; try discriminate Hw.
  - apply returns_leaf; auto.
  - apply returns_own; [done|]. simpl in Hw.
    unfold validateStructFields_.
    generalize (makeParentNameJoinable name). intros p.
    induction IH as [|[fi c] fs Hc _ IHfs]; simpl; [by eexists|].
    simpl in Hw. apply andb_prop in Hw as [Hw1 Hw2].
    destruct (f_exported fi) eqn:Ex; [|by apply IHfs].
    apply (returns_step T
             (λ h, validateByType h (p +:+ f_name fi) (fieldType fi c) c)
             (λ h, structFieldsLoop (validateByType h) fs p));
      [intros; by eapply validateByType_rules| |by apply IHfs].
    apply returns_register. unfold fieldType.
    destruct (f_iface fi); [apply returns_leaf; auto|].
    simpl in Hw1. by apply Hc.
  - apply returns_own; [done|]. simpl in Hw.
    unfold validateMapFields_.
    generalize (makeParentNameJoinable name). intros p.
    induction IH as [|[k c] m Hc _ IHm]; simpl; [by eexists|].
    simpl in Hw. apply andb_prop in Hw as [Hw1 Hw2].
    apply (returns_step T
             (λ h, validateByType h (p +:+ k) (TypeOf c) c)
             (λ h, mapFieldsLoop (validateByType h) m p));
      [intros; by eapply validateByType_rules| |by apply IHm].
    apply returns_register. by apply Hc.
  - apply returns_own; [done|]. simpl in Hw.
    unfold validateSliceFields_.
    generalize (makeParentNameJoinable name) 0. intros p idx. revert idx.
    induction IH as [|c s Hc _ IHs]; intros idx; simpl; [by eexists|].
    simpl in Hw. apply andb_prop in Hw as [Hw1 Hw2].
    apply (returns_step T
             (λ h, validateByType h (p +:+ toString idx) (TypeOf c) c)
             (λ h, sliceFieldsLoop (validateByType h) s (S idx) p));
      [intros; by eapply validateByType_rules| |by apply IHs].
    apply returns_register. by apply Hc.
Qed.

(** X14.  On a value that is a finite tree (no map or slice contains
    itself), a validation call returns an error map, it does not panic,
    when every rule expression of the table (tags merged) is empty or
    names a registered rule and the value can be walked through: no nil
    value and no map or slice of another type where the traversal looks
    at it. *)
Theorem known_rules_no_panic (h : Heap) (i : Input) (r : loc) :
  accepted i = true →
  isNode (rootType i) (rootValue i) = true →
  walkable (rootValue i) = true →
  tableKnown (sessionTable h i r) →
  ∃ errs, (run h i r).2 = Ok errs.
Proof.
  intros Ha Hn Hw HT. rewrite run_accepted by done. simpl.
  assert (rootType i = TypeOf (rootValue i)) as Et.
  { destruct i as [val|m|s]; simpl in *; try done. by destruct val. }
  unfold traversal. rewrite Et.
  destruct (returns_dispatch (sessionTable h i r) (rootValue i) HT Hw ""
              (session h i r).1 (session h i r).2 eq_refl) as [v1 E].
  rewrite E. simpl. by eexists.
Qed.

(** ** The entry of the error map at a reached field *)

Lemma table_blank T :
  table {[1%positive := T]} (mkValidation 1%positive ∅ ∅) = T.
Proof. unfold table; simpl. by rewrite lookup_singleton_eq. Qed.

Lemma loop_errors_bound T f ps e :
  (∃ out, writes T f out ∧ loopEffect out) → bounded f ps →
  effectOf T f = Ok e →
  dom e.1 ⊆ list_to_set ps ∧ e.2 ⊆ list_to_set ps.
Proof.
  intros (o & Wo & Eo) Hb E.
  pose proof (writes_effectOf T _ o Wo) as Eq. rewrite E in Eq. subst o.
  specialize (Eo e eq_refl).
  assert (e.2 ⊆ list_to_set ps) as Hv; [|split; set_solver].
  unfold effectOf in E.
  destruct (f _ _) as [v'|] eqn:Ev; [|done].
  simplify_eq. intros q Hq. apply elem_of_list_to_set.
  destruct (Hb _ _ _ Ev q Hq) as [Hq'|Hq']; [|done].
  simpl in Hq'. set_solver.
Qed.

Lemma call_bound T name t c e :
  effectOf T (λ h, validateByType h name t c) = Ok e →
  dom e.1 ⊆ list_to_set (name :: paths c name)
  ∧ e.2 ⊆ list_to_set (name :: paths c name).
Proof.
  intros E.
  destruct (writes_validateByType T c name t) as (o & Wo & Eo).
  pose proof (writes_effectOf T _ o Wo) as Eq. rewrite E in Eq. subst o.
  destruct (Eo e eq_refl) as [_ Hd].
  assert (e.2 ⊆ list_to_set (name :: paths c name)) as Hv;
    [|split; set_solver].
  unfold effectOf in E.
  destruct (validateByType _ name t c _) as [v'|] eqn:Ev; [|done].
  simplify_eq. intros q Hq. apply elem_of_list_to_set.
  destruct (bounded_validateByType c name t _ _ _ Ev q Hq) as [Hq'|Hq'];
    [|done].
  simpl in Hq'. set_solver.
Qed.

Lemma structLoop_bound T fs p e :
  effectOf T (λ h, structFieldsLoop (validateByType h) fs p) = Ok e →
  dom e.1 ⊆ list_to_set (structPaths paths fs p)
  ∧ e.2 ⊆ list_to_set (structPaths paths fs p).
Proof.
  apply loop_errors_bound.
  - apply writes_structLoop, Forall_forall. intros x _.
    apply writes_validateByType.
  - apply bounded_structLoop, Forall_forall. intros x _.
    apply bounded_validateByType.
Qed.

Lemma mapLoop_bound T m p e :
  effectOf T (λ h, mapFieldsLoop (validateByType h) m p) = Ok e →
  dom e.1 ⊆ list_to_set (mapPaths paths m p)
  ∧ e.2 ⊆ list_to_set (mapPaths paths m p).
Proof.
  apply loop_errors_bound.
  - apply writes_mapLoop, Forall_forall. intros x _.
    apply writes_validateByType.
  - apply bounded_mapLoop, Forall_forall. intros x _.
    apply bounded_validateByType.
Qed.

Lemma sliceLoop_bound T s idx p e :
  effectOf T (λ h, sliceFieldsLoop (validateByType h) s idx p) = Ok e →
  dom e.1 ⊆ list_to_set (slicePaths paths s idx p)
  ∧ e.2 ⊆ list_to_set (slicePaths paths s idx p).
Proof.
  apply loop_errors_bound.
  - apply writes_sliceLoop, Forall_forall. intros x _.
    apply writes_validateByType.
  - apply bounded_sliceLoop, Forall_forall. intros x _.
    apply bounded_validateByType.
Qed.

Lemma mapPaths_elem m p k c :
  (k, c) ∈ m → ((p +:+ k) :: paths c (p +:+ k)) ⊆ mapPaths paths m p.
Proof.
  induction m as [|[kj cj] m IH]; [by intros ?%elem_of_nil|].
  intros [[= <- <-]|Hin]%elem_of_cons; simpl.
  - set_solver.
  - specialize (IH Hin). set_solver.
Qed.

Lemma slicePaths_elem s idx p j c :
  s !! j = Some c →
  ((p +:+ toString (idx + j)) :: paths c (p +:+ toString (idx + j)))
  ⊆ slicePaths paths s idx p.
Proof.
  revert idx j. induction s as [|cj s IH]; intros idx j; [done|].
  destruct j as [|j]; simpl.
  - intros [= ->]. rewrite Nat.add_0_r. set_solver.
  - intros Hj. specialize (IH (S idx) j Hj).
    rewrite Nat.add_succ_r. simpl in IH. set_solver.
Qed.

(** What the loop over the fields of a struct records at a path inside
    one field is what the call on that field records there, when no two
    fields share a path. *)
Lemma structLoop_lookup T fs p fi c q :
  NoDup (structPaths paths fs p) → (fi, c) ∈ fs → f_exported fi = true →
  q ∈ (p +:+ f_name fi) :: paths c (p +:+ f_name fi) →
  ∀ e, effectOf T (λ h, structFieldsLoop (validateByType h) fs p) = Ok e →
    ∃ e', effectOf T (λ h, validateByType h (p +:+ f_name fi)
                             (fieldType fi c) c) = Ok e'
          ∧ e.1 !! q = e'.1 !! q ∧ (q ∈ e.2 ↔ q ∈ e'.2).
Proof.
  intros Hnd Hin Hex Hq.
  induction fs as [|[fj cj] fs IH]; [by apply elem_of_nil in Hin|].
  intros e. rewrite effectOf_structLoop_cons.
  simpl in Hnd. rewrite app_comm_cons in Hnd.
  apply NoDup_app in Hnd as (N1 & Hd & N2).
  apply elem_of_cons in Hin as [[= <- <-]|Hin].
  - rewrite Hex.
    destruct (effectOf T (λ h, validateByType h _ _ c)) as [e1|];
      simpl; [|done].
    destruct (effectOf T (λ h, structFieldsLoop _ fs p)) as [e2|] eqn:E2;
      simpl; [|done].
    intros [= <-]. exists e1. split; [done|]. simpl.
    destruct (structLoop_bound _ _ _ _ E2) as [B1 B2].
    assert (q ∉ (list_to_set (structPaths paths fs p) : gset string)) as Hq2
      by (rewrite elem_of_list_to_set; by apply (Hd q)).
    split; [|set_solver].
    apply lookup_union_r, not_elem_of_dom. set_solver.
  - assert (q ∈ structPaths paths fs p) as Hq'
      by by apply (structPaths_elem fs p fi c Hin).
    destruct (f_exported fj); [|by apply IH].
    destruct (effectOf T (λ h, validateByType h _ _ cj)) as [e1|] eqn:E1;
      simpl; [|done].
    destruct (effectOf T (λ h, structFieldsLoop _ fs p)) as [e2|] eqn:E2;
      simpl; [|done].
    intros [= <-]. destruct (IH N2 Hin e2 eq_refl) as (e' & E' & El & Ev).
    exists e'. split; [done|]. simpl. rewrite <- El, <- Ev.
    destruct (call_bound _ _ _ _ _ E1) as [B1 B2].
    assert (q ∉ (list_to_set ((p +:+ f_name fj) :: paths cj (p +:+ f_name fj)) : gset string)) as Hq1.
    { rewrite elem_of_list_to_set. intros Hq1. by apply (Hd q). }
    split; [|set_solver].
    apply lookup_union_l, not_elem_of_dom. set_solver.
Qed.

Lemma mapLoop_lookup T m p k c q :
  NoDup (mapPaths paths m p) → (k, c) ∈ m →
  q ∈ (p +:+ k) :: paths c (p +:+ k) →
  ∀ e, effectOf T (λ h, mapFieldsLoop (validateByType h) m p) = Ok e →
    ∃ e', effectOf T (λ h, validateByType h (p +:+ k) (TypeOf c) c) = Ok e'
          ∧ e.1 !! q = e'.1 !! q ∧ (q ∈ e.2 ↔ q ∈ e'.2).
Proof.
  intros Hnd Hin Hq.
  induction m as [|[kj cj] m IH]; [by apply elem_of_nil in Hin|].
  intros e. rewrite effectOf_mapLoop_cons.
  simpl in Hnd. rewrite app_comm_cons in Hnd.
  apply NoDup_app in Hnd as (N1 & Hd & N2).
  destruct (effectOf T (λ h, validateByType h _ _ cj)) as [e1|] eqn:E1;
    simpl; [|done].
  destruct (effectOf T (λ h, mapFieldsLoop _ m p)) as [e2|] eqn:E2;
    simpl; [|done].
  intros [= <-].
  apply elem_of_cons in Hin as [[= <- <-]|Hin].
  - exists e1. split; [done|]. simpl.
    destruct (mapLoop_bound _ _ _ _ E2) as [B1 B2].
    assert (q ∉ (list_to_set (mapPaths paths m p) : gset string)) as Hq2
      by (rewrite elem_of_list_to_set; by apply (Hd q)).
    split; [|set_solver].
    apply lookup_union_r, not_elem_of_dom. set_solver.
  - assert (q ∈ mapPaths paths m p) as Hq'
      by by apply (mapPaths_elem m p k c Hin).
    destruct (IH N2 Hin e2 eq_refl) as (e' & E' & El & Ev).
    exists e'. split; [done|]. simpl. rewrite <- El, <- Ev.
    destruct (call_bound _ _ _ _ _ E1) as [B1 B2].
    assert (q ∉ (list_to_set ((p +:+ kj) :: paths cj (p +:+ kj)) : gset string)) as Hq1.
    { rewrite elem_of_list_to_set. intros Hq1. by apply (Hd q). }
    split; [|set_solver].
    apply lookup_union_l, not_elem_of_dom. set_solver.
Qed.

Lemma sliceLoop_lookup T s idx p j c q :
  NoDup (slicePaths paths s idx p) → s !! j = Some c →
  q ∈ (p +:+ toString (idx + j)) :: paths c (p +:+ toString (idx + j)) →
  ∀ e, effectOf T (λ h, sliceFieldsLoop (validateByType h) s idx p) = Ok e →
    ∃ e', effectOf T (λ h, validateByType h (p +:+ toString (idx + j))
                             (TypeOf c) c) = Ok e'
          ∧ e.1 !! q = e'.1 !! q ∧ (q ∈ e.2 ↔ q ∈ e'.2).
Proof.
  revert idx j. induction s as [|cj s IH]; intros idx j Hnd Hj Hq; [done|].
  intros e. rewrite effectOf_sliceLoop_cons.
  simpl in Hnd. rewrite app_comm_cons in Hnd.
  apply NoDup_app in Hnd as (N1 & Hd & N2).
  destruct (effectOf T (λ h, validateByType h _ _ cj)) as [e1|] eqn:E1;
    simpl; [|done].
  destruct (effectOf T (λ h, sliceFieldsLoop _ s (S idx) p)) as [e2|] eqn:E2;
    simpl; [|done].
  intros [= <-]. destruct j as [|j]; simpl in Hj.
  - injection Hj as ->. rewrite Nat.add_0_r in *.
    exists e1. split; [done|]. simpl.
    destruct (sliceLoop_bound _ _ _ _ _ E2) as [B1 B2].
    assert (q ∉ (list_to_set (slicePaths paths s (S idx) p) : gset string)) as Hq2
      by (rewrite elem_of_list_to_set; by apply (Hd q)).
    split; [|set_solver].
    apply lookup_union_r, not_elem_of_dom. set_solver.
  - rewrite Nat.add_succ_r in *.
    assert (q ∈ slicePaths paths s (S idx) p) as Hq'.
    { pose proof (slicePaths_elem s (S idx) p j c Hj) as Hs. simpl in Hs.
      by apply Hs. }
    destruct (IH (S idx) j N2 Hj Hq e2 E2) as (e' & E' & El & Ev).
    exists e'. split; [done|]. simpl. rewrite <- El, <- Ev.
    destruct (call_bound _ _ _ _ _ E1) as [B1 B2].
    assert (q ∉ (list_to_set ((p +:+ toString idx) :: paths cj (p +:+ toString idx)) : gset string)) as Hq1.
    { rewrite elem_of_list_to_set. intros Hq1. by apply (Hd q). }
    split; [|set_solver].
    apply lookup_union_l, not_elem_of_dom. set_solver.
Qed.

(** The paths of a child call are a stretch of the paths of its
    parent. *)
Lemma kids_inside val n k :
  k ∈ kids val n → inside k ⊆ paths val n.
Proof.
  unfold kids, inside. destruct val as [| |fs|m|s| |]; simpl;
    try by intros ?%elem_of_nil.
  - intros ([fi c] & Hin & Hf)%list_elem_of_omap. simpl in Hf.
    destruct (f_exported fi); [|done]. injection Hf as <-. simpl.
    by apply structPaths_elem.
  - intros ([kk c] & -> & Hin)%list_elem_of_fmap. simpl.
    by apply mapPaths_elem.
  - intros (j & c & -> & Hj)%elem_of_lookup_imap. simpl.
    by apply (slicePaths_elem s 0 _ j c).
Qed.

Lemma segment_NoDup (x : string) (l l1 l2 : list string) :
  NoDup (l1 ++ (x :: l) ++ l2) → NoDup (x :: l).
Proof. intros (_ & _ & Hn)%NoDup_app. by apply NoDup_app in Hn as (Hn & _). Qed.

Lemma structPaths_segment fs p fi c :
  (fi, c) ∈ fs →
  ∃ l1 l2, structPaths paths fs p
           = l1 ++ ((p +:+ f_name fi) :: paths c (p +:+ f_name fi)) ++ l2.
Proof.
  induction fs as [|[fj cj] fs IH]; [by intros ?%elem_of_nil|].
  intros [[= <- <-]|Hin]%elem_of_cons; simpl.
  - by exists [], (structPaths paths fs p).
  - destruct (IH Hin) as (l1 & l2 & ->).
    exists ((p +:+ f_name fj) :: paths cj (p +:+ f_name fj) ++ l1), l2.
    simpl. by rewrite (app_assoc (paths cj _) l1).
Qed.

Lemma mapPaths_segment m p k c :
  (k, c) ∈ m →
  ∃ l1 l2, mapPaths paths m p
           = l1 ++ ((p +:+ k) :: paths c (p +:+ k)) ++ l2.
Proof.
  induction m as [|[kj cj] m IH]; [by intros ?%elem_of_nil|].
  intros [[= <- <-]|Hin]%elem_of_cons; simpl.
  - by exists [], (mapPaths paths m p).
  - destruct (IH Hin) as (l1 & l2 & ->).
    exists ((p +:+ kj) :: paths cj (p +:+ kj) ++ l1), l2.
    simpl. by rewrite (app_assoc (paths cj _) l1).
Qed.

Lemma slicePaths_segment s idx p j c :
  s !! j = Some c →
  ∃ l1 l2, slicePaths paths s idx p
           = l1 ++ ((p +:+ toString (idx + j))
                      :: paths c (p +:+ toString (idx + j))) ++ l2.
Proof.
  revert idx j. induction s as [|cj s IH]; intros idx j; [done|].
  destruct j as [|j]; simpl.
  - intros [= ->]. rewrite Nat.add_0_r.
    by exists [], (slicePaths paths s (S idx) p).
  - intros Hj. destruct (IH (S idx) j Hj) as (l1 & l2 & E).
    rewrite Nat.add_succ_r. simpl in E. rewrite E.
    exists ((p +:+ toString idx) :: paths cj (p +:+ toString idx) ++ l1), l2.
    simpl. by rewrite (app_assoc (paths cj _) l1).
Qed.

Lemma kids_NoDup val n k :
  k ∈ kids val n → NoDup (paths val n) → NoDup (inside k).
Proof.
  unfold kids, inside. destruct val as [| |fs|m|s| |]; simpl;
    try by intros ?%elem_of_nil.
  - intros ([fi c] & Hin & Hf)%list_elem_of_omap. simpl in Hf.
    destruct (f_exported fi); [|done]. injection Hf as <-. simpl.
    destruct (structPaths_segment fs (makeParentNameJoinable n) fi c Hin)
      as (l1 & l2 & ->). apply segment_NoDup.
  - intros ([kk c] & -> & Hin)%list_elem_of_fmap. simpl.
    destruct (mapPaths_segment m (makeParentNameJoinable n) kk c Hin)
      as (l1 & l2 & ->). apply segment_NoDup.
  - intros (j & c & -> & Hj)%elem_of_lookup_imap. simpl.
    destruct (slicePaths_segment s 0 (makeParentNameJoinable n) j c Hj)
      as (l1 & l2 & E). simpl in E. rewrite E. apply segment_NoDup.
Qed.

Lemma reaches_inside T k c : reaches T k c → c.1.1 ∈ inside k.
Proof.
  induction 1 as [c|k k' c Hd Hk Hr IH]; [apply list_elem_of_here|].
  unfold inside at 1. apply elem_of_cons. right.
  by apply (kids_inside _ _ k').
Qed.

(** A composite whose own rules pass: what it records at a path inside
    one of its children is what the call on that child records there. *)
Lemma descends_lookup T n t val k q e :
  descends T (n, t, val) → NoDup (paths val n) →
  k ∈ kids val n → q ∈ inside k →
  effectOf T (λ h, dispatch h n t val) = Ok e →
  ∃ e', effectOf T (λ h, validateByType h k.1.1 k.1.2 k.2) = Ok e'
        ∧ e.1 !! q = e'.1 !! q ∧ (q ∈ e.2 ↔ q ∈ e'.2).
Proof.
  intros [Hn Ho] Hnd Hk Hq E. unfold ownRules in Ho. simpl in Hn, Ho.
  unfold kids in Hk. unfold inside in Hq.
  destruct t as [[]|], val as [| |fs|m|s| |]; try discriminate Hn;
    simpl in Hnd.
  - assert (effectOf T (λ h, structFieldsLoop (validateByType h) fs
                               (makeParentNameJoinable n)) = Ok e) as E'.
    { rewrite <- E. unfold effectOf, dispatch, validateStruct_,
        validateStructFields_. cbv zeta.
      by rewrite getParentRules_table, table_blank, Ho. }
    apply list_elem_of_omap in Hk as ([fi c] & Hin & Hf). simpl in Hf.
    destruct (f_exported fi) eqn:Ex; [|done]. injection Hf as <-.
    by apply (structLoop_lookup T fs _ fi c q Hnd Hin Ex Hq).
  - assert (effectOf T (λ h, mapFieldsLoop (validateByType h) m
                               (makeParentNameJoinable n)) = Ok e) as E'.
    { rewrite <- E. unfold effectOf, dispatch, validateMap_,
        validateMapFields_. cbv zeta.
      by rewrite getParentRules_table, table_blank, Ho. }
    apply list_elem_of_fmap in Hk as ([kk c] & -> & Hin).
    by apply (mapLoop_lookup T m _ kk c q Hnd Hin Hq).
  - assert (effectOf T (λ h, sliceFieldsLoop (validateByType h) s 0
                               (makeParentNameJoinable n)) = Ok e) as E'.
    { rewrite <- E. unfold effectOf, dispatch, validateSlice_,
        validateSliceFields_. cbv zeta.
      by rewrite getParentRules_table, table_blank, Ho. }
    apply elem_of_lookup_imap in Hk as (j & c & -> & Hj).
    by apply (sliceLoop_lookup T s 0 _ j c q Hnd Hj Hq).
Qed.

(** What a call records at its own path is the verdict of its rule
    spec, when no field inside its value has that path. *)
Lemma dispatch_verdict T n t val rs e :
  rulesAt T (n, t, val) = Some rs → n ∉ paths val n →
  effectOf T (λ h, dispatch h n t val) = Ok e →
  ∃ ec, Validate n val rs = Ok ec ∧ e.1 !! n = ec.
Proof.
  unfold rulesAt. simpl. intros Hr Hn E.
  destruct t as [[]|]; try discriminate Hr.
  - injection Hr as <-.
    destruct (Validate n val (parentRulesOf T n)) as [[err|]|] eqn:Ev.
    + unfold effectOf, dispatch, validateStruct_ in E. cbv zeta in E.
      rewrite getParentRules_table, table_blank, Ev in E. simpl in E.
      simplify_eq. exists (Some err). split; [done|]. simpl.
      apply lookup_insert_eq.
    + exists None. split; [done|].
      destruct val as [| |fs| | | |];
        try (unfold effectOf, dispatch, validateStruct_ in E; cbv zeta in E;
             rewrite getParentRules_table, table_blank, Ev in E;
             discriminate E).
      assert (effectOf T (λ h, structFieldsLoop (validateByType h) fs
                                 (makeParentNameJoinable n)) = Ok e) as E'.
      { rewrite <- E. unfold effectOf, dispatch, validateStruct_,
          validateStructFields_. cbv zeta.
        by rewrite getParentRules_table, table_blank, Ev. }
      apply not_elem_of_dom. intros Hd.
      apply (proj1 (structLoop_bound _ _ _ _ E')), elem_of_list_to_set in Hd. done.
    + unfold effectOf, dispatch, validateStruct_ in E. cbv zeta in E.
      by rewrite getParentRules_table, table_blank, Ev in E.
  - destruct val as [| | |m| | |]; try discriminate Hr. injection Hr as <-.
    destruct (Validate n (VMap m) (parentRulesOf T n)) as [[err|]|] eqn:Ev.
    + unfold effectOf, dispatch, validateMap_ in E. cbv zeta in E.
      rewrite getParentRules_table, table_blank, Ev in E. simpl in E.
      simplify_eq. exists (Some err). split; [done|]. simpl.
      apply lookup_insert_eq.
    + exists None. split; [done|].
      assert (effectOf T (λ h, mapFieldsLoop (validateByType h) m
                                 (makeParentNameJoinable n)) = Ok e) as E'.
      { rewrite <- E. unfold effectOf, dispatch, validateMap_,
          validateMapFields_. cbv zeta.
        by rewrite getParentRules_table, table_blank, Ev. }
      apply not_elem_of_dom. intros Hd.
      apply (proj1 (mapLoop_bound _ _ _ _ E')), elem_of_list_to_set in Hd. done.
    + unfold effectOf, dispatch, validateMap_ in E. cbv zeta in E.
      by rewrite getParentRules_table, table_blank, Ev in E.
  - destruct val as [| | | |s| |]; try discriminate Hr. injection Hr as <-.
    destruct (Validate n (VSlice s) (parentRulesOf T n)) as [[err|]|] eqn:Ev.
    + unfold effectOf, dispatch, validateSlice_ in E. cbv zeta in E.
      rewrite getParentRules_table, table_blank, Ev in E. simpl in E.
      simplify_eq. exists (Some err). split; [done|]. simpl.
      apply lookup_insert_eq.
    + exists None. split; [done|].
      assert (effectOf T (λ h, sliceFieldsLoop (validateByType h) s 0
                                 (makeParentNameJoinable n)) = Ok e) as E'.
      { rewrite <- E. unfold effectOf, dispatch, validateSlice_,
          validateSliceFields_. cbv zeta.
        by rewrite getParentRules_table, table_blank, Ev. }
      apply not_elem_of_dom. intros Hd.
      apply (proj1 (sliceLoop_bound _ _ _ _ _ E')), elem_of_list_to_set in Hd. done.
    + unfold effectOf, dispatch, validateSlice_ in E. cbv zeta in E.
      by rewrite getParentRules_table, table_blank, Ev in E.
  - injection Hr as <-. unfold effectOf, dispatch in E.
    rewrite getFieldRules_table, table_blank in E.
    destruct (Validate n val (fieldRulesOf T n)) as [[err|]|]; simpl in E;
      simplify_eq; eexists; (split; [done|]); simpl;
      [apply lookup_insert_eq|apply lookup_empty].
  - injection Hr as <-. unfold effectOf, dispatch in E.
    rewrite getFieldRules_table, table_blank in E.
    destruct (Validate n val (fieldRulesOf T n)) as [[err|]|]; simpl in E;
      simplify_eq; eexists; (split; [done|]); simpl;
      [apply lookup_insert_eq|apply lookup_empty].
Qed.

Lemma validateByType_errors T n t val e :
  effectOf T (λ h, validateByType h n t val) = Ok e →
  ∃ e0, effectOf T (λ h, dispatch h n t val) = Ok e0
        ∧ e.1 = e0.1 ∧ e.2 = e0.2 ∪ {[n]}.
Proof.
  rewrite effectOf_validateByType.
  destruct (effectOf T (λ h, dispatch h n t val)) as [e0|]; simpl; [|done].
  intros [= <-]. exists e0. split; [done|]. simpl.
  by rewrite (right_id_L ∅ (∪)).
Qed.

Lemma reaches_verdict T k c :
  reaches T k c → NoDup (inside k) →
  ∀ rs e, rulesAt T c = Some rs →
    effectOf T (λ h, validateByType h k.1.1 k.1.2 k.2) = Ok e →
    ∃ ec, Validate c.1.1 c.2 rs = Ok ec ∧ e.1 !! c.1.1 = ec.
Proof.
  induction 1 as [[[n t] val]|[[n t] val] k c Hd Hk Hr IH];
    intros Hnd rs e Hrs E; simpl in *.
  - destruct (validateByType_errors T n t val e E) as (e0 & E0 & -> & _).
    apply NoDup_cons in Hnd as [Hn _].
    by apply (dispatch_verdict T n t val rs e0).
  - destruct (validateByType_errors T n t val e E) as (e0 & E0 & -> & _).
    apply NoDup_cons in Hnd as [_ Hnd].
    destruct (descends_lookup T n t val k c.1.1 e0 Hd Hnd Hk
                (reaches_inside T k c Hr) E0) as (e' & E' & -> & _).
    apply (IH (kids_NoDup val n k Hk Hnd) rs e' Hrs E').
Qed.

(** X15.  In a value no two fields of which have the same path, the entry of
    the returned error map at the path of a field the traversal reaches is
    the verdict of the field's rule spec: the message of the first
    expression that fails, and no entry when every expression passes. *)
Theorem reached_field_verdict (h : Heap) (i : Input) (r : loc) (c : Call)
    (rs : list string) (errs : gmap string string) :
  reachesInside (sessionTable h i r) (rootCall i) c →
  NoDup (paths (rootValue i) "") →
  rulesAt (sessionTable h i r) c = Some rs →
  (run h i r).2 = Ok errs →
  ∃ e, Validate c.1.1 c.2 rs = Ok e ∧ errs !! c.1.1 = e.
Proof.
  intros Hr Hnd Hrs Hrun.
  destruct (run_Ok _ _ _ _ Hrun) as (v1 & Ht & ->).
  pose proof (reachesInside_visited _ _ _ _ _ _ Hr eq_refl Ht) as Hv.
  destruct Hr as (Hd & k & Hk & Hr). simpl in Hk.
  unfold traversal in Ht.
  rewrite (writer_dispatch (sessionTable h i r) "" (rootType i)
             (rootValue i) (session h i r).1 (session h i r).2 eq_refl) in Ht.
  destruct (effectOf _ _) as [e|] eqn:E; simpl in Ht; [|done].
  destruct (descends_lookup _ _ _ _ k c.1.1 e Hd Hnd Hk
              (reaches_inside _ k c Hr) E) as (e' & E' & El & _).
  destruct (reaches_verdict _ k c Hr (kids_NoDup _ _ k Hk Hnd) rs e' Hrs E')
    as (ec & Hec & Hl).
  exists ec. split; [done|].
  destruct (pass_spec (session h i r).1 v1) as (_ & _ & Ep).
  rewrite Ep. unfold requiredAbsent.
  assert (errors v1 !! c.1.1 = ec) as <-.
  { simplify_eq. simpl.
    change (errors (session h i r).2) with (∅ : gmap string string).
    by rewrite (right_id_L ∅ (∪)), El. }
  destruct (decide (c.1.1 = "*")); [done|].
  by destruct (decide (c.1.1 ∈ fieldsExist v1)).
Qed.

(** ** Required fields that are never met *)

Lemma pass_reports h v q rs :
  table h v !! q = Some rs → hasRequired rs → q ≠ "*" →
  q ∉ fieldsExist v →
  is_Some (errors (validateNonExistRequiredFields h v) !! q)
  ∧ errors (validateNonExistRequiredFields h v) !! q
    = last (requiredMessages q rs).
Proof.
  intros HT Hreq Hstar Hv.
  destruct (pass_spec h v) as (_ & _ & E). rewrite E.
  unfold requiredAbsent. rewrite !decide_False by done. rewrite HT. simpl.
  apply (hasRequired_messages q) in Hreq as [msg Hmsg].
  rewrite Hmsg. by split; [eexists|].
Qed.

(** X16.  An entry of the table (tags merged) with a [required] expression,
    at a path other than ["*"] that no field of the value has, always gets
    the required-but-absent message; this includes the keys of the form
    [parent.*]. *)
Theorem required_absent_path_reported (h : Heap) (i : Input) (r : loc)
    (q : string) (rs : list string) (errs : gmap string string) :
  (run h i r).2 = Ok errs →
  sessionTable h i r !! q = Some rs → hasRequired rs → q ≠ "*" →
  q ∉ paths (rootValue i) "" →
  is_Some (errs !! q) ∧ errs !! q = last (requiredMessages q rs).
Proof.
  intros Hrun HT Hreq Hstar Hq.
  destruct (run_Ok _ _ _ _ Hrun) as (v1 & Ht & ->).
  apply pass_reports; try done.
  - by rewrite (traversal_table _ _ _ _ Ht).
  - intros Hv. by apply Hq, (traversal_visited h i r v1).
Qed.

Lemma reaches_paths T k c : reaches T k c → inside c ⊆ inside k.
Proof.
  induction 1 as [c|k k' c Hd Hk Hr IH]; [done|].
  intros q Hq. unfold inside at 1. apply elem_of_cons. right.
  by apply (kids_inside _ _ k'), IH.
Qed.

(** Below a composite that fails its own rules no path is visited. *)
Lemma reaches_unvisited T k c :
  reaches T k c → NoDup (inside k) → failsOwn T c →
  ∀ e q, effectOf T (λ h, validateByType h k.1.1 k.1.2 k.2) = Ok e →
    q ∈ paths c.2 c.1.1 → q ∉ e.2.
Proof.
  induction 1 as [[[n t] val]|[[n t] val] k c Hd Hk Hr IH];
    intros Hnd Hf e q E Hq; simpl in *.
  - destruct (validateByType_errors T n t val e E) as (e0 & E0 & _ & ->).
    apply NoDup_cons in Hnd as [Hn _].
    unfold effectOf in E0.
    destruct (dispatch_failsOwn {[1%positive := T]} n t val
                (mkValidation 1%positive ∅ ∅)) as (err & _ & Ed);
      [by rewrite table_blank|].
    rewrite Ed in E0. simplify_eq. simpl. set_solver.
  - destruct (validateByType_errors T n t val e E) as (e0 & E0 & _ & ->).
    apply NoDup_cons in Hnd as [Hn Hnd].
    assert (q ∈ inside k) as Hqk.
    { apply (reaches_paths T k c Hr). unfold inside. set_solver. }
    destruct (descends_lookup T n t val k q e0 Hd Hnd Hk Hqk E0)
      as (e' & E' & _ & Hv).
    pose proof (IH (kids_NoDup val n k Hk Hnd) Hf e' q E' Hq) as Hq'.
    pose proof (kids_inside val n k Hk q Hqk) as Hqn.
    assert (q ≠ n) by (by intros ->). set_solver.
Qed.

(** X17.  When a composite the traversal reaches fails its own rules, every
    field inside it goes unvisited: the entries of the table with a
    [required] expression at paths inside it get the required-but-absent
    message, whether or not the data has the field. *)
Theorem required_below_failed_composite (h : Heap) (i : Input) (r : loc)
    (c : Call) (q : string) (rs : list string)
    (errs : gmap string string) :
  reaches (sessionTable h i r) (rootCall i) c →
  failsOwn (sessionTable h i r) c →
  NoDup (paths (rootValue i) "") →
  q ∈ paths c.2 c.1.1 →
  sessionTable h i r !! q = Some rs → hasRequired rs → q ≠ "*" →
  (run h i r).2 = Ok errs →
  is_Some (errs !! q) ∧ errs !! q = last (requiredMessages q rs).
Proof.
  intros Hr Hf Hnd Hq HT Hreq Hstar Hrun.
  destruct (run_Ok _ _ _ _ Hrun) as (v1 & Ht & ->).
  apply pass_reports; try done.
  { by rewrite (traversal_table _ _ _ _ Ht). }
  unfold traversal in Ht.
  inversion Hr as [c0 E0 Ec|c0 k c' Hd Hk Hr' E0 Ec]; subst.
  - destruct (dispatch_failsOwn (session h i r).1 "" (rootType i)
                (rootValue i) (session h i r).2 Hf) as (err & _ & Ed).
    rewrite Ed in Ht. simplify_eq. simpl. set_solver.
  - rewrite (writer_dispatch (sessionTable h i r) "" (rootType i)
               (rootValue i) (session h i r).1 (session h i r).2 eq_refl)
      in Ht.
    destruct (effectOf _ _) as [e|] eqn:E; simpl in Ht; [|done].
    assert (q ∈ inside k) as Hqk.
    { apply (reaches_paths _ k c Hr'). unfold inside. set_solver. }
    destruct (descends_lookup _ _ _ _ k q e Hd Hnd Hk Hqk E)
      as (e' & E' & _ & Hv).
    pose proof (reaches_unvisited _ k c Hr' (kids_NoDup _ _ k Hk Hnd) Hf
                  e' q E' Hq) as Hq'.
    simplify_eq. simpl.
    change (fieldsExist (session h i r).2) with (∅ : gset string).
    set_solver.
Qed.

End valdn_more.

(** * The claims on concrete inputs

    The helpers are those of [Sample]; the caller's table is at
    location 1 of a heap that holds nothing else. *)

Import Sample.

(** ** A nested map that is present but empty *)

Lemma userCall_reached :
  reaches (H:=ext) (sessionTable (H:=ext) (heapOf userRules) (InMap userMap) caller)
    (rootCall (InMap userMap)) userCall.
Proof.
  apply (reaches_kid _ _ userCall).
  - split; [reflexivity|]. by vm_compute.
  - apply list_elem_of_here.
  - apply reaches_here.
Qed.






Lemma shortCall_child_would_fail :
  Validate (H:=ext) "user.name" (str "bob") ["min:10"]
  = Ok (Some "user.name fails min:10").
Proof. by vm_compute. Qed.


(** ** A wildcard entry with [required] *)

(** C2, the code at the failing input: every element under [tags] is
    present and passes [required], and the error map still has an entry,
    keyed by the wildcard path itself. *)
Lemma wildcard_required_reports_wildcard_key :
  (run (H:=ext) (heapOf tagsRules) (InMap tagsMap) caller).2
  = Ok {[ "tags.*" := "tags.* fails required" ]}.
Proof. by vm_compute. Qed.

(** ** Rules at the root path *)

(** C3, the claim as stated fails: the traversal records the error of
    the [string] rule at the root path, which it never marks visited, and
    the pass over the required fields writes over it. *)
Lemma required_pass_overwrites_root_error :
  ∃ v1,
    traversal (H:=ext) (heapOf rootRules) (InMap oneField) caller = Ok v1
    ∧ errors v1 = {[ "" := " fails string" ]}
    ∧ fieldsExist v1 = ∅
    ∧ (run (H:=ext) (heapOf rootRules) (InMap oneField) caller).2
      = Ok {[ "" := " fails required" ]}.
Proof.
  eexists. split; [by vm_compute|]. split; [by vm_compute|].
  split; by vm_compute.
Qed.

(** ** Scenario D *)

Lemma required_pass_by_visited_set_witness :
  (run (H:=ext) (heapOf profileRules) (InMap noProfile) caller).2
  = Ok {[ "profile" := "profile fails required" ]}.
Proof.
  apply (proj2 (proj2 (required_pass_by_visited_set (H:=ext)))
           (heapOf profileRules) caller noProfile "").
  - by vm_compute.
  - reflexivity.
  - refine (bool_decide_unpack _ _). by vm_compute.
  - reflexivity.
Defined.

(** ** A field at the empty path *)

(** C4, the claim as stated fails: the table has no entry at the empty
    path, and [getFieldRules] resolves the empty path to the wildcard
    entry; a field whose key is empty, at the root of a map, is governed
    by it. *)
Lemma field_lookup_wildcard_at_empty_path :
  table (heapOf dotStarRules) (mkValidation caller ∅ ∅) !! "" = None
  ∧ getFieldRules (H:=ext) (heapOf dotStarRules) (mkValidation caller ∅ ∅) ""
    = ["min:3"]
  ∧ (run (H:=ext) (heapOf dotStarRules) (InMap emptyKey) caller).2
    = Ok {[ "" := " fails min:3" ]}.
Proof. split; [by vm_compute|]. split; by vm_compute. Qed.

(** ** A tag against an explicit entry *)

Lemma tag_rules_keep_explicit_entries_witness :
  table (addTagRules (H:=ext) (mkValidation caller ∅ ∅) true person ""
           (heapOf ageRules)) (mkValidation caller ∅ ∅) !! "Age"
  = Some ["min:5"]
  ∧ getFieldRules (H:=ext)
      (addTagRules (H:=ext) (mkValidation caller ∅ ∅) true person ""
         (heapOf ageRules)) (mkValidation caller ∅ ∅) "Age" = ["min:5"]
  ∧ getParentRules (H:=ext)
      (addTagRules (H:=ext) (mkValidation caller ∅ ∅) true person ""
         (heapOf ageRules)) (mkValidation caller ∅ ∅) "Age" = ["min:5"].
Proof.
  apply (tag_rules_keep_explicit_entries (H:=ext)). by vm_compute.
Defined.

(** The tag of a field without an entry is merged, and the explicit
    entry, not the tag, decides for [Age]. *)
Example person_tags_merged :
  table (addTagRules (H:=ext) (mkValidation caller ∅ ∅) true person ""
           (heapOf ageRules)) (mkValidation caller ∅ ∅)
  = {[ "Age" := ["min:5"]; "Name" := ["required"] ]}
  ∧ (run (H:=ext) (heapOf ageRules) (InStruct person) caller).2
    = Ok {[ "Name" := "Name fails required" ]}.
Proof. split; by vm_compute. Qed.

(** ** A rule that is not registered *)

Lemma fieldA_reached rs :
  ownRules (H:=ext) (sessionTable (H:=ext) (heapOf rs) (InMap oneField) caller)
    (rootCall (InMap oneField)) = Ok None →
  reaches (H:=ext) (sessionTable (H:=ext) (heapOf rs) (InMap oneField) caller)
    (rootCall (InMap oneField)) fieldA.
Proof.
  intros Ho. apply (reaches_kid _ _ fieldA).
  - by split.
  - apply list_elem_of_here.
  - apply reaches_here.
Qed.

Lemma unknown_rule_panics_witness :
  Validate (H:=ext) "a" (str "x") ["required"; ""; "nosuch"; "min:3"]
  = Panic "unknown rule: nosuch"
  ∧ panics (run (H:=ext) (heapOf unknownRules) (InMap oneField) caller).2.
Proof.
  apply (unknown_rule_panics (H:=ext) (heapOf unknownRules) (InMap oneField)
           caller fieldA).
  - apply fieldA_reached. by vm_compute.
  - by vm_compute.
  - exists ["required"; ""], "nosuch", ["min:3"], "".
    split; [reflexivity|]. split; [|by split].
    apply Forall_cons. split; [intros _; by vm_compute|].
    apply Forall_cons. split; [by intros ?|apply Forall_nil_2].
Defined.

(** ** A map of another type *)

Lemma mistyped_composite_panics_witness :
  (∀ h' v, panics (dispatch (H:=ext) h' fieldM.1.1 fieldM.1.2 fieldM.2 v))
  ∧ panics (run (H:=ext) (heapOf ∅) (InMap typedMap) caller).2.
Proof.
  apply (mistyped_composite_panics (H:=ext) (heapOf ∅) (InMap typedMap)
           caller fieldM).
  - apply (reaches_kid _ _ fieldM).
    + split; [reflexivity|by vm_compute].
    + apply list_elem_of_here.
    + apply reaches_here.
  - by left.
  - reflexivity.
Defined.

(** ** Scenario B: a field that is present and invalid *)

Lemma fieldName_inside :
  reachesInside (H:=ext)
    (sessionTable (H:=ext) (heapOf nameRules) (InMap nameMap) caller)
    (rootCall (InMap nameMap)) fieldName.
Proof.
  split; [split; [reflexivity|by vm_compute]|].
  exists ("user", Some KMap, VMap [("name", str "")]).
  split; [apply list_elem_of_here|].
  apply (reaches_kid _ _ fieldName).
  - split; [reflexivity|by vm_compute].
  - apply list_elem_of_here.
  - apply reaches_here.
Qed.

Lemma field_visited_before_rules_witness :
  (∀ h' v,
     validateByType (H:=ext) h' fieldName.1.1 fieldName.1.2 fieldName.2 v
     = dispatch (H:=ext) h' fieldName.1.1 fieldName.1.2 fieldName.2
         (registerField fieldName.1.1 v))
  ∧ ∃ v1,
      traversal (H:=ext) (heapOf nameRules) (InMap nameMap) caller = Ok v1
      ∧ fieldName.1.1 ∈ fieldsExist v1
      ∧ ({[ "user.name" := "user.name fails required" ]}
         : gmap string string) !! fieldName.1.1
        = errors v1 !! fieldName.1.1.
Proof.
  apply (field_visited_before_rules (H:=ext) (heapOf nameRules)
           (InMap nameMap) caller fieldName).
  - apply fieldName_inside.
  - by vm_compute.
Defined.

(** ** Two runs *)

(** The sample helpers do not see the order of maps. *)

Lemma same_length :
  (∀ c c', same c c' → True)
  ∧ (∀ fs fs', sameFields fs fs' → length fs = length fs')
  ∧ (∀ m m', sameEntries m m' → length m = length m')
  ∧ (∀ s s', sameElems s s' → length s = length s').
Proof.
  apply same_mutind; simpl; try done; congruence.
Qed.

Lemma same_sizeOf c c' :
  same c c' →
  sizeOf c = sizeOf c' ∧ isEmpty c = isEmpty c'
  ∧ (∀ s, c = VScalar s → c' = VScalar s)
  ∧ (∀ s, c' = VScalar s → c = VScalar s).
Proof.
  destruct 1 as [c|fs fs' Hs|m m' Hs|s s' Hs]; try done.
  - apply (proj1 (proj2 same_length)) in Hs.
    destruct fs, fs'; simpl in *; done || (split; [congruence|done]).
  - apply (proj1 (proj2 (proj2 same_length))) in Hs.
    destruct m, m'; simpl in *; done || (split; [congruence|done]).
  - apply (proj2 (proj2 (proj2 same_length))) in Hs.
    destruct s, s'; simpl in *; done || (split; [congruence|done]).
Qed.

Lemma ext_orderBlind : orderBlind (H:=ext).
Proof.
  intros c c' Hs.
  pose proof (proj1 (same_TypeOf c c' Hs)) as Ht.
  destruct (same_sizeOf c c' Hs) as (Hz & He & Hsc & Hsc').
  simpl. rewrite Ht. repeat split.
  intros r f name rVal. unfold ruleInfo.
  destruct (splitColon r) as [rName rv]; simpl. unfold registry.
  repeat case_decide; intros [= <-]; try by rewrite ?Hz, ?He.
  destruct c as [|sc| | | | |], c' as [|sc'| | | | |]; try done;
    try (by specialize (Hsc _ eq_refl)); try (by specialize (Hsc' _ eq_refl)).
  specialize (Hsc _ eq_refl). simplify_eq. done.
Qed.

Lemma pair_either_order :
  (run (H:=ext) (heapOf pairRules) (InMap pairOne) caller).2
  = Ok {[ "age" := "age fails min:18"; "name" := "name fails required" ]}
  ∧ (run (H:=ext) (heapOf pairRules) (InMap pairTwo) caller).2
    = Ok {[ "age" := "age fails min:18"; "name" := "name fails required" ]}.
Proof. split; by vm_compute. Qed.

Lemma second_run_same_result_witness :
  rules (session (H:=ext) (heapOf pairRules) (InMap pairOne) caller).2
  ≠ caller
  ∧ (run (H:=ext) (heapOf pairRules) (InMap pairOne) caller).1 !! caller
    = Some pairRules
  ∧ (run (H:=ext)
       (run (H:=ext) (heapOf pairRules) (InMap pairOne) caller).1
       (InMap pairOne) caller).2
    = (run (H:=ext) (heapOf pairRules) (InMap pairOne) caller).2
  ∧ (run (H:=ext)
       (run (H:=ext) (heapOf pairRules) (InMap pairOne) caller).1
       (InMap pairOne) caller).1 !! caller
    = Some pairRules
  ∧ sameOutcome
      (run (H:=ext) (heapOf pairRules) (InMap pairOne) caller).2
      (run (H:=ext)
         (run (H:=ext) (heapOf pairRules) (InMap pairOne) caller).1
         (InMap pairTwo) caller).2.
Proof.
  destruct (second_run_same_result (H:=ext) (heapOf pairRules)
              (InMap pairOne) (InMap pairTwo) caller pairRules)
    as (A & B & C & D & E).
  { by vm_compute. }
  repeat (split; [assumption|]).
  apply E.
  - apply ext_orderBlind.
  - split; [reflexivity|]. apply same_map, sameEntries_swap.
  - apply (bool_decide_unpack _). by vm_compute.
Defined.

(** C9, the claim as stated fails: for the same map and the same table
    the error map depends on the order in which the entries of the map
    are ranged over, which Go leaves open from one run to the next. *)
Lemma map_order_changes_error_map :
  clashOne ≡ₚ clashTwo
  ∧ NoDup clashOne.*1
  ∧ (run (H:=ext) (heapOf clashRules) (InMap clashOne) caller).2
    = Ok {[ "a.b" := "a.b fails required" ]}
  ∧ (run (H:=ext) (heapOf clashRules) (InMap clashTwo) caller).2
    = Ok {[ "a.b" := "a.b fails min:3" ]}.
Proof.
  split; [apply Permutation_swap|]. split.
  - apply (bool_decide_unpack _). by vm_compute.
  - split; by vm_compute.
Qed.

(** ** Scenarios A and C *)

Example scenario_A :
  Validate (H:=ext) "Age" (VScalar (SInt 10)) ["required"; "min:18"]
  = Ok (Some "Age fails min:18").
Proof. by vm_compute. Qed.

Example scenario_C :
  (run (H:=ext) (heapOf {[ "tags.*" := ["min:2"] ]})
     (InMap [("tags", VSlice [str "a"; str "bb"])]) caller).2
  = Ok {[ "tags.0" := "tags.0 fails min:2" ]}.
Proof. by vm_compute. Qed.

(** * The further properties on concrete inputs *)

Lemma traversal_only_adds_witness :
  rules (mkValidation caller {[ "name" := "name fails required" ]}
           {[ "name" ]}) = rules blank
  ∧ fieldsExist blank
    ⊆ fieldsExist (mkValidation caller {[ "name" := "name fails required" ]}
                     {[ "name" ]})
  ∧ dom (errors blank)
    ⊆ dom (errors (mkValidation caller
                     {[ "name" := "name fails required" ]} {[ "name" ]}))
  ∧ "name" ∈ fieldsExist (mkValidation caller
                            {[ "name" := "name fails required" ]}
                            {[ "name" ]}).
Proof.
  apply (traversal_only_adds (H:=ext) (heapOf pairRules) "name"
           (Some KOther) (str "") blank).
  by vm_compute.
Defined.

Lemma error_keys_bounded_witness :
  "user.name" = ""
  ∨ "user.name" ∈ paths (H:=ext) (rootValue (InMap userMap)) ""
  ∨ ("user.name" ≠ "*"
     ∧ ∃ rs, sessionTable (H:=ext) (heapOf userRules) (InMap userMap) caller
               !! "user.name" = Some rs
             ∧ hasRequired (H:=ext) rs).
Proof.
  apply (error_keys_bounded (H:=ext) (heapOf userRules) (InMap userMap)
           caller {[ "user" := "user fails required";
                     "user.name" := "user.name fails required" ]}).
  - by vm_compute.
  - eexists. by vm_compute.
Defined.

Lemma star_key_never_reported_witness :
  ({[ "profile" := "profile fails required" ]} : gmap string string) !! "*"
  = None.
Proof.
  apply (star_key_never_reported (H:=ext) (heapOf starRules) (InMap oneField)
           caller {[ "profile" := "profile fails required" ]}).
  - by vm_compute.
  - apply (bool_decide_unpack _). by vm_compute.
Defined.

Lemma fieldNil_reached :
  reaches (H:=ext) (sessionTable (H:=ext) (heapOf noRules) (InMap nilMap) caller)
    (rootCall (InMap nilMap)) fieldNil.
Proof.
  apply (reaches_kid _ _ fieldNil).
  - split; [reflexivity|]. by vm_compute.
  - apply list_elem_of_here.
  - apply reaches_here.
Qed.

Lemma nil_value_panics_witness :
  panics (run (H:=ext) (heapOf noRules) (InMap nilMap) caller).2.
Proof.
  apply (nil_value_panics (H:=ext) (heapOf noRules) (InMap nilMap) caller
           fieldNil).
  - apply fieldNil_reached.
  - reflexivity.
Defined.

Lemma nothing_to_visit_witness :
  ∃ errs, (run (H:=ext) (heapOf profileRules) (InMap []) caller).2 = Ok errs
    ∧ ∀ q, errs !! q
           = if decide (q = "*") then None
             else sessionTable (H:=ext) (heapOf profileRules) (InMap []) caller
                    !! q ≫= λ rs, last (requiredMessages (H:=ext) q rs).
Proof.
  apply (nothing_to_visit (H:=ext) (heapOf profileRules) (InMap []) caller).
  - reflexivity.
  - reflexivity.
  - split; [reflexivity|]. by vm_compute.
Defined.

Lemma required_pass_any_order_witness :
  fold_left (requiredEntry (H:=ext))
    (reverse (map_to_list (table (heapOf userRules) blank))) blank
  = validateNonExistRequiredFields (H:=ext) (heapOf userRules) blank.
Proof.
  apply (required_pass_any_order (H:=ext) (heapOf userRules) blank).
  apply reverse_Permutation.
Defined.

Lemma badge_paths : NoDup (paths (H:=ext) (VStruct badgeFields) "").
Proof. apply (bool_decide_unpack _). by vm_compute. Qed.

Lemma tag_governs_field_without_entry_witness :
  table (addTagRules (H:=ext) blank true (VStruct badgeFields) ""
           (heapOf noRules)) blank !! "Name"
  = Some ["required"; "min:2"]
  ∧ getFieldRules (H:=ext)
      (addTagRules (H:=ext) blank true (VStruct badgeFields) ""
         (heapOf noRules)) blank "Name"
    = ["required"; "min:2"]
  ∧ getParentRules (H:=ext)
      (addTagRules (H:=ext) blank true (VStruct badgeFields) ""
         (heapOf noRules)) blank "Name"
    = ["required"; "min:2"].
Proof.
  apply (tag_governs_field_without_entry (H:=ext) blank true badgeFields ""
           (heapOf noRules) badgeName (str "ann")).
  - done.
  - apply list_elem_of_here.
  - done.
  - apply badge_paths.
  - by vm_compute.
Defined.

Lemma unexported_required_field_reported_witness :
  is_Some (({[ "secret" := "secret fails required" ]} : gmap string string)
             !! "secret")
  ∧ ({[ "secret" := "secret fails required" ]} : gmap string string)
      !! "secret"
    = last (requiredMessages (H:=ext) "secret" ["required"]).
Proof.
  apply (unexported_required_field_reported (H:=ext) (heapOf noRules)
           badgeFields caller badgeSecret (str "s3") ["required"]
           {[ "secret" := "secret fails required" ]}).
  - by vm_compute.
  - apply list_elem_of_further, list_elem_of_here.
  - reflexivity.
  - apply badge_paths.
  - by vm_compute.
  - apply Exists_cons. left. reflexivity.
  - done.
Defined.

Lemma minAge_ungoverned :
  Forall (ungoverned (H:=ext) (default ∅ (heapOf minAgeRules !! caller)))
    (paths (H:=ext) (VMap noProfile) "").
Proof.
  apply Forall_forall. intros q Hq.
  apply (ungoverned_single (H:=ext) _ "age" ["min:18"]); [done|done|].
  intros ->. revert Hq. apply (bool_decide_unpack _). by vm_compute.
Qed.

Lemma minAge_no_required q rs :
  default ∅ (heapOf minAgeRules !! caller) !! q = Some rs →
  q = "*" ∨ ¬ hasRequired (H:=ext) rs.
Proof.
  change (default ∅ (heapOf minAgeRules !! caller))
    with ({[ "age" := ["min:18"] ]} : gmap string (list string)).
  intros [_ <-]%lookup_singleton_Some. right.
  intros [Hr|Hr%Exists_nil]%Exists_cons; [|done]. by vm_compute in Hr.
Qed.

Lemma ungoverned_plain_map_passes_witness :
  (run (H:=ext) (heapOf minAgeRules) (InMap noProfile) caller).2 = Ok ∅.
Proof.
  apply (ungoverned_plain_map_passes (H:=ext) (heapOf minAgeRules) caller
           noProfile).
  - reflexivity.
  - reflexivity.
  - apply minAge_ungoverned.
  - apply minAge_no_required.
Defined.

Lemma pairRules_known :
  tableKnown (H:=ext)
    (sessionTable (H:=ext) (heapOf pairRules) (InMap pairOne) caller).
Proof.
  assert (sessionTable (H:=ext) (heapOf pairRules) (InMap pairOne) caller
          = pairRules) as -> by by vm_compute.
  intros q rs. unfold pairRules.
  intros [[_ <-]|[_ [_ <-]%lookup_singleton_Some]]%lookup_insert_Some;
    apply Forall_cons; (split; [|done]); right; eexists; reflexivity.
Qed.

Lemma known_rules_no_panic_witness :
  ∃ errs, (run (H:=ext) (heapOf pairRules) (InMap pairOne) caller).2 = Ok errs.
Proof.
  apply (known_rules_no_panic (H:=ext) (heapOf pairRules) (InMap pairOne)
           caller).
  - reflexivity.
  - reflexivity.
  - reflexivity.
  - apply pairRules_known.
Defined.

Lemma reached_field_verdict_witness :
  ∃ e, Validate (H:=ext) "user.name" (str "") ["required"] = Ok e
       ∧ ({[ "user.name" := "user.name fails required" ]}
            : gmap string string) !! "user.name" = e.
Proof.
  apply (reached_field_verdict (H:=ext) (heapOf nameRules) (InMap nameMap)
           caller fieldName ["required"]
           {[ "user.name" := "user.name fails required" ]}).
  - apply fieldName_inside.
  - apply (bool_decide_unpack _). by vm_compute.
  - by vm_compute.
  - by vm_compute.
Defined.

Lemma required_absent_path_reported_witness :
  is_Some (({[ "tags.*" := "tags.* fails required" ]} : gmap string string)
             !! "tags.*")
  ∧ ({[ "tags.*" := "tags.* fails required" ]} : gmap string string)
      !! "tags.*"
    = last (requiredMessages (H:=ext) "tags.*" ["required"]).
Proof.
  apply (required_absent_path_reported (H:=ext) (heapOf tagsRules)
           (InMap tagsMap) caller "tags.*" ["required"]
           {[ "tags.*" := "tags.* fails required" ]}).
  - by vm_compute.
  - by vm_compute.
  - apply Exists_cons. left. reflexivity.
  - done.
  - apply (bool_decide_unpack _). by vm_compute.
Defined.

Lemma bobCall_reached :
  reaches (H:=ext) (sessionTable (H:=ext) (heapOf bobRules) (InMap bobMap) caller)
    (rootCall (InMap bobMap)) bobCall.
Proof.
  apply (reaches_kid _ _ bobCall).
  - split; [reflexivity|]. by vm_compute.
  - apply list_elem_of_here.
  - apply reaches_here.
Qed.

Lemma required_below_failed_composite_witness :
  is_Some (({[ "user" := "user fails min:5";
               "user.name" := "user.name fails required" ]}
              : gmap string string) !! "user.name")
  ∧ ({[ "user" := "user fails min:5";
        "user.name" := "user.name fails required" ]}
       : gmap string string) !! "user.name"
    = last (requiredMessages (H:=ext) "user.name" ["required"]).
Proof.
  apply (required_below_failed_composite (H:=ext) (heapOf bobRules)
           (InMap bobMap) caller bobCall "user.name" ["required"]
           {[ "user" := "user fails min:5";
              "user.name" := "user.name fails required" ]}).
  - apply bobCall_reached.
  - split; [reflexivity|]. eexists. by vm_compute.
  - apply (bool_decide_unpack _). by vm_compute.
  - apply list_elem_of_here.
  - by vm_compute.
  - apply Exists_cons. left. reflexivity.
  - done.
  - by vm_compute.
Defined.
